(** * chatgpt-exporter: retrieval-and-materialization engine

    A shallow embedding of the engine of the exporter:
    - [src/utils/retry.ts]      the backoff policy ([withRetry]),
    - [src/api/client.ts]       the network-call abstraction ([ChatGPTClient.fetch]),
    - [src/services/file-service.ts]   file-reference extraction and the
                                file download loop ([downloadFiles]),
    - [src/services/backup-service.ts] the incremental diff and the backup
                                download loop ([BackupService.backup]),
    - [src/cli/commands/backup.ts]     the permanent-failure memory
                                ([runFileDownloads]).

    Conventions.  JavaScript numbers that hold times and delays are binary64
    floats ([float]); counters and attempt numbers are integers.  An [async]
    function is a state transformer over an explicit world, and everything
    it does to the outside is appended to a trace.  The two download loops
    are run by an explicit scheduler: the caller of a run chooses which
    suspended computation resumes next and what the world answers.  Every
    awaited call may fail; the observers a caller installs ([onProgress],
    [onError], [onDownloadProgress], [onRetry]) and [console.log] are taken
    not to throw, and their calls are recorded. *)

From Stdlib Require Import ZArith List String Bool Lia Floats.
From stdpp Require Import gmap strings pretty.
Import ListNotations.

Local Open Scope string_scope.
Local Open Scope Z_scope.
Local Open Scope list_scope.

(** * Errors ([src/api/types.ts]) *)

(** A thrown [Error]: its [name], its [message] and the two optional payloads
    the subclasses add. *)
Record JsError : Type := mkError {
  err_name : string;
  err_message : string;
  err_statusCode : option Z;
  err_retryAfter : option float
}.

Definition AuthenticationError (message : string) : JsError :=
  mkError "AuthenticationError" message None None.

Definition RateLimitError (message : string) (retryAfter : option float) : JsError :=
  mkError "RateLimitError" message None retryAfter.

Definition NetworkError (message : string) (statusCode : option Z) : JsError :=
  mkError "NetworkError" message statusCode None.

(** What [new Error(message)] builds. *)
Definition PlainError (message : string) : JsError :=
  mkError "Error" message None None.

(** What a zod schema's [parse] throws on a value of the wrong shape. *)
Definition ZodError (message : string) : JsError :=
  mkError "ZodError" message None None.

(** What the engine throws when something that is not a function is
    called. *)
Definition TypeError (message : string) : JsError :=
  mkError "TypeError" message None None.

(** How an [async] call ends. *)
Inductive Completion (T : Type) : Type :=
| Returned (v : T)
| Threw (e : option JsError).   (* [None]: [throw undefined] *)

Arguments Returned {T} v.
Arguments Threw {T} e.

(** * Backoff policy ([src/utils/retry.ts]) *)

Module Retry.

Record RetryOptions : Type := mkRetryOptions {
  maxRetries : Z;
  baseDelay : float;
  maxDelay : float;
  onRetry : bool          (* is an observer installed? its calls are traced *)
}.

(** [Partial<RetryOptions>]: [None] is an absent key. *)
Record PartialRetryOptions : Type := mkPartial {
  p_maxRetries : option Z;
  p_baseDelay : option float;
  p_maxDelay : option float;
  p_onRetry : bool
}.

Definition noOptions : PartialRetryOptions := mkPartial None None None false.

Definition defaultOptions : RetryOptions :=
  mkRetryOptions 5 1000%float 60000%float false.

(** [{ ...defaultOptions, ...options }] *)
Definition mergeOptions (options : PartialRetryOptions) : RetryOptions :=
  mkRetryOptions
    (default (maxRetries defaultOptions) (p_maxRetries options))
    (default (baseDelay defaultOptions) (p_baseDelay options))
    (default (maxDelay defaultOptions) (p_maxDelay options))
    (p_onRetry options).

(** [Math.min] on two numbers: [NaN] if either is, and [-0] below [+0]. *)
Definition Math_min (a b : float) : float :=
  if PrimFloat.is_nan a || PrimFloat.is_nan b then nan
  else if PrimFloat.ltb b a then b
  else if PrimFloat.ltb a b then a
  else match PrimFloat.classify b with NZero => b | _ => a end.

(** [calculateDelay]; [rnd] is the value [Math.random()] returned. *)
Definition calculateDelay (attempt : Z) (baseDelay maxDelay rnd : float) : float :=
  let exponentialDelay := (baseDelay * Z.ldexp 1 attempt)%float in
  let jitter := (rnd * 0x1.3333333333333p-2 * exponentialDelay)%float in
  Math_min (exponentialDelay + jitter)%float maxDelay.

(** The test [withRetry] makes before it sleeps: an authentication
    rejection, or a network failure with status 404. *)
Definition is_non_retryable (e : JsError) : bool :=
  String.eqb (err_name e) "AuthenticationError"
  || (String.eqb (err_name e) "NetworkError"
      && match err_statusCode e with Some 404 => true | _ => false end).

(** What a run of [withRetry] does to the outside, in order. *)
Inductive Event : Type :=
| EvCall (attempt : Z)                                  (* [await fn()] *)
| EvOnRetry (e : JsError) (attempt : Z) (delay : float) (* [opts.onRetry?.(...)] *)
| EvSleep (delay : float).                              (* [await sleep(delay)] *)

Definition is_call (ev : Event) : bool :=
  match ev with EvCall _ => true | _ => false end.

(** How often the wrapped operation was invoked. *)
Definition calls (tr : list Event) : nat := length (List.filter is_call tr).

Section WithRetry.
(** The world the operation runs in, and what it resolves to. *)
Context {W T : Type}.
(** [fn]: one invocation of the wrapped operation. *)
Variable fn : W -> (JsError + T) * W.
(** [Math.random()] *)
Variable random : W -> float * W.
Variable opts : RetryOptions.

Definition observe (e : JsError) (attempt : Z) (delay : float) : list Event :=
  if onRetry opts then [EvOnRetry e attempt delay] else [].

(** The [for] loop of [withRetry], entered at the test [attempt <=
    opts.maxRetries]; [fuel] bounds the iterations still to come. *)
Fixpoint loop (fuel : nat) (attempt : Z) (lastError : option JsError)
    (w : W) (tr : list Event) : option (Completion T * W * list Event) :=
  match fuel with
  | O => None
  | S fuel' =>
    if attempt <=? maxRetries opts then
      match fn w with
      | (inr v, w1) => Some (Returned v, w1, tr ++ [EvCall attempt])
      | (inl e, w1) =>
        let tr1 := tr ++ [EvCall attempt] in
        if attempt =? maxRetries opts then Some (Threw (Some e), w1, tr1)
        else if is_non_retryable e then Some (Threw (Some e), w1, tr1)
        else
          let '(rnd, w2) := random w1 in
          let delay := calculateDelay attempt (baseDelay opts) (maxDelay opts) rnd in
          loop fuel' (attempt + 1) (Some e) w2
               (tr1 ++ observe e (attempt + 1) delay ++ [EvSleep delay])
      end
    else Some (Threw lastError, w, tr)
  end.

(** Iterations the loop can make from [attempt] on, the failing test
    included. *)
Definition fuel_from (attempt : Z) : nat :=
  S (Z.to_nat (maxRetries opts + 1 - attempt)).

Definition run (w : W) : option (Completion T * W * list Event) :=
  loop (fuel_from 0) 0 None w [].

(** The states in which a run from [w0] evaluates the loop test. *)
Inductive at_attempt (w0 : W) : Z -> option JsError -> W -> list Event -> Prop :=
| at_first : at_attempt w0 0 None w0 []
| at_next attempt lastError w tr e w1 rnd w2 :
    at_attempt w0 attempt lastError w tr ->
    attempt < maxRetries opts ->
    fn w = (inl e, w1) ->
    is_non_retryable e = false ->
    random w1 = (rnd, w2) ->
    at_attempt w0 (attempt + 1) (Some e) w2
      ((tr ++ [EvCall attempt])
          ++ observe e (attempt + 1)
               (calculateDelay attempt (baseDelay opts) (maxDelay opts) rnd)
          ++ [EvSleep (calculateDelay attempt (baseDelay opts) (maxDelay opts) rnd)]).

End WithRetry.

(** [withRetry(fn, options)] *)
Definition withRetry {W T : Type} (fn : W -> (JsError + T) * W)
    (random : W -> float * W) (options : PartialRetryOptions) (w : W)
  : option (Completion T * W * list Event) :=
  run fn random (mergeOptions options) w.

End Retry.

(** * Network-call abstraction ([src/api/client.ts]) *)

Module Client.

Definition BASE_URL : string := "https://chatgpt.com".

(** [ENDPOINTS.CONVERSATION] ([src/api/endpoints.ts]) *)
Definition CONVERSATION (id : string) : string :=
  String.append "/backend-api/conversation/" id.

(** A member of [ENDPOINTS]: a path, or a function that builds one. *)
Inductive Member : Type :=
| Path (path : string)
| PathOf (build : string -> string).

(** [ENDPOINTS], member by member as [src/api/endpoints.ts] declares it. *)
Definition ENDPOINTS : list (string * Member) :=
  [ ("SESSION", Path "/api/auth/session");
    ("CONVERSATIONS", Path "/backend-api/conversations");
    ("CONVERSATION", PathOf CONVERSATION);
    ("PROJECTS_SIDEBAR", Path "/backend-api/gizmos/snorlax/sidebar");
    ("PROJECT_CONVERSATIONS",
     PathOf (fun gizmoId =>
               String.append "/backend-api/gizmos/"
                 (String.append gizmoId "/conversations"))) ].

(** [ENDPOINTS.name] *)
Definition member (name : string) : option Member :=
  option_map snd (find (fun entry => String.eqb (fst entry) name) ENDPOINTS).

Definition not_a_function (name : string) : JsError :=
  TypeError (String.append "ENDPOINTS." (String.append name " is not a function")).

(** [ENDPOINTS.name(arg)]: calling a member that is absent, or a path,
    throws. *)
Definition call_member (name arg : string) : JsError + string :=
  match member name with
  | Some (PathOf build) => inr (build arg)
  | _ => inl (not_a_function name)
  end.

Record ChatGPTClient : Type := mkClient {
  accessToken : string;
  verbose : bool;
  deviceId : string
}.

(** What the platform's [fetch] is called with: the URL, the method, the
    headers that vary ([Authorization], [Oai-Device-Id]) and the body. *)
Record Request (T : Type) : Type := mkRequest {
  req_url : string;
  req_method : string;
  req_authorization : string;
  req_deviceId : string;
  req_body : option T
}.

(** What it resolves to: [json] is what [response.json()] yields, [None]
    when the body is not JSON (the call then throws a [SyntaxError]). *)
Record Response (T : Type) : Type := mkResponse {
  status : Z;
  statusText : string;
  retry_after : option string;   (* [response.headers.get('retry-after')] *)
  json : option T
}.

Arguments mkRequest {T}.
Arguments req_url {T}.
Arguments mkResponse {T}.
Arguments status {T}.
Arguments statusText {T}.
Arguments retry_after {T}.
Arguments json {T}.

(** The options object a caller hands to [fetch].  [fetch] destructures
    [method], [body] and [parseResponse]; [downloadFiles] also passes
    [retryOptions], which travels in the object like any other property. *)
Record FetchOptions (T : Type) : Type := mkFetchOptions {
  method : option string;
  body : option T;
  parseResponse : option (T -> JsError + T);
  retryOptions : option Retry.PartialRetryOptions
}.

Arguments mkFetchOptions {T}.
Arguments method {T}.
Arguments body {T}.
Arguments parseResponse {T}.
Arguments retryOptions {T}.

(** [response.ok] *)
Definition ok {T : Type} (response : Response T) : bool :=
  (200 <=? status response) && (status response <=? 299).

Section Fetch.
Context {W T : Type}.
(** The platform's [fetch]: one HTTP exchange; [inl] when it rejects. *)
Variable http : Request T -> W -> (JsError + Response T) * W.
(** [Math.random()] *)
Variable random : W -> float * W.
(** [parseInt(s, 10)] *)
Variable parseInt : string -> float.

Definition bearer (client : ChatGPTClient) : string :=
  String.append "Bearer " (accessToken client).

(** The operation [fetch] hands to [withRetry]: one request, the status
    checks, then the optional validator. *)
Definition attempt_request (client : ChatGPTClient) (endpoint : string)
    (options : FetchOptions T) (w : W) : (JsError + T) * W :=
  let request :=
    mkRequest (String.append BASE_URL endpoint)
              (default "GET" (method options))
              (bearer client) (deviceId client) (body options) in
  match http request w with
  | (inl e, w1) => (inl e, w1)
  | (inr response, w1) =>
    if negb (ok response) then
      if (status response =? 401) || (status response =? 403) then
        (inl (AuthenticationError "Access token expired or invalid."), w1)
      else if status response =? 429 then
        (inl (RateLimitError "Rate limited by API"
                match retry_after response with
                | Some retryAfter =>
                  if String.eqb retryAfter "" then None
                  else Some (parseInt retryAfter * 1000)%float
                | None => None
                end), w1)
      else
        (inl (NetworkError
                (String.append "Request failed: "
                   (String.append (pretty (status response))
                      (String.append " " (statusText response))))
                (Some (status response))), w1)
    else
      match json response with
      | None => (inl (mkError "SyntaxError" "Unexpected token" None None), w1)
      | Some data =>
        match parseResponse options with
        | Some parse => (parse data, w1)
        | None => (inr data, w1)
        end
      end
  end.

(** [ChatGPTClient.fetch] *)
Definition fetch (client : ChatGPTClient) (endpoint : string)
    (options : FetchOptions T) (w : W)
  : option (Completion T * W * list Retry.Event) :=
  if String.eqb (accessToken client) "" then
    Some (Threw (Some (AuthenticationError
                         "Client not initialized. Call initialize() first.")),
          w, [])
  else
    Retry.withRetry (attempt_request client endpoint options) random
      (Retry.mkPartial None None None true) w.

End Fetch.

Section FetchRaw.
Context {W Bytes : Type}.
(** One request for the bytes behind a signed URL. *)
Variable http_raw : string -> W -> (JsError + Bytes) * W.
Variable random : W -> float * W.

(** Modelled from the spec: [ChatGPTClient.fetchRaw], which
    [downloadFiles] calls and [client.ts] does not define.  Section 4.5:
    step 2 fetches the raw bytes from the resolved URL through the backoff
    policy, with the retry budget the caller gives. *)
Definition fetchRaw (url : string) (options : Retry.PartialRetryOptions) (w : W)
  : option (Completion Bytes * W * list Retry.Event) :=
  Retry.withRetry (http_raw url) random options w.

End FetchRaw.

End Client.

(** * Conversation records ([src/api/types.ts])

    The records are read at the types the schemas and the casts of the
    source give them; an optional or nullable field is an [option]. *)

(** [update_time] of a listed conversation: [z.string().or(z.number()).nullable()] *)
Inductive TimeField : Type :=
| TimeNull
| TimeNumber (n : float)
| TimeString (s : string).

Record ConversationItem : Type := mkItem {
  item_id : string;
  item_title : option string;
  item_update_time : TimeField
}.

(** An element of [content.parts], which the schema leaves [unknown]: a
    string, an object (of which the scan reads two properties), or anything
    else ([null], a number, ...). *)
Inductive Part : Type :=
| PartString (s : string)
| PartObject (content_type : option string) (asset_pointer : option string)
| PartOther.

Record Attachment : Type := mkAttachment {
  att_id : option string;
  att_name : option string
}.

Record CitationMetadata : Type := mkCitationMetadata {
  cm_file_id : option string;
  cm_title : option string
}.

Record Citation : Type := mkCitation {
  cit_metadata : option CitationMetadata;
  cit_file_id : option string;
  cit_title : option string
}.

(** [message.metadata]: the two properties the scan reads, [None] when the
    property is missing or is not an array. *)
Record Metadata : Type := mkMetadata {
  attachments : option (list Attachment);
  citations : option (list Citation)
}.

Record Message : Type := mkMessage {
  content_parts : option (list Part);   (* [msg.content?.parts] *)
  metadata : option Metadata
}.

Record MappingNode : Type := mkNode {
  node_id : string;
  message : option Message
}.

Record ConversationDetail : Type := mkDetail {
  detail_title : option string;
  update_time : option float;
  (** [mapping], in the order [Object.values] walks it *)
  mapping : list (string * MappingNode)
}.

(** * File references ([src/services/file-service.ts]) *)

Module FileService.

Inductive Source : Type := image_asset_pointer | attachment | citation.

Record FileReference : Type := mkRef {
  fileId : string;
  filename : option string;
  source : Source
}.

Definition FILE_SERVICE_PREFIX : string := "file-service://".

(** [pointer.slice(n)] *)
Definition slice (n : nat) (s : string) : string :=
  String.substring n (String.length s - n) s.

Definition extractFileIdFromPointer (pointer : string) : option string :=
  if negb (String.prefix FILE_SERVICE_PREFIX pointer) then None
  else Some (slice (String.length FILE_SERVICE_PREFIX) pointer).

(** A string in a condition: the empty string is falsy. *)
Definition truthy (s : string) : bool := negb (String.eqb s "").

(** [a ?? b] *)
Definition nullish {A : Type} (a b : option A) : option A :=
  match a with Some _ => a | None => b end.

(** ** [Map<string, FileReference>]: the entries in insertion order *)

Definition RefMap : Type := list (string * FileReference).

Definition Map_has (refs : RefMap) (key : string) : bool :=
  existsb (fun entry => String.eqb (fst entry) key) refs.

(** [refs.set(key, value)]: a present key keeps its place. *)
Fixpoint Map_set (refs : RefMap) (key : string) (value : FileReference) : RefMap :=
  match refs with
  | [] => [(key, value)]
  | entry :: rest =>
    if String.eqb (fst entry) key then (key, value) :: rest
    else entry :: Map_set rest key value
  end.

(** [Array.from(refs.values())] *)
Definition Map_values (refs : RefMap) : list FileReference := List.map snd refs.

(** ** [extractFileReferences] *)

(** 1. one element of [content.parts] *)
Definition scan_part (refs : RefMap) (part : Part) : RefMap :=
  match part with
  | PartObject content_type asset_pointer =>
    match content_type with
    | Some ct =>
      if String.eqb ct "image_asset_pointer" then
        match asset_pointer with
        | Some pointer =>
          if truthy pointer then
            match extractFileIdFromPointer pointer with
            | Some fileId =>
              if truthy fileId && negb (Map_has refs fileId) then
                Map_set refs fileId (mkRef fileId None image_asset_pointer)
              else refs
            | None => refs
            end
          else refs
        | None => refs
        end
      else refs
    | None => refs
    end
  | _ => refs
  end.

(** 2. one element of [metadata.attachments] *)
Definition scan_attachment (refs : RefMap) (a : Attachment) : RefMap :=
  match att_id a with
  | Some id =>
    if truthy id && negb (Map_has refs id) then
      Map_set refs id (mkRef id (att_name a) attachment)
    else refs
  | None => refs
  end.

(** 3. one element of [metadata.citations] *)
Definition scan_citation (refs : RefMap) (c : Citation) : RefMap :=
  let metadata2 := cit_metadata c in
  match nullish (metadata2 ≫= cm_file_id) (cit_file_id c) with
  | Some fileId =>
    if truthy fileId && negb (Map_has refs fileId) then
      Map_set refs fileId
        (mkRef fileId (nullish (metadata2 ≫= cm_title) (cit_title c)) citation)
    else refs
  | None => refs
  end.

(** The body of the loop over the nodes. *)
Definition scan_node (refs : RefMap) (node : MappingNode) : RefMap :=
  match message node with
  | None => refs
  | Some msg =>
    let refs1 :=
      match content_parts msg with
      | Some parts => fold_left scan_part parts refs
      | None => refs
      end in
    let refs2 :=
      match metadata msg ≫= attachments with
      | Some atts => fold_left scan_attachment atts refs1
      | None => refs1
      end in
    match metadata msg ≫= citations with
    | Some cits => fold_left scan_citation cits refs2
    | None => refs2
    end
  end.

Definition extractFileReferences (detail : ConversationDetail) : list FileReference :=
  Map_values (fold_left scan_node (List.map snd (mapping detail)) []).

(** ** [scanAllConversations]

    [files] are the JSON files [collectAllJsonFiles] found, each read and
    parsed: [None] is a file that could not be. *)
Definition scan_file (refs : RefMap) (file : option ConversationDetail) : RefMap :=
  match file with
  | None => refs
  | Some detail =>
    fold_left
      (fun refs ref =>
         if negb (Map_has refs (fileId ref)) then Map_set refs (fileId ref) ref
         else refs)
      (extractFileReferences detail) refs
  end.

Definition scanAllConversations (files : list (option ConversationDetail))
  : list FileReference :=
  Map_values (fold_left scan_file files []).

(** ** The occurrences of file identifiers, for the statements

    Every place of a record where the scan reads a usable (non-empty)
    identifier, in scan order, with the reference built there. *)
Definition part_occurrence (part : Part) : list FileReference :=
  match part with
  | PartObject (Some ct) (Some pointer) =>
    if String.eqb ct "image_asset_pointer" && truthy pointer then
      match extractFileIdFromPointer pointer with
      | Some fileId =>
        if truthy fileId then [mkRef fileId None image_asset_pointer] else []
      | None => []
      end
    else []
  | _ => []
  end.

Definition attachment_occurrence (a : Attachment) : list FileReference :=
  match att_id a with
  | Some id => if truthy id then [mkRef id (att_name a) attachment] else []
  | None => []
  end.

Definition citation_occurrence (c : Citation) : list FileReference :=
  match nullish (cit_metadata c ≫= cm_file_id) (cit_file_id c) with
  | Some fileId =>
    if truthy fileId then
      [mkRef fileId (nullish (cit_metadata c ≫= cm_title) (cit_title c)) citation]
    else []
  | None => []
  end.

Definition node_occurrences (node : MappingNode) : list FileReference :=
  match message node with
  | None => []
  | Some msg =>
    flat_map part_occurrence (default [] (content_parts msg))
    ++ flat_map attachment_occurrence (default [] (metadata msg ≫= attachments))
    ++ flat_map citation_occurrence (default [] (metadata msg ≫= citations))
  end.

Definition occurrences (detail : ConversationDetail) : list FileReference :=
  flat_map node_occurrences (List.map snd (mapping detail)).

Definition has_id (id : string) (ref : FileReference) : bool :=
  String.eqb (fileId ref) id.

(** [refs.get(key)] *)
Fixpoint Map_get (refs : RefMap) (key : string) : option FileReference :=
  match refs with
  | [] => None
  | entry :: rest =>
    if String.eqb (fst entry) key then Some (snd entry) else Map_get rest key
  end.

(** [if (!refs.has(ref.fileId)) refs.set(ref.fileId, ref)], the guarded
    insertion every scan ends in. *)
Definition offer (refs : RefMap) (ref : FileReference) : RefMap :=
  if negb (Map_has refs (fileId ref)) then Map_set refs (fileId ref) ref else refs.

(** What the scans keep true of the map: every key is the identifier of the
    reference stored under it and is not empty, and no key occurs twice. *)
Definition well_keyed (refs : RefMap) : Prop :=
  NoDup (List.map fst refs)
  /\ Forall (fun entry => fileId (snd entry) = fst entry /\ fst entry <> "") refs.

End FileService.

(** * The download loop

    [BackupService.backup] and [downloadFiles] end in the same loop over a
    queue and a set of promises:
<<
    while (queue.length > 0 || inProgress.size > 0) {
      while (inProgress.size < concurrency && queue.length > 0) {
        const item = queue.shift()!;
        const promise = processOne(item).then(() => { inProgress.delete(promise); });
        inProgress.add(promise);
        if (queue.length > 0 && delay > 0) await sleep(delay);
      }
      if (inProgress.size > 0) await Promise.race(inProgress);
    }
>>
    The loop and the workers it started take turns on one thread.  A worker
    is a machine over its [await]s: [start] is [processOne(item)] up to the
    first one, [resume] runs it from the answer to one [await] up to the
    next (or to its end), changing the variables it shares with the loop. *)

Module Pool.

Inductive Settled : Type := Pending | Fulfilled | Rejected.

(** Where the loop stands. *)
Inductive Pc : Type :=
| AtOuterTest                    (* about to test the outer [while] *)
| AtInnerTest                    (* about to test the inner [while] *)
| Sleeping                       (* in [await sleep(delay)] *)
| Racing (snapshot : list nat)   (* in [await Promise.race(inProgress)] *)
| Exited                         (* left the outer [while] *)
| Thrown.                        (* the race rejected: the function throws *)

(** Is the loop inside an [await] (or gone)?  Only then do workers run. *)
Definition suspended (pc : Pc) : bool :=
  match pc with
  | AtOuterTest | AtInnerTest => false
  | _ => true
  end.

Section Pool.
Context {Item Task Answer Shared : Type}.
Variable start : Item -> Task.
Variable resume : Item -> Task -> Answer -> Shared -> option (Task * Shared).
Variable settled : Task -> Settled.
Variable concurrency delay : Z.

Record State : Type := mkState {
  queue : list Item;
  (** the promises of [inProgress], in insertion order, each with the
      worker behind it *)
  inProgress : list (nat * (Item * Task));
  fresh : nat;                  (* the next promise *)
  shared : Shared;
  pc : Pc;
  (** ghost: the items [processOne] was called on, in order *)
  started : list Item
}.

Definition size (st : State) : nat := length (inProgress st).

Definition nonempty {A : Type} (l : list A) : bool :=
  match l with [] => false | _ => true end.

Definition promises (st : State) : list nat := List.map fst (inProgress st).

Fixpoint lookup (p : nat) (l : list (nat * (Item * Task))) : option (Item * Task) :=
  match l with
  | [] => None
  | (q, w) :: rest => if Nat.eqb q p then Some w else lookup p rest
  end.

Fixpoint replace (p : nat) (w : Item * Task) (l : list (nat * (Item * Task)))
  : list (nat * (Item * Task)) :=
  match l with
  | [] => []
  | (q, w0) :: rest =>
    if Nat.eqb q p then (q, w) :: rest else (q, w0) :: replace p w rest
  end.

(** [inProgress.delete(promise)] *)
Definition delete (p : nat) (l : list (nat * (Item * Task)))
  : list (nat * (Item * Task)) :=
  List.filter (fun entry => negb (Nat.eqb (fst entry) p)) l.

Definition set_pc (st : State) (pc' : Pc) : State :=
  mkState (queue st) (inProgress st) (fresh st) (shared st) pc' (started st).

(** The loop, from where it stands to its next test or [await]. *)
Definition main (st : State) : option State :=
  match pc st with
  | AtOuterTest =>
    if nonempty (queue st) || (0 <? size st)%nat
    then Some (set_pc st AtInnerTest)
    else Some (set_pc st Exited)
  | AtInnerTest =>
    match queue st with
    | item :: rest =>
      if Z.of_nat (size st) <? concurrency then
        Some (mkState rest
                (inProgress st ++ [(fresh st, (item, start item))])
                (S (fresh st)) (shared st)
                (if nonempty rest && (0 <? delay) then Sleeping else AtInnerTest)
                (started st ++ [item]))
      else if (0 <? size st)%nat then Some (set_pc st (Racing (promises st)))
      else Some (set_pc st AtOuterTest)
    | [] =>
      if (0 <? size st)%nat then Some (set_pc st (Racing (promises st)))
      else Some (set_pc st AtOuterTest)
    end
  | _ => None
  end.

(** What can happen next. *)
Inductive Action : Type :=
| Main                              (* the loop runs on *)
| Timer                             (* [sleep(delay)] resolves *)
| Resume (p : nat) (a : Answer)     (* worker [p] gets the answer it awaits *)
| Then (p : nat)                    (* the [.then] callback of worker [p] *)
| RaceSettled (p : nat).            (* the race settles as promise [p] did *)

Definition step (act : Action) (st : State) : option State :=
  match act with
  | Main => main st
  | Timer =>
    match pc st with
    | Sleeping => Some (set_pc st AtInnerTest)
    | _ => None
    end
  | Resume p a =>
    if suspended (pc st) then
      match lookup p (inProgress st) with
      | Some (item, task) =>
        match settled task with
        | Pending =>
          match resume item task a (shared st) with
          | Some (task', shared') =>
            Some (mkState (queue st) (replace p (item, task') (inProgress st))
                    (fresh st) shared' (pc st) (started st))
          | None => None
          end
        | _ => None
        end
      | None => None
      end
    else None
  | Then p =>
    if suspended (pc st) then
      match lookup p (inProgress st) with
      | Some (item, task) =>
        match settled task with
        | Fulfilled =>
          Some (mkState (queue st) (delete p (inProgress st))
                  (fresh st) (shared st) (pc st) (started st))
        | _ => None
        end
      | None => None
      end
    else None
  | RaceSettled p =>
    match pc st with
    | Racing snapshot =>
      if existsb (Nat.eqb p) snapshot then
        match lookup p (inProgress st) with
        | None => Some (set_pc st AtOuterTest)
        | Some (item, task) =>
          match settled task with
          | Rejected => Some (set_pc st Thrown)
          | _ => None
          end
        end
      else None
    | _ => None
    end
  end.

(** The steps as a relation, by what they change: the loop leaves, the
    loop moves on without touching the queue or the set, the loop starts a
    worker, a worker runs from one [await] to the next, a [.then] callback
    deletes a resolved promise. *)
Inductive transition (st : State) : State -> Prop :=
| t_exit :
    pc st = AtOuterTest -> queue st = [] -> inProgress st = [] ->
    transition st (set_pc st Exited)
| t_pc pc' :
    pc' <> Exited -> transition st (set_pc st pc')
| t_launch item rest pc' :
    queue st = item :: rest ->
    Z.of_nat (size st) < concurrency ->
    pc' <> Exited ->
    transition st
      (mkState rest (inProgress st ++ [(fresh st, (item, start item))])
         (S (fresh st)) (shared st) pc' (started st ++ [item]))
| t_resume p item task a task' shared' :
    lookup p (inProgress st) = Some (item, task) ->
    settled task = Pending ->
    resume item task a (shared st) = Some (task', shared') ->
    transition st
      (mkState (queue st) (replace p (item, task') (inProgress st))
         (fresh st) shared' (pc st) (started st))
| t_then p item task :
    lookup p (inProgress st) = Some (item, task) ->
    settled task = Fulfilled ->
    transition st
      (mkState (queue st) (delete p (inProgress st))
         (fresh st) (shared st) (pc st) (started st)).

(** A schedule, played from a state; [None] when an action is not enabled. *)
Fixpoint play (acts : list Action) (st : State) : option State :=
  match acts with
  | [] => Some st
  | act :: rest =>
    match step act st with
    | Some st' => play rest st'
    | None => None
    end
  end.

(** [const queue = [...items]; const inProgress = new Set()] *)
Definition enter (items : list Item) (sh : Shared) : State :=
  mkState items [] 0%nat sh AtOuterTest [].

Definition reachable (items : list Item) (sh : Shared) (st : State) : Prop :=
  exists acts, play acts (enter items sh) = Some st.

(** The workers in flight that satisfy [f]. *)
Definition count (f : Task -> bool) (l : list (nat * (Item * Task))) : nat :=
  length (List.filter (fun entry => f (snd (snd entry))) l).

Definition in_flight (f : Task -> bool) (st : State) : nat :=
  count f (inProgress st).

(** ** Invariants of the loop, for the statements *)

(** The set holds at most [concurrency] promises. *)
Definition bounded (st : State) : Prop :=
  Z.of_nat (size st) <= Z.max 0 concurrency.

(** The promises of the set are distinct. *)
Definition distinct (st : State) : Prop :=
  NoDup (promises st) /\ Forall (fun p => (p < fresh st)%nat) (promises st).

(** The items started and the items queued are the batch, in order; every
    worker in flight works on an item that was started. *)
Definition conserved (items : list Item) (st : State) : Prop :=
  started st ++ queue st = items
  /\ Forall (fun entry => In (fst (snd entry)) (started st)) (inProgress st).

(** The loop is left only with nothing queued and nothing in flight. *)
Definition drained (st : State) : Prop :=
  pc st = Exited -> queue st = [] /\ inProgress st = [].

(** [tally] reads a count off the shared variables and [counted] tells
    whether a worker has added its item to it: the tally, the workers still
    to add theirs and the queue make up [n].  [sound] holds of the workers. *)
Definition accounted (tally : Shared -> nat) (counted : Task -> bool)
    (sound : Task -> Prop) (n : nat) (st : State) : Prop :=
  (tally (shared st) + in_flight (fun t => negb (counted t)) st
   + length (queue st) = n)%nat
  /\ Forall (fun entry => sound (snd (snd entry))) (inProgress st).

End Pool.

Arguments Main {Answer}.
Arguments Timer {Answer}.
Arguments Resume {Answer} p a.
Arguments Then {Answer} p.
Arguments RaceSettled {Answer} p.

End Pool.

(** * File materialization: [downloadFiles] ([src/services/file-service.ts]) *)

Module Download.
Import FileService.

(** What [ENDPOINTS.FILE_DOWNLOAD(fileId)] resolves to. *)
Record FileMeta : Type := mkMeta {
  download_url : option string;
  file_name : option string
}.

Definition Bytes : Type := list Byte.byte.

(** What the run tells its observers and the console. *)
Inductive Notice : Type :=
| OnProgress (completed total downloaded skipped failed : nat)
| OnError (fileId : string) (error : option JsError)
| ConsoleLog (fileId filename : string).

(** The variables [processOne] shares with the loop. *)
Record Vars : Type := mkVars {
  downloaded : nat;
  skipped : nat;
  failed : nat;
  completed : nat;
  failedFileIds : list string;
  notices : list Notice
}.

Record FileDownloadResult : Type := mkResult {
  res_downloaded : nat;
  res_skipped : nat;
  res_failed : nat;
  res_total : nat;
  res_failedFileIds : list string
}.

(** The [await]s of [processOne], and [Done] once its promise resolved. *)
Inductive Task : Type :=
| AwaitDirHasFiles
| AwaitMeta
| AwaitRaw (meta : FileMeta)
| AwaitMkdir (filename : string) (buffer : Bytes)
| AwaitWrite (filename : string)
| Done.

(** What an [await] of [processOne] can be answered with. *)
Inductive Answer : Type :=
| DirHasFiles (found : bool)                   (* [dirHasFiles(fileDir)] *)
| MetaFetched (c : Completion FileMeta)        (* [client.fetch(...)] *)
| RawFetched (c : Completion Bytes)            (* [client.fetchRaw(...)] *)
| FsDone (error : option JsError).             (* [fs.mkdir], [fs.writeFile] *)

Definition settled (t : Task) : Pool.Settled :=
  match t with Done => Pool.Fulfilled | _ => Pool.Pending end.

Definition is_truthy (s : option string) : bool :=
  match s with Some s => truthy s | None => false end.

(** [a || b || c], where [c] is a string *)
Definition or_else (a b : option string) (c : string) : string :=
  match a, b with
  | Some x, Some y => if truthy x then x else if truthy y then y else c
  | Some x, None => if truthy x then x else c
  | None, Some y => if truthy y then y else c
  | None, None => c
  end.

Section ProcessOne.
Variable verbose : bool.
Variable total : nat.        (* [refs.length] *)

Definition reportProgress (v : Vars) : Vars :=
  let completed' := S (completed v) in
  mkVars (downloaded v) (skipped v) (failed v) completed' (failedFileIds v)
    (notices v ++ [OnProgress completed' total (downloaded v) (skipped v) (failed v)]).

(** The [catch] block, then [finally]. *)
Definition catch (ref : FileReference) (error : option JsError) (v : Vars)
  : Task * Vars :=
  (Done,
   reportProgress
     (mkVars (downloaded v) (skipped v) (S (failed v)) (completed v)
        (failedFileIds v ++ [fileId ref])
        (notices v ++ [OnError (fileId ref) error]))).

Definition processOne_start (ref : FileReference) : Task := AwaitDirHasFiles.

Definition processOne_resume (ref : FileReference) (t : Task) (a : Answer)
    (v : Vars) : option (Task * Vars) :=
  match t, a with
  | AwaitDirHasFiles, DirHasFiles true =>
    Some (Done,
          reportProgress
            (mkVars (downloaded v) (S (skipped v)) (failed v) (completed v)
               (failedFileIds v) (notices v)))
  | AwaitDirHasFiles, DirHasFiles false => Some (AwaitMeta, v)
  | AwaitMeta, MetaFetched (Returned meta) =>
    if negb (is_truthy (download_url meta))
    then Some (catch ref (Some (PlainError "File not available")) v)
    else Some (AwaitRaw meta, v)
  | AwaitMeta, MetaFetched (Threw e) => Some (catch ref e v)
  | AwaitRaw meta, RawFetched (Returned buffer) =>
    let filename := or_else (file_name meta) (filename ref) (fileId ref) in
    Some (AwaitMkdir filename buffer, v)
  | AwaitRaw _, RawFetched (Threw e) => Some (catch ref e v)
  | AwaitMkdir filename buffer, FsDone None => Some (AwaitWrite filename, v)
  | AwaitMkdir _ _, FsDone (Some e) => Some (catch ref (Some e) v)
  | AwaitWrite filename, FsDone None =>
    Some (Done,
          reportProgress
            (mkVars (S (downloaded v)) (skipped v) (failed v) (completed v)
               (failedFileIds v)
               (notices v ++
                  if verbose then [ConsoleLog (fileId ref) filename] else [])))
  | AwaitWrite _, FsDone (Some e) => Some (catch ref (Some e) v)
  | _, _ => None
  end.

End ProcessOne.

Record FileDownloadOptions : Type := mkOptions {
  concurrency : Z;
  delay : Z;
  verbose : bool;
  skipFileIds : option (gset string)
}.

(** [allRefs] without the previously failed files. *)
Definition batch (allRefs : list FileReference) (skip : option (gset string))
  : list FileReference :=
  match skip with
  | Some skipFileIds =>
    if (0 <? size skipFileIds)%nat
    then List.filter (fun ref => negb (bool_decide (fileId ref ∈ skipFileIds))) allRefs
    else allRefs
  | None => allRefs
  end.

Definition PoolState : Type := @Pool.State FileReference Task Vars.

(** The items the three counters account for, and whether a worker has
    added its item to one of them. *)
Definition tally (v : Vars) : nat := (downloaded v + skipped v + failed v)%nat.

Definition counted (t : Task) : bool :=
  match t with Done => true | _ => false end.

(** The state in which [downloadFiles] enters its loop. *)
Definition enter (allRefs : list FileReference) (options : FileDownloadOptions)
  : PoolState :=
  Pool.enter (batch allRefs (skipFileIds options)) (mkVars 0 0 0 0 [] []).

Definition play (allRefs : list FileReference) (options : FileDownloadOptions)
    (acts : list (@Pool.Action Answer)) (st : PoolState) : option PoolState :=
  Pool.play processOne_start
    (processOne_resume (verbose options)
       (length (batch allRefs (skipFileIds options))))
    settled (concurrency options) (delay options) acts st.

(** The states a run of [downloadFiles] passes through. *)
Definition reachable (allRefs : list FileReference) (options : FileDownloadOptions)
    (st : PoolState) : Prop :=
  exists acts, play allRefs options acts (enter allRefs options) = Some st.

(** The [return] after the loop. *)
Definition result (allRefs : list FileReference) (options : FileDownloadOptions)
    (st : PoolState) : FileDownloadResult :=
  let v := Pool.shared st in
  mkResult (downloaded v) (skipped v) (failed v)
    (length (batch allRefs (skipFileIds options))) (failedFileIds v).

(** [downloadFiles(client, allRefs, outputDir, options)] returns [r]. *)
Definition downloadFiles (allRefs : list FileReference) (options : FileDownloadOptions)
    (r : FileDownloadResult) : Prop :=
  exists st, reachable allRefs options st /\ Pool.pc st = Pool.Exited
             /\ r = result allRefs options st.

(** ** The two network steps of [processOne] *)

Section Steps.
Context {W : Type}.
Variable http : Client.Request FileMeta -> W -> (JsError + Client.Response FileMeta) * W.
Variable http_raw : string -> W -> (JsError + Bytes) * W.
Variable random : W -> float * W.
Variable parseInt : string -> float.

Definition oneRetry : Retry.PartialRetryOptions :=
  Retry.mkPartial (Some 1) None None false.

(** Step 1:
    [client.fetch(ENDPOINTS.FILE_DOWNLOAD(ref.fileId), { retryOptions: { maxRetries: 1 } })].
    The argument is evaluated first; [src/api/endpoints.ts] declares no
    member [FILE_DOWNLOAD], so calling it throws and [client.fetch] is not
    entered. *)
Definition step1 (client : Client.ChatGPTClient) (ref : FileReference) (w : W)
  : option (Completion FileMeta * W * list Retry.Event) :=
  match Client.call_member "FILE_DOWNLOAD" (fileId ref) with
  | inl e => Some (Threw (Some e), w, [])
  | inr endpoint =>
    Client.fetch http random parseInt client endpoint
      (Client.mkFetchOptions None None None (Some oneRetry)) w
  end.

(** Step 2: [client.fetchRaw(meta.download_url, { maxRetries: 1 })] *)
Definition step2 (url : string) (w : W)
  : option (Completion Bytes * W * list Retry.Event) :=
  Client.fetchRaw http_raw random url oneRetry w.


End Steps.

End Download.

(** * Backup engine ([src/services/backup-service.ts], [storage-service.ts]) *)

Module Backup.

(** What [fs.readFile] and [JSON.parse] make of [<id>.json]. *)
Inductive StoredFile : Type :=
| Unparsable
| Parsed (data : ConversationDetail).

(** The conversations directory: the stored file of each id that has one. *)
Abbreviation Storage := (gmap string StoredFile).

(** [StorageService.getExistingConversationUpdateTime]: [null] when the file
    cannot be read or parsed, or holds no update time. *)
Definition getExistingConversationUpdateTime (storage : Storage) (id : string)
  : option float :=
  match storage !! id with
  | Some (Parsed data) => update_time data
  | _ => None
  end.

Section DownloadConversation.
Context {W : Type}.
Variable http : Client.Request ConversationDetail -> W
                -> (JsError + Client.Response ConversationDetail) * W.
Variable random : W -> float * W.
Variable parseInt : string -> float.
(** [ConversationDetailSchema.parse]: the value, or what zod throws. *)
Variable ConversationDetailSchema_parse : ConversationDetail -> JsError + ConversationDetail.

(** [BackupService.downloadConversation] *)
Definition downloadConversation (client : Client.ChatGPTClient) (id : string) (w : W)
  : option (Completion ConversationDetail * W * list Retry.Event) :=
  Client.fetch http random parseInt client (Client.CONVERSATION id)
    (Client.mkFetchOptions None None (Some ConversationDetailSchema_parse) None) w.
End DownloadConversation.

Section Diff.
(** [new Date(s).getTime()]: milliseconds, [nan] for an invalid date. *)
Variable Date_getTime : string -> float.

(** [convUpdateTime] *)
Definition convUpdateTime (conv : ConversationItem) : option float :=
  match item_update_time conv with
  | TimeNumber n => Some n
  | TimeString s =>
    if FileService.truthy s then Some (Date_getTime s / 1000)%float else None
  | TimeNull => None
  end.

(** The test of the incremental loop: [a >= b] is [b <= a] on floats. *)
Definition unchanged (storage : Storage) (conv : ConversationItem) : bool :=
  match getExistingConversationUpdateTime storage (item_id conv), convUpdateTime conv with
  | Some existingUpdateTime, Some convTime => PrimFloat.leb convTime existingUpdateTime
  | _, _ => false
  end.
End Diff.

(** The stored copy is at least as recent as the listed conversation: both
    update times are known and, in epoch seconds, the stored one is not
    below the listed one. *)
Definition up_to_date (Date_getTime : string -> float) (storage : Storage)
    (conv : ConversationItem) : Prop :=
  exists existing remote,
    getExistingConversationUpdateTime storage (item_id conv) = Some existing
    /\ convUpdateTime Date_getTime conv = Some remote
    /\ PrimFloat.leb remote existing = true.

(** What the run tells its observers and the log. *)
Inductive Notice : Type :=
| OnDownloadProgress (completed total : nat) (current : string)
| OnError (id : string) (error : option JsError)
| AppendLog (line : string).

(** The variables of [backup] that [processOne] shares with the loops. *)
Record Vars : Type := mkVars {
  downloaded : nat;
  skipped : nat;
  failed : nat;
  completed : nat;
  errors : list (string * string);
  notices : list Notice
}.

Record BackupResult : Type := mkResult {
  totalConversations : nat;
  res_downloaded : nat;
  res_skipped : nat;
  res_failed : nat;
  res_errors : list (string * string)
}.

Record BackupOptions : Type := mkOptions {
  concurrency : Z;
  delay : Z;
  incremental : bool;
  verbose : bool
}.

(** [conv.title ?? conv.id] *)
Definition current (conv : ConversationItem) : string :=
  default (item_id conv) (item_title conv).

Section Run.
Variable Date_getTime : string -> float.
Variable storage : Storage.
Variable options : BackupOptions.
(** [conversations.length] *)
Variable total : nat.

(** One round of [for (const conv of conversations)]. *)
Definition diff_step (acc : Vars * list ConversationItem) (conv : ConversationItem)
  : Vars * list ConversationItem :=
  let '(v, toDownload) := acc in
  if incremental options && unchanged Date_getTime storage conv then
    let completed' := S (completed v) in
    (mkVars (downloaded v) (S (skipped v)) (failed v) completed' (errors v)
       (notices v ++ [OnDownloadProgress completed' total (current conv)]),
     toDownload)
  else (v, toDownload ++ [conv]).

(** The [await]s of [processOne], and how its promise settled. *)
Inductive Task : Type :=
| AwaitDownload                          (* [downloadConversation(conv.id)] *)
| AwaitSave (detail : ConversationDetail) (* [storage.saveConversation] *)
| AwaitLogDownloaded                     (* [appendLog('Downloaded: ...')] *)
| AwaitLogFailed                         (* [appendLog('Failed: ...')] *)
| Done
| Failed (error : option JsError).

Inductive Answer : Type :=
| Downloaded (c : Completion ConversationDetail)
| Stored (error : option JsError).       (* a storage call: [None] resolved *)

Definition settled (t : Task) : Pool.Settled :=
  match t with
  | Done => Pool.Fulfilled
  | Failed _ => Pool.Rejected
  | _ => Pool.Pending
  end.

(** [error instanceof Error ? error.message : String(error)] *)
Definition errorMessage (error : option JsError) : string :=
  match error with
  | Some e => err_message e
  | None => "undefined"
  end.

(** The [finally] block, after which the promise settles as [t]. *)
Definition finally (conv : ConversationItem) (t : Task) (v : Vars) : Task * Vars :=
  let completed' := S (completed v) in
  (t, mkVars (downloaded v) (skipped v) (failed v) completed' (errors v)
        (notices v ++ [OnDownloadProgress completed' total (current conv)])).

(** The [catch] block up to its [await]. *)
Definition catch (conv : ConversationItem) (error : option JsError) (v : Vars)
  : Task * Vars :=
  (AwaitLogFailed,
   mkVars (downloaded v) (skipped v) (S (failed v)) (completed v)
     (errors v ++ [(item_id conv, errorMessage error)])
     (notices v ++ [OnError (item_id conv) error])).

Definition processOne_start (conv : ConversationItem) : Task := AwaitDownload.

Definition processOne_resume (conv : ConversationItem) (t : Task) (a : Answer)
    (v : Vars) : option (Task * Vars) :=
  match t, a with
  | AwaitDownload, Downloaded (Returned detail) => Some (AwaitSave detail, v)
  | AwaitDownload, Downloaded (Threw e) => Some (catch conv e v)
  | AwaitSave _, Stored None =>
    let v' := mkVars (S (downloaded v)) (skipped v) (failed v) (completed v)
                (errors v) (notices v) in
    if verbose options then Some (AwaitLogDownloaded, v')
    else Some (finally conv Done v')
  | AwaitSave _, Stored (Some e) => Some (catch conv (Some e) v)
  | AwaitLogDownloaded, Stored None => Some (finally conv Done v)
  | AwaitLogDownloaded, Stored (Some e) => Some (catch conv (Some e) v)
  | AwaitLogFailed, Stored None => Some (finally conv Done v)
  | AwaitLogFailed, Stored (Some e) => Some (finally conv (Failed (Some e)) v)
  | _, _ => None
  end.

Definition PoolState : Type := @Pool.State ConversationItem Task Vars.

End Run.

Definition tally (v : Vars) : nat := (downloaded v + skipped v + failed v)%nat.

(** Has the worker added its item to a counter?  It has once
    [saveConversation] resolved or the [catch] block ran. *)
Definition counted (t : Task) : bool :=
  match t with
  | AwaitDownload | AwaitSave _ => false
  | _ => true
  end.

(** The [await]s a worker of a run without [verbose] can stand at. *)
Definition quiet (t : Task) : Prop := t <> AwaitLogDownloaded.

(** [backup] from the listing on: the diff against the stored copies, then
    the state in which the download loop is entered. *)
Definition diff (Date_getTime : string -> float) (storage : Storage)
    (options : BackupOptions) (conversations : list ConversationItem)
  : Vars * list ConversationItem :=
  fold_left (diff_step Date_getTime storage options (length conversations))
    conversations (mkVars 0 0 0 0 [] [], []).

Definition enter (Date_getTime : string -> float) (storage : Storage)
    (options : BackupOptions) (conversations : list ConversationItem) : PoolState :=
  let '(v, toDownload) := diff Date_getTime storage options conversations in
  Pool.enter toDownload v.

Definition play (options : BackupOptions) (conversations : list ConversationItem)
    (acts : list (@Pool.Action Answer)) (st : PoolState) : option PoolState :=
  Pool.play processOne_start
    (processOne_resume options (length conversations))
    settled (concurrency options) (delay options) acts st.

(** The states the download loop of a run of [backup] passes through. *)
Definition reachable (Date_getTime : string -> float) (storage : Storage)
    (options : BackupOptions) (conversations : list ConversationItem)
    (st : PoolState) : Prop :=
  exists acts,
    play options conversations acts
      (enter Date_getTime storage options conversations) = Some st.

(** After the loop: [saveMetadata], the closing [appendLog], the [return]. *)
Definition finish (conversations : list ConversationItem)
    (saveMetadata appendLog : option JsError) (st : PoolState)
  : Completion BackupResult :=
  match saveMetadata, appendLog with
  | Some e, _ => Threw (Some e)
  | None, Some e => Threw (Some e)
  | None, None =>
    let v := Pool.shared st in
    Returned (mkResult (length conversations) (downloaded v) (skipped v)
                (failed v) (errors v))
  end.

(** [backup(options)], having listed [conversations], returns [r]. *)
Definition backup (Date_getTime : string -> float) (storage : Storage)
    (options : BackupOptions) (conversations : list ConversationItem)
    (r : BackupResult) : Prop :=
  exists st,
    reachable Date_getTime storage options conversations st
    /\ Pool.pc st = Pool.Exited
    /\ finish conversations None None st = Returned r.

End Backup.

(** * Permanent-failure memory: [runFileDownloads] ([src/cli/commands/backup.ts]) *)

Module Cli.
Import FileService.

(** [loadFailedFiles]: [persisted] is [metadata.failedFiles] when
    [metadata.json] is there and holds an array. *)
Definition loadFailedFiles (persisted : option (list string)) : gset string :=
  match persisted with
  | Some failedFiles => list_to_set failedFiles
  | None => ∅
  end.

Definition previously_failed (skipFileIds : gset string) (r : FileReference) : bool :=
  bool_decide (fileId r ∈ skipFileIds).

(** [skippedKnown], the count the spinner reports as "previously failed,
    skipped". *)
Definition skippedKnown (refs : list FileReference) (skipFileIds : gset string) : nat :=
  if (0 <? size skipFileIds)%nat
  then length (List.filter (previously_failed skipFileIds) refs)
  else 0%nat.

Definition activeCount (refs : list FileReference) (skipFileIds : gset string) : Z :=
  Z.of_nat (length refs) - Z.of_nat (skippedKnown refs skipFileIds).

(** The options [runFileDownloads] hands to [downloadFiles]. *)
Definition downloadOptions (concurrency delay : Z) (verbose : bool)
    (skipFileIds : gset string) : Download.FileDownloadOptions :=
  Download.mkOptions concurrency delay verbose (Some skipFileIds).

(** [Set.prototype.add] on the elements of a set in insertion order: an
    element that is there keeps its place. *)
Definition Set_add (elements : list string) (x : string) : list string :=
  if existsb (String.eqb x) elements then elements else elements ++ [x].

(** [[...skipFileIds]]: the elements of the set [loadFailedFiles] built,
    in insertion order, which is the stored array with every identifier at
    its first place. *)
Definition spread (persisted : option (list string)) : list string :=
  match persisted with
  | Some failedFiles => fold_left Set_add failedFiles []
  | None => []
  end.

(** [[...skipFileIds, ...result.failedFileIds]], what [saveFailedFiles]
    persists; [persisted] is what [skipFileIds] was loaded from. *)
Definition allFailed (persisted : option (list string))
    (result : Download.FileDownloadResult) : list string :=
  spread persisted ++ Download.res_failedFileIds result.

(** [runFileDownloads] from the scan to the result of [downloadFiles]:
    [files] are the stored conversations, [persisted] the stored memory.
    It returns early, without a batch, when [activeCount === 0]. *)
Definition runs_batch (files : list (option ConversationDetail))
    (persisted : option (list string)) : bool :=
  negb (activeCount (scanAllConversations files) (loadFailedFiles persisted) =? 0).

End Cli.

(** * Reading a retry trace *)

Module RetryTrace.
Import Retry.

Definition is_sleep (ev : Event) : bool :=
  match ev with EvSleep _ => true | _ => false end.

Definition is_observation (ev : Event) : bool :=
  match ev with EvOnRetry _ _ _ => true | _ => false end.

(** How often the run slept, and how often it called the observer. *)
Definition sleeps (tr : list Event) : nat := length (List.filter is_sleep tr).

Definition observations (tr : list Event) : nat :=
  length (List.filter is_observation tr).

Definition is_delay (ev : Event) : option float :=
  match ev with EvSleep delay => Some delay | _ => None end.

(** The delays slept, in order. *)
Definition delays (tr : list Event) : list float := omap is_delay tr.

(** The delay is not above the cap (or not a number at all). *)
Definition capped (maxDelay delay : float) : bool :=
  PrimFloat.is_nan delay || PrimFloat.leb delay maxDelay.

End RetryTrace.

(** * Paginated listing ([src/api/pagination.ts]) *)

Module Pagination.

Definition CONVERSATIONS : string := "/backend-api/conversations".
Definition PROJECTS_SIDEBAR : string := "/backend-api/gizmos/snorlax/sidebar".
Definition PROJECT_CONVERSATIONS (gizmoId : string) : string :=
  String.append "/backend-api/gizmos/" (String.append gizmoId "/conversations").

(** [ConversationsResponse]: a page of the offset-paginated listing. *)
Record ConversationsResponse : Type := mkPage {
  items : list ConversationItem;
  total : Z
}.

(** A page of a cursor-paginated listing, of conversations or of projects. *)
Record CursorResponse (A : Type) : Type := mkCursorPage {
  cursor_items : list A;
  cursor : option string
}.

Arguments mkCursorPage {A}.
Arguments cursor_items {A}.
Arguments cursor {A}.

(** [SidebarItem], by its [gizmo]: identifier and display name. *)
Record SidebarItem : Type := mkProject {
  gizmo_id : string;
  gizmo_name : string
}.

(** What a listing does to the outside, in order. *)
Inductive Event : Type :=
| Request (url : string)                 (* [client.fetch(url, ...)] *)
| OnProgress (fetched : Z) (total : Z)   (* [onProgress?.(fetched, total)] *)
| Sleep (ms : Z).                        (* [await sleep(delay)] *)

Definition is_request (ev : Event) : option string :=
  match ev with Request url => Some url | _ => None end.

Definition is_sleep (ev : Event) : bool :=
  match ev with Sleep _ => true | _ => false end.

(** The URLs requested, in order, and the number of sleeps. *)
Definition requests (tr : list Event) : list string := omap is_request tr.
Definition sleeps (tr : list Event) : nat := length (List.filter is_sleep tr).

(** A generator drained by [for await]: what it yielded, how it ended
    ([None]: it returned), the world it left and what it did. *)
Record Drained (A W : Type) : Type := mkDrained {
  yielded : list A;
  thrown : option (option JsError);
  world : W;
  trace : list Event
}.

Arguments mkDrained {A W}.
Arguments yielded {A W}.
Arguments thrown {A W}.
Arguments world {A W}.
Arguments trace {A W}.

(** [true && s] on an optional string: is the cursor truthy? *)
Definition truthy (c : option string) : bool :=
  match c with Some s => negb (String.eqb s "") | None => false end.

Section Offset.
Context {W : Type}.
(** [client.fetch(url, { parseResponse })] on the listing endpoint. *)
Variable call : string -> W -> Completion ConversationsResponse * W.
Variable limit delay : Z.

Definition page_url (offset : Z) : string :=
  String.append CONVERSATIONS
    (String.append "?offset="
       (String.append (pretty offset)
          (String.append "&limit="
             (String.append (pretty limit) "&order=updated")))).

(** [offset < total], with [total] still [Infinity] when [None]. *)
Definition below (offset : Z) (total : option Z) : bool :=
  match total with None => true | Some t => offset <? t end.

(** The [while] loop of [fetchAllConversations], entered at its test. *)
Fixpoint offset_loop (fuel : nat) (offset : Z) (total0 : option Z) (fetched : Z)
    (out : list ConversationItem) (w : W) (tr : list Event)
  : option (Drained ConversationItem W) :=
  match fuel with
  | O => None
  | S fuel' =>
    if below offset total0 then
      match call (page_url offset) w with
      | (Threw e, w1) =>
        Some (mkDrained out (Some e) w1 (tr ++ [Request (page_url offset)]))
      | (Returned response, w1) =>
        let total' := total response in
        let out' := out ++ items response in
        let fetched' := fetched + Z.of_nat (length (items response)) in
        let offset' := offset + limit in
        offset_loop fuel' offset' (Some total') fetched' out' w1
          (tr ++ [Request (page_url offset); OnProgress fetched' total']
              ++ (if (offset' <? total') && (0 <? delay) then [Sleep delay] else []))
      end
    else Some (mkDrained out None w tr)
  end.

(** [fetchAllConversations(client, { limit, delay, onProgress })], drained. *)
Definition fetchAllConversations (fuel : nat) (w : W)
  : option (Drained ConversationItem W) :=
  offset_loop fuel 0 None 0 [] w [].

(** [countConversations] *)
Definition countConversations (w : W) : Completion Z * W :=
  match call (String.append CONVERSATIONS "?offset=0&limit=1") w with
  | (Returned response, w1) => (Returned (total response), w1)
  | (Threw e, w1) => (Threw e, w1)
  end.

End Offset.

Section Cursor.
Context {W A : Type}.
Variable call : string -> W -> Completion (CursorResponse A) * W.
(** [encodeURIComponent] *)
Variable encodeURIComponent : string -> string.
Variable delay : Z.

Definition cursor_url (base cursor : string) : string :=
  String.append base (String.append "?cursor=" (encodeURIComponent cursor)).

(** The [while] loop of [fetchProjectConversations]: it runs as long as the
    cursor is neither [null] nor [undefined]. *)
Fixpoint cursor_loop (fuel : nat) (base : string) (cursor0 : option string)
    (fetched : Z) (out : list A) (w : W) (tr : list Event)
  : option (Drained A W) :=
  match fuel with
  | O => None
  | S fuel' =>
    match cursor0 with
    | None => Some (mkDrained out None w tr)
    | Some c =>
      match call (cursor_url base c) w with
      | (Threw e, w1) =>
        Some (mkDrained out (Some e) w1 (tr ++ [Request (cursor_url base c)]))
      | (Returned response, w1) =>
        let out' := out ++ cursor_items response in
        let fetched' := fetched + Z.of_nat (length (cursor_items response)) in
        cursor_loop fuel' base (cursor response) fetched' out' w1
          (tr ++ [Request (cursor_url base c); OnProgress fetched' fetched']
              ++ (if truthy (cursor response) && (0 <? delay) then [Sleep delay] else []))
      end
    end
  end.

(** [fetchProjectConversations(client, gizmoId, { delay, onProgress })],
    drained; the first cursor is ['0']. *)
Definition fetchProjectConversations (fuel : nat) (gizmoId : string) (w : W)
  : option (Drained A W) :=
  cursor_loop fuel (PROJECT_CONVERSATIONS gizmoId) (Some "0") 0 [] w [].

(** The URL [fetchAllProjects] asks: with the cursor when it is truthy. *)
Definition sidebar_url (cursor0 : option string) : string :=
  if truthy cursor0 then cursor_url PROJECTS_SIDEBAR (default "" cursor0)
  else PROJECTS_SIDEBAR.

(** The URL [fetchProjectConversations] asks for a cursor. *)
Definition project_url (gizmoId : string) (cursor0 : option string) : string :=
  cursor_url (PROJECT_CONVERSATIONS gizmoId) (default "" cursor0).

(** The [do ... while (cursor)] loop of [fetchAllProjects], entered at its
    body: it runs as long as the cursor is truthy. *)
Fixpoint sidebar_loop (fuel : nat) (cursor0 : option string) (out : list A)
    (w : W) (tr : list Event) : option (Drained A W) :=
  match fuel with
  | O => None
  | S fuel' =>
    let url := sidebar_url cursor0 in
    match call url w with
    | (Threw e, w1) => Some (mkDrained out (Some e) w1 (tr ++ [Request url]))
    | (Returned response, w1) =>
      let out' := out ++ cursor_items response in
      let tr' := tr ++ [Request url]
                    ++ (if truthy (cursor response) && (0 <? delay)
                        then [Sleep delay] else []) in
      if truthy (cursor response)
      then sidebar_loop fuel' (cursor response) out' w1 tr'
      else Some (mkDrained out' None w1 tr')
    end
  end.

(** [fetchAllProjects(client, { delay })]: the items pushed when it throws
    are lost to the caller. *)
Definition fetchAllProjects (fuel : nat) (w : W) : option (Drained A W) :=
  sidebar_loop fuel None [] w [].

End Cursor.

(** [BackupService.listConversations], [listProjectConversations] and the
    [await] of [fetchAllProjects]: the items, unless the listing threw. *)
Definition collected {A W : Type} (d : Drained A W) : Completion (list A) :=
  match thrown d with
  | None => Returned (yielded d)
  | Some e => Threw e
  end.

(** The offsets of [n] consecutive pages of [limit] items from [offset] on. *)
Fixpoint offsets (limit : Z) (n : nat) (offset : Z) : list Z :=
  match n with
  | O => []
  | S n' => offset :: offsets limit n' (offset + limit)
  end.

(** Is the cursor neither [null] nor [undefined]? *)
Definition present (c : option string) : bool :=
  match c with Some _ => true | None => false end.

(** The pages a cursor-paginated server serves from a cursor on, to a lister
    that asks for the page of a cursor at [url] and goes on while the cursor
    it gets is [live]: each page is listed with the cursor it was asked by. *)
Inductive serves {W A : Type} (call : string -> W -> Completion (CursorResponse A) * W)
    (url : option string -> string) (live : option string -> bool)
  : option string -> W -> list (option string * list A) -> W -> Prop :=
| serves_last c w its next w1 :
    call (url c) w = (Returned (mkCursorPage its next), w1) ->
    live next = false ->
    serves call url live c w [(c, its)] w1
| serves_more c w its next w1 rest w2 :
    call (url c) w = (Returned (mkCursorPage its next), w1) ->
    live next = true ->
    serves call url live next w1 rest w2 ->
    serves call url live c w ((c, its) :: rest) w2.

End Pagination.

(** * What a backup reports *)

Module BackupTrace.
Import Backup.

Definition is_progress (n : Notice) : option (nat * nat) :=
  match n with
  | OnDownloadProgress completed total _ => Some (completed, total)
  | _ => None
  end.

(** The calls of [onDownloadProgress], in order: [(completed, total)]. *)
Definition reported (ns : list Notice) : list (nat * nat) := omap is_progress ns.

(** The counts [1 .. k] out of [total]. *)
Definition counting (total k : nat) : list (nat * nat) :=
  List.map (fun completed => (completed, total)) (seq 1 k).

(** Has [processOne] gone through its [finally] block? *)
Definition finished (t : Task) : bool :=
  match t with
  | Done | Failed _ => true
  | _ => false
  end.

(** What the callbacks and the error list keep in step with. *)
Definition in_step (total : nat) (v : Vars) : Prop :=
  reported (notices v) = counting total (completed v)
  /\ length (errors v) = failed v.

End BackupTrace.

(** * Projects *)

Module Projects.
Import Pagination.

(** [Array.prototype.join] *)
Fixpoint join (sep : string) (l : list string) : string :=
  match l with
  | [] => ""
  | [x] => x
  | x :: rest => String.append x (String.append sep (join sep rest))
  end.

(** The double quote. *)
Definition dquote : string := String (Ascii.ascii_of_nat 34) EmptyString.

Section Resolve.
(** [String.prototype.toLowerCase] *)
Variable toLowerCase : string -> string.

(** The predicate of [projects.find]. *)
Definition matches (nameOrId : string) (p : SidebarItem) : bool :=
  String.eqb (gizmo_id p) nameOrId
  || String.eqb (toLowerCase (gizmo_name p)) (toLowerCase nameOrId).

Definition notFound (nameOrId : string) (projects : list SidebarItem) : JsError :=
  let available := join ", " (List.map gizmo_name projects) in
  PlainError
    (String.append "Project "
       (String.append dquote
          (String.append nameOrId
             (String.append dquote
                (String.append " not found. Available projects: "
                   (if FileService.truthy available then available else "(none)")))))).

(** [BackupService.resolveProjectId], from what [listProjects] gave. *)
Definition resolveProjectId (listed : Completion (list SidebarItem)) (nameOrId : string)
  : Completion (string * string) :=
  match listed with
  | Threw e => Threw e
  | Returned projects =>
    match find (matches nameOrId) projects with
    | Some p => Returned (gizmo_id p, gizmo_name p)
    | None => Threw (Some (notFound nameOrId projects))
    end
  end.

End Resolve.

(** A string as JavaScript has it: its UTF-16 code units. *)
Definition CodeUnits : Type := list N.

(** The class [[a-zA-Z0-9_-]]. *)
Definition safe (c : N) : bool :=
  ((97 <=? c) && (c <=? 122) || (65 <=? c) && (c <=? 90)
   || (48 <=? c) && (c <=? 57) || (c =? 95) || (c =? 45))%N.

(** [projectName.replace(/[^a-zA-Z0-9_-]/g, '_')] *)
Definition safeName (projectName : CodeUnits) : CodeUnits :=
  List.map (fun c => if safe c then c else 95%N) projectName.

End Projects.

(** * The failure memory in [metadata.json] *)

Module Metadata.

Record BackupMetadata : Type := mkMetadata {
  timestamp : string;
  totalConversations : nat;
  successfulDownloads : nat;
  failedDownloads : nat;
  errors : list (string * string)
}.

(** [metadata.json] as this program leaves it: missing (or unreadable), or
    an object with the keys of a [BackupMetadata], if [saveMetadata] wrote
    them, and the array [failedFiles], if [saveFailedFiles] set it. *)
Inductive MetadataFile : Type :=
| Missing
| Document (backup : option BackupMetadata) (failedFiles : option (list string)).

(** [StorageService.saveMetadata]: the file is written anew. *)
Definition saveMetadata (file : MetadataFile) (metadata : BackupMetadata) : MetadataFile :=
  Document (Some metadata) None.

(** The metadata [backup] builds and saves before it returns. *)
Definition metadataOf (now : string) (r : Backup.BackupResult) : BackupMetadata :=
  mkMetadata now (Backup.totalConversations r) (Backup.res_downloaded r)
    (Backup.res_failed r) (Backup.res_errors r).

(** [metadata.failedFiles], when the file parses and holds that array. *)
Definition persisted (file : MetadataFile) : option (list string) :=
  match file with
  | Document _ failedFiles => failedFiles
  | Missing => None
  end.

(** The other keys of the document. *)
Definition backupOf (file : MetadataFile) : option BackupMetadata :=
  match file with
  | Document backup _ => backup
  | Missing => None
  end.

(** [loadFailedFiles(output)] *)
Definition loadFailedFiles (file : MetadataFile) : gset string :=
  Cli.loadFailedFiles (persisted file).

(** [saveFailedFiles(output, failedFileIds)]: the document read, or [{}],
    with [failedFiles] set. *)
Definition saveFailedFiles (file : MetadataFile) (failedFileIds : list string)
  : MetadataFile :=
  match file with
  | Document backup _ => Document backup (Some failedFileIds)
  | Missing => Document None (Some failedFileIds)
  end.

(** The end of [runFileDownloads] after a batch that returned [result]. *)
Definition runFileDownloads_saves (file : MetadataFile)
    (result : Download.FileDownloadResult) : MetadataFile :=
  saveFailedFiles file (Cli.allFailed (persisted file) result).

End Metadata.

(** * The files on disk *)

Module Tree.

(** What a path leads to: a regular file, a directory with its entries in
    [readdir] order, a directory that cannot be read, or anything else. *)
#[warnings="-register-all"]
Inductive Entry : Type :=
| File
| Directory (entries : list (string * Entry))
| Unreadable
| Other.

(** [entry.isDirectory()] *)
Definition isDirectory (e : Entry) : bool :=
  match e with
  | Directory _ | Unreadable => true
  | _ => false
  end.

(** A [for ... of] loop that returns the first result it finds. *)
Definition first_some {A B : Type} (f : A -> option B) : list A -> option B :=
  fix scan (l : list A) : option B :=
    match l with
    | [] => None
    | x :: rest =>
      match f x with
      | Some y => Some y
      | None => scan rest
      end
    end.

(** [dirHasFiles(dir)], where [dir] leads to [e]: [readdir] throws on
    anything but a readable directory. *)
Fixpoint dirHasFiles (e : Entry) : bool :=
  match e with
  | Directory entries =>
    existsb (fun entry : string * Entry =>
               match snd entry with
               | File => true
               | Directory _ | Unreadable => dirHasFiles (snd entry)
               | Other => false
               end) entries
  | _ => false
  end.

Section Paths.
(** [path.join] of two segments. *)
Variable path_join : string -> string -> string.

(** [findFirstFile(dir)]: [null] is [None]. *)
Fixpoint findFirstFile (e : Entry) : option string :=
  match e with
  | Directory entries =>
    first_some (fun entry : string * Entry =>
                  match snd entry with
                  | File => Some (fst entry)
                  | Directory _ | Unreadable =>
                    match findFirstFile (snd entry) with
                    | Some nested =>
                      if FileService.truthy nested
                      then Some (path_join (fst entry) nested)
                      else None
                    | None => None
                    end
                  | Other => None
                  end) entries
  | _ => None
  end.

(** What a round of [buildFileMap] adds for an entry. *)
Definition linked (entry : string * Entry) : option string :=
  if isDirectory (snd entry) then
    match findFirstFile (snd entry) with
    | Some relFile =>
      if FileService.truthy relFile
      then Some (path_join (path_join "files" (fst entry)) relFile)
      else None
    | None => None
    end
  else None.

(** One round of the loop of [buildFileMap]. *)
Definition map_step (fileMap : gmap string string) (entry : string * Entry)
  : gmap string string :=
  if isDirectory (snd entry) then
    match findFirstFile (snd entry) with
    | Some relFile =>
      if FileService.truthy relFile
      then <[fst entry := path_join (path_join "files" (fst entry)) relFile]> fileMap
      else fileMap
    | None => fileMap
    end
  else fileMap.

(** [buildFileMap(filesDir)], where [filesDir] leads to [e]. *)
Definition buildFileMap (e : Entry) : gmap string string :=
  match e with
  | Directory fileIdDirs => fold_left map_step fileIdDirs ∅
  | _ => ∅
  end.

(** The relative path leads to a regular file below the directory. *)
Inductive locates : Entry -> string -> Prop :=
| locates_file entries name :
    In (name, File) entries -> locates (Directory entries) name
| locates_nested entries name child nested :
    In (name, child) entries -> locates child nested ->
    locates (Directory entries) (path_join name nested).

End Paths.

(** No entry below has the empty name. *)
Fixpoint well_named (e : Entry) : bool :=
  match e with
  | Directory entries =>
    forallb (fun entry : string * Entry =>
               FileService.truthy (fst entry) && well_named (snd entry)) entries
  | _ => true
  end.

End Tree.

(** * Workers run one after the other *)

Module PoolRun.
Import Pool.

Section PoolRun.
Context {Item Task Answer Shared : Type}.
Variable start : Item -> Task.
Variable resume : Item -> Task -> Answer -> Shared -> option (Task * Shared).
Variable settled : Task -> Settled.
(** What the [await]s of the worker on an item are answered with. *)
Variable answers : Item -> list Answer.

(** A worker resumed with one answer after the other. *)
Fixpoint drive (item : Item) (t : Task) (l : list Answer) (sh : Shared)
  : option (Task * Shared) :=
  match l with
  | [] => Some (t, sh)
  | a :: rest =>
    match settled t with
    | Pending =>
      match resume item t a sh with
      | Some (t', sh') => drive item t' rest sh'
      | None => None
      end
    | _ => None
    end
  end.

(** The worker on an item, run from its start with no other in between. *)
Definition alone (item : Item) (sh : Shared) : option (Task * Shared) :=
  drive item (start item) (answers item) sh.

(** The shared variables after the workers on [items] ran one by one. *)
Fixpoint after (items : list Item) (sh : Shared) : Shared :=
  match items with
  | [] => sh
  | item :: rest =>
    match alone item sh with
    | Some (_, sh') => after rest sh'
    | None => sh
    end
  end.

End PoolRun.

(** The answers of a download that goes well: the detail arrives, it is
    saved, and the line of a verbose run is appended to the log. *)
Definition saved (options : Backup.BackupOptions) (detail : ConversationDetail)
    (conv : ConversationItem) : list Backup.Answer :=
  [Backup.Downloaded (Returned detail); Backup.Stored None]
  ++ (if Backup.verbose options then [Backup.Stored None] else []).

(** The answers a file worker gets as [endpoints.ts] stands: the file is
    found on disk; or it is not, and step 1 throws (see [Download.step1]). *)
Definition attempted (onDisk : FileService.FileReference -> bool)
    (ref : FileService.FileReference) : list Download.Answer :=
  if onDisk ref then [Download.DirHasFiles true]
  else [Download.DirHasFiles false;
        Download.MetaFetched (Threw (Some (Client.not_a_function "FILE_DOWNLOAD")))].

End PoolRun.

(** * The thread of a conversation (markdown-service) *)

Module Markdown.

Section Thread.
(** The message of a node, which the thread does not look into. *)
Context {M : Type}.

Record MappingNode : Type := mkNode {
  node_id : string;
  node_message : option M;
  node_parent : option string;
  node_children : option (list string)
}.

(** [mapping]: its entries in the order of [Object.values]. *)
Definition Mapping : Type := list (string * MappingNode).

(** [mapping[id]] *)
Definition get (mapping : Mapping) (id : string) : option MappingNode :=
  option_map snd (find (fun entry => String.eqb (fst entry) id) mapping).

(** [nodeId && mapping[nodeId]] *)
Definition known (mapping : Mapping) (nodeId : option string) : option MappingNode :=
  match nodeId with
  | Some id => if FileService.truthy id then get mapping id else None
  | None => None
  end.

(** The loop that walks from the current node backwards, entered at its
    test. *)
Fixpoint walk (fuel : nat) (mapping : Mapping) (nodeId : option string)
    (path : list MappingNode) : option (list MappingNode) :=
  match fuel with
  | O => None
  | S fuel' =>
    match known mapping nodeId with
    | Some node => walk fuel' mapping (node_parent node) (node :: path)
    | None => Some path
    end
  end.

(** [node.parent === null || node.parent === undefined] *)
Definition is_root (node : MappingNode) : bool :=
  match node_parent node with
  | None => true
  | Some _ => false
  end.

(** The loop that follows the first children from the root on. *)
Fixpoint follow (fuel : nat) (mapping : Mapping) (current : MappingNode)
    (thread : list MappingNode) : option (list MappingNode) :=
  match fuel with
  | O => None
  | S fuel' =>
    match node_children current with
    | Some (nextId :: _) =>
      match get mapping nextId with
      | Some next => follow fuel' mapping next (thread ++ [next])
      | None => Some thread
      end
    | _ => Some thread
    end
  end.

(** [getLinearThread(mapping, currentNode)] *)
Definition getLinearThread (fuel : nat) (mapping : Mapping)
    (currentNode : option string) : option (list MappingNode) :=
  match known mapping currentNode with
  | Some _ => walk fuel mapping currentNode []
  | None =>
    match find (fun entry => is_root (snd entry)) mapping with
    | Some (_, root) => follow fuel mapping root [root]
    | None => Some []
    end
  end.

(** The nodes the walk back from a node identifier meets: the node of the
    identifier, and the known parent of every node met. *)
Inductive met (mapping : Mapping) (nodeId : option string) : MappingNode -> Prop :=
| met_first node :
    known mapping nodeId = Some node -> met mapping nodeId node
| met_next node parent :
    met mapping nodeId node ->
    known mapping (node_parent node) = Some parent ->
    met mapping nodeId parent.

(** Each node of the path but the first names the node before it as its
    parent. *)
Fixpoint chained (mapping : Mapping) (path : list MappingNode) : Prop :=
  match path with
  | a :: (b :: _) as rest => known mapping (node_parent b) = Some a /\ chained mapping rest
  | _ => True
  end.

(** Each node of the thread but the last names the node after it as its
    first child. *)
Fixpoint descending (mapping : Mapping) (thread : list MappingNode) : Prop :=
  match thread with
  | a :: (b :: _) as rest =>
    (exists nextId others, node_children a = Some (nextId :: others)
                           /\ get mapping nextId = Some b)
    /\ descending mapping rest
  | _ => True
  end.

End Thread.

Arguments MappingNode : clear implicits.
Arguments Mapping : clear implicits.

End Markdown.

(** * The occurrences in the stored conversations *)

Module Scan.

(** What a stored file offers to the scan: the occurrences of its record
    in scan order, and nothing when it cannot be read or parsed. *)
Definition file_occurrences (file : option ConversationDetail)
  : list FileService.FileReference :=
  match file with
  | Some detail => FileService.occurrences detail
  | None => []
  end.

(** The occurrences of all stored files, in the order they are scanned. *)
Definition stored_occurrences (files : list (option ConversationDetail))
  : list FileService.FileReference :=
  flat_map file_occurrences files.

End Scan.

(** * The identifiers a file run answers for *)

Module Pending.

Section Items.
Context {Item Task : Type}.

(** The items of the workers in flight whose task satisfies [f], in the
    order of the set. *)
Definition items_where (f : Task -> bool) (l : list (nat * (Item * Task))) : list Item :=
  List.map (fun entry => fst (snd entry))
    (List.filter (fun entry => f (snd (snd entry))) l).

End Items.

(** Has the worker still to add its file to a counter? *)
Definition uncounted (t : Download.Task) : bool := negb (Download.counted t).

(** The identifiers a run of [downloadFiles] answers for: those it has
    recorded as failed, those of the workers that have not counted their
    file yet, and those queued. *)
Definition outstanding (st : Download.PoolState) : list string :=
  Download.failedFileIds (Pool.shared st)
  ++ List.map FileService.fileId (items_where uncounted (Pool.inProgress st))
  ++ List.map FileService.fileId (Pool.queue st).

End Pending.
(** * Scenarios

    Small concrete worlds for the examples below. *)

Module Scenarios.
Import Retry.

(** [Math.random()] always returning 0.5. *)
Definition half {W : Type} (w : W) : float * W := (0x1p-1%float, w).

(** An operation over a call counter: rate-limited on its first invocation,
    rejected as unauthenticated from then on. *)
Definition limited_then_rejected (n : nat) : (JsError + unit) * nat :=
  (inl (if Nat.eqb n 0
        then RateLimitError "Rate limited by API" None
        else AuthenticationError "Access token expired or invalid."),
   S n).

(** An operation that is rate-limited on every invocation. *)
Definition always_limited (n : nat) : (JsError + unit) * nat :=
  (inl (RateLimitError "Rate limited by API" None), S n).

(** A client with a token. *)
Definition client : Client.ChatGPTClient := Client.mkClient "eyJhbG" false "device".

(** [parseInt] on a [retry-after] header; no scenario sends one. *)
Definition noHeader (s : string) : float := nan.

(** A server that answers every request with status 500. *)
Definition server_error {T : Type} (request : Client.Request T) (w : unit)
  : (JsError + Client.Response T) * unit :=
  (inr (Client.mkResponse 500 "Internal Server Error" None None), w).

Definition emptyDetail : ConversationDetail := mkDetail None None [].

(** A server that answers every request with status 200 and a body. *)
Definition server_ok (request : Client.Request ConversationDetail) (w : unit)
  : (JsError + Client.Response ConversationDetail) * unit :=
  (inr (Client.mkResponse 200 "OK" None (Some emptyDetail)), w).

(** A validator that finds every body of the wrong shape. *)
Definition wrong_shape (data : ConversationDetail) : JsError + ConversationDetail :=
  inl (ZodError "Invalid input").

Definition someRef : FileService.FileReference :=
  FileService.mkRef "file-abc" None FileService.attachment.

(** A conversation that names the file [file-abc] three times: as an
    attachment and as a citation of one message, and as an inline image of a
    later one. *)
Definition threefold : ConversationDetail :=
  mkDetail (Some "Report") None
    [ ("n1", mkNode "n1" None);
      ("n2", mkNode "n2"
               (Some (mkMessage (Some [PartString "see the report"])
                        (Some (mkMetadata
                                 (Some [mkAttachment (Some "file-abc") (Some "report.pdf")])
                                 (Some [mkCitation
                                          (Some (mkCitationMetadata (Some "file-abc")
                                                   (Some "Annual report")))
                                          None None]))))));
      ("n3", mkNode "n3"
               (Some (mkMessage
                        (Some [PartObject (Some "image_asset_pointer")
                                 (Some "file-service://file-abc");
                               PartObject (Some "image_asset_pointer")
                                 (Some "file-service://");
                               PartObject (Some "image_asset_pointer")
                                 (Some "sediment://file-xyz")])
                        None))) ].

(** A stored conversation with three attachments and an inline image. *)
Definition library : ConversationDetail :=
  mkDetail (Some "Library") (Some 100%float)
    [ ("n1", mkNode "n1"
               (Some (mkMessage
                        (Some [PartObject (Some "image_asset_pointer")
                                 (Some "file-service://file-img")])
                        (Some (mkMetadata
                                 (Some [mkAttachment (Some "file-abc") (Some "a.pdf");
                                        mkAttachment (Some "file-xyz") (Some "x.pdf");
                                        mkAttachment (Some "file-uvw") None])
                                 None))))) ].

(** The stored conversations: [library], and a file that does not parse. *)
Definition stored : list (option ConversationDetail) := [Some library; None].

(** The persisted memory: [file-abc] failed in an earlier run. *)
Definition memory : option (list string) := Some ["file-abc"].

Definition fileOptions : Download.FileDownloadOptions :=
  Cli.downloadOptions 2 500 false (Cli.loadFailedFiles memory).

Definition notFound : JsError :=
  NetworkError "Request failed: 404 Not Found" (Some 404).

(** A schedule of the file batch [file-img], [file-xyz], [file-uvw] under
    two workers: [file-img] is found on disk while the loop sleeps,
    [file-xyz] is gone from the server, [file-uvw] is resolved, fetched and
    written. *)
Definition fileSchedule : list (@Pool.Action Download.Answer) :=
  [ Pool.Main; Pool.Main; Pool.Timer; Pool.Main;
    Pool.Resume 0 (Download.DirHasFiles true); Pool.Then 0;
    Pool.Timer; Pool.Main; Pool.Main;
    Pool.Resume 1 (Download.DirHasFiles false);
    Pool.Resume 1 (Download.MetaFetched (Threw (Some notFound)));
    Pool.Resume 2 (Download.DirHasFiles false);
    Pool.Resume 2 (Download.MetaFetched
                     (Returned (Download.mkMeta (Some "https://files.example/uvw")
                                  (Some "notes/u.txt"))));
    Pool.Resume 2 (Download.RawFetched (Returned []));
    Pool.Resume 2 (Download.FsDone None);
    Pool.Resume 2 (Download.FsDone None);
    Pool.Then 2; Pool.RaceSettled 2; Pool.Main; Pool.Main;
    Pool.Then 1; Pool.RaceSettled 1; Pool.Main ].

(** [new Date(s).getTime()] on the one date string the scenarios use. *)
Definition epoch (s : string) : float :=
  if String.eqb s "1970-01-01T00:01:40.000Z" then 100000%float else nan.

(** The stored copies: [c1] and [c2] were saved with update time 100, the
    file of [c3] does not parse, [c4] has none. *)
Definition disk : gmap string Backup.StoredFile :=
  <["c1" := Backup.Parsed (mkDetail (Some "One") (Some 100%float) [])]>
  (<["c2" := Backup.Parsed (mkDetail (Some "Two") (Some 100%float) [])]>
  (<["c3" := Backup.Unparsable]> ∅)).

Definition c1 : ConversationItem :=
  mkItem "c1" (Some "One") (TimeString "1970-01-01T00:01:40.000Z").
Definition c2 : ConversationItem := mkItem "c2" (Some "Two") (TimeNumber 150%float).
Definition c3 : ConversationItem := mkItem "c3" None (TimeNumber 50%float).
Definition c4 : ConversationItem := mkItem "c4" (Some "Four") TimeNull.

Definition listing : list ConversationItem := [c1; c2; c3; c4].

Definition incrementalOptions : Backup.BackupOptions :=
  Backup.mkOptions 3 0 true false.

(** An incremental run over [listing]: [c1] is skipped; [c2] and [c4] are
    downloaded and saved, the download of [c3] fails. *)
Definition backupSchedule : list (@Pool.Action Backup.Answer) :=
  [ Pool.Main; Pool.Main; Pool.Main; Pool.Main; Pool.Main;
    Pool.Resume 0 (Backup.Downloaded (Returned emptyDetail));
    Pool.Resume 1 (Backup.Downloaded
                     (Threw (Some (NetworkError "Request failed: 500 " (Some 500)))));
    Pool.Resume 0 (Backup.Stored None);
    Pool.Resume 2 (Backup.Downloaded (Returned emptyDetail));
    Pool.Resume 1 (Backup.Stored None);
    Pool.Resume 2 (Backup.Stored None);
    Pool.Then 1; Pool.Then 0; Pool.Then 2;
    Pool.RaceSettled 1; Pool.Main ].

Definition verboseOptions : Backup.BackupOptions :=
  Backup.mkOptions 3 500 false true.

(** The log cannot be appended to for a moment. *)
Definition logBusy : JsError :=
  mkError "Error" "EBUSY: resource busy or locked, open 'backup.log'" None None.

(** A verbose run over the one conversation [c2]: it is downloaded and
    saved, the append of its "Downloaded" line fails, the append of the
    "Failed" line that follows succeeds. *)
Definition verboseSchedule : list (@Pool.Action Backup.Answer) :=
  [ Pool.Main; Pool.Main; Pool.Main;
    Pool.Resume 0 (Backup.Downloaded (Returned emptyDetail));
    Pool.Resume 0 (Backup.Stored None);
    Pool.Resume 0 (Backup.Stored (Some logBusy));
    Pool.Resume 0 (Backup.Stored None);
    Pool.Then 0; Pool.RaceSettled 0; Pool.Main ].

End Scenarios.

(** * Facts about the backoff policy *)

(** * More scenarios *)

Module Cases.

(** An operation over a call counter: rate-limited on its first invocation,
    answered with 42 on the second. *)
Definition limited_then_ok (n : nat) : (JsError + Z) * nat :=
  (if Nat.eqb n 0 then inl (RateLimitError "Rate limited by API" None) else inr 42, S n).

(** A server that answers every request with status 429 and a [retry-after]
    header. *)
Definition rate_limited {T : Type} (request : Client.Request T) (w : unit)
  : (JsError + Client.Response T) * unit :=
  (inr (Client.mkResponse 429 "Too Many Requests" (Some "30") None), w).

(** An operation that is rate-limited on every invocation and asked to
    wait thirty seconds. *)
Definition rate_limited_operation (n : nat) : (JsError + unit) * nat :=
  (inl (RateLimitError "Rate limited by API" (Some 30000%float)), S n).

(** A listing of five conversations served in pages; every request moves
    the world's request counter. *)
Definition five : list ConversationItem :=
  [Scenarios.c1; Scenarios.c2; Scenarios.c3; Scenarios.c4;
   mkItem "c5" None TimeNull].

(** The page of [five] at an offset, two items long. *)
Definition page_at (offset : Z) : list ConversationItem :=
  firstn 2 (skipn (Z.to_nat offset) five).

(** The page of [five] a listing URL asks for, with [limit = 2]. *)
Definition page_of (url : string) : list ConversationItem :=
  if String.eqb url (Pagination.page_url 2 0) then page_at 0
  else if String.eqb url (Pagination.page_url 2 2) then page_at 2
  else if String.eqb url (Pagination.page_url 2 4) then page_at 4
  else [].

(** The offset-paginated server of [five]. *)
Definition listing_server (url : string) (w : nat)
  : Completion Pagination.ConversationsResponse * nat :=
  (Returned (Pagination.mkPage (page_of url) 5), S w).

(** The same server with its second page out of order. *)
Definition broken_server (url : string) (w : nat)
  : Completion Pagination.ConversationsResponse * nat :=
  if String.eqb url (Pagination.page_url 2 2)
  then (Threw (Some (NetworkError "Request failed: 500 " (Some 500))), S w)
  else listing_server url w.

(** A cursor-paginated server of the same conversations: cursor ['0'] leads
    to ['p2'], and that to the last page. *)
Definition cursor_server (url : string) (w : nat)
  : Completion (Pagination.CursorResponse ConversationItem) * nat :=
  (Returned
     (if String.eqb url "/backend-api/gizmos/g-1/conversations?cursor=0"
      then Pagination.mkCursorPage [Scenarios.c1; Scenarios.c2] (Some "p2")
      else if String.eqb url "/backend-api/gizmos/g-1/conversations?cursor=p2"
      then Pagination.mkCursorPage [Scenarios.c3] None
      else Pagination.mkCursorPage [] None),
   S w).

(** A sidebar of three projects in two pages; the second page ends the
    listing with an empty cursor. *)
Definition sidebar_server (url : string) (w : nat)
  : Completion (Pagination.CursorResponse Pagination.SidebarItem) * nat :=
  (Returned
     (if String.eqb url "/backend-api/gizmos/snorlax/sidebar"
      then Pagination.mkCursorPage
             [Pagination.mkProject "g-1" "Research"; Pagination.mkProject "g-2" "Travel"]
             (Some "next")
      else if String.eqb url "/backend-api/gizmos/snorlax/sidebar?cursor=next"
      then Pagination.mkCursorPage [Pagination.mkProject "g-3" "Recipes"] (Some "")
      else Pagination.mkCursorPage [] None),
   S w).

(** [encodeURIComponent] on cursors that need no escaping. *)
Definition plain (s : string) : string := s.

(** [path.join] on POSIX, for segments that need no normalising. *)
Definition posix_join (a b : string) : string :=
  String.append a (String.append "/" b).

(** The directory of a generated image: its file lies one level down. *)
Definition fileDir : Tree.Entry :=
  Tree.Directory
    [("dalle-generations", Tree.Directory [("a1b2.webp", Tree.File)])].

(** [files/]: a downloaded image, a directory left empty, a stray file. *)
Definition filesDir : list (string * Tree.Entry) :=
  [("file-abc", fileDir); ("file-empty", Tree.Directory []); (".DS_Store", Tree.File)].

(** A conversation of three turns, the second one edited: [n2b] replaced
    [n2a], and the current node hangs below [n2b]. *)
Definition turns : Markdown.Mapping unit :=
  [ ("n1", Markdown.mkNode "n1" None None (Some ["n2a"; "n2b"]));
    ("n2a", Markdown.mkNode "n2a" (Some tt) (Some "n1") (Some []));
    ("n2b", Markdown.mkNode "n2b" (Some tt) (Some "n1") (Some ["n3"]));
    ("n3", Markdown.mkNode "n3" (Some tt) (Some "n2b") None) ].

(** How far a node of [turns] is from the root. *)
Definition turn_depth (id : string) : nat :=
  if String.eqb id "n1" then 0
  else if String.eqb id "n3" then 2
  else 1.

(** A damaged conversation: below a sound root, two nodes that name each
    other as parent. *)
Definition knot : Markdown.Mapping unit :=
  [ ("r", Markdown.mkNode "r" None None (Some []));
    ("a", Markdown.mkNode "a" (Some tt) (Some "b") (Some ["b"]));
    ("b", Markdown.mkNode "b" (Some tt) (Some "a") (Some ["a"])) ].

(** The stored memory of an earlier run, one identifier written twice. *)
Definition remembered : option (list string) :=
  Some ["file-abc"; "file-old"; "file-abc"].

(** A schedule of the file batch [file-img], [file-xyz], [file-uvw] under
    two workers: [file-img] is found on disk; for the two others step 1
    throws. *)
Definition memorySchedule : list (@Pool.Action Download.Answer) :=
  [ Pool.Main; Pool.Main;
    Pool.Resume 0 (Download.DirHasFiles true); Pool.Then 0;
    Pool.Timer; Pool.Main;
    Pool.Resume 1 (Download.DirHasFiles false);
    Pool.Resume 1 (Download.MetaFetched
                     (Threw (Some (Client.not_a_function "FILE_DOWNLOAD"))));
    Pool.Then 1;
    Pool.Timer; Pool.Main; Pool.Main;
    Pool.Resume 2 (Download.DirHasFiles false);
    Pool.Resume 2 (Download.MetaFetched
                     (Threw (Some (Client.not_a_function "FILE_DOWNLOAD"))));
    Pool.Then 2; Pool.RaceSettled 2; Pool.Main ].

End Cases.


Module RetryFacts.
Import Retry.

Lemma calls_app (tr1 tr2 : list Event) : calls (tr1 ++ tr2) = (calls tr1 + calls tr2)%nat.
Proof. unfold calls. rewrite List.filter_app, length_app. reflexivity. Qed.

Lemma calls_observe (opts : RetryOptions) e attempt delay :
  calls (observe opts e attempt delay) = 0%nat.
Proof. unfold observe. destruct (onRetry opts); reflexivity. Qed.

(** The errors of [src/api/types.ts] that [withRetry] does not retry ... *)
Lemma authentication_not_retried message :
  is_non_retryable (AuthenticationError message) = true.
Proof. reflexivity. Qed.

Lemma not_found_not_retried message :
  is_non_retryable (NetworkError message (Some 404)) = true.
Proof. reflexivity. Qed.

(** ... and those it does. *)
Lemma rate_limit_retried message retryAfter :
  is_non_retryable (RateLimitError message retryAfter) = false.
Proof. reflexivity. Qed.

Lemma validation_retried message : is_non_retryable (ZodError message) = false.
Proof. reflexivity. Qed.

Lemma server_error_retried message :
  is_non_retryable (NetworkError message (Some 500)) = false.
Proof. reflexivity. Qed.

Section Loop.
Context {W T : Type}.
Variable fn : W -> (JsError + T) * W.
Variable random : W -> float * W.
Variable opts : RetryOptions.

Lemma fuel_from_next attempt :
  attempt < maxRetries opts ->
  fuel_from opts attempt = S (fuel_from opts (attempt + 1)).
Proof. intros H. unfold fuel_from. f_equal. lia. Qed.

(** A state in which the loop test is evaluated is a state of the run:
    from there the run ends as the loop does. *)
Lemma run_from_attempt w0 attempt lastError w tr :
  at_attempt fn random opts w0 attempt lastError w tr ->
  run fn random opts w0 = loop fn random opts (fuel_from opts attempt) attempt lastError w tr.
Proof.
  induction 1 as [|attempt lastError w tr e w1 rnd w2 Hat IH Hlt Hfn Hretry Hrnd].
  - reflexivity.
  - rewrite IH, (fuel_from_next attempt Hlt). cbn [loop].
    replace (attempt <=? maxRetries opts) with true by (symmetry; apply Z.leb_le; lia).
    rewrite Hfn.
    replace (attempt =? maxRetries opts) with false by (symmetry; apply Z.eqb_neq; lia).
    rewrite Hretry, Hrnd. reflexivity.
Qed.

(** The attempt number counts the invocations made so far. *)
Lemma calls_at_attempt w0 attempt lastError w tr :
  at_attempt fn random opts w0 attempt lastError w tr ->
  0 <= attempt /\ calls tr = Z.to_nat attempt.
Proof.
  induction 1 as [|attempt lastError w tr e w1 rnd w2 Hat [Hge IH] Hlt Hfn Hretry Hrnd].
  - split; [lia | reflexivity].
  - split; [lia |].
    rewrite !calls_app, calls_observe, IH. cbn. lia.
Qed.

(** One failing invocation that ends the run: at the last attempt, or with
    an error that is not retried. *)
Lemma loop_throws fuel attempt lastError w tr e w1 :
  attempt <= maxRetries opts ->
  fn w = (inl e, w1) ->
  attempt = maxRetries opts \/ is_non_retryable e = true ->
  loop fn random opts (S fuel) attempt lastError w tr
  = Some (Threw (Some e), w1, tr ++ [EvCall attempt]).
Proof.
  intros Hle Hfn Hend. cbn [loop].
  replace (attempt <=? maxRetries opts) with true by (symmetry; apply Z.leb_le; lia).
  rewrite Hfn. destruct (attempt =? maxRetries opts) eqn:Heq; [reflexivity |].
  destruct Hend as [-> | ->]; [| reflexivity].
  rewrite Z.eqb_refl in Heq. discriminate.
Qed.

(** An operation that fails on every invocation with an error that is
    retried is invoked at every attempt up to [maxRetries], and the error
    of that last invocation is thrown. *)
Lemma always_failing_from (n : nat) :
  (forall w, exists e w1, fn w = (inl e, w1) /\ is_non_retryable e = false) ->
  forall w0 attempt lastError w tr,
    at_attempt fn random opts w0 attempt lastError w tr ->
    attempt <= maxRetries opts ->
    n = Z.to_nat (maxRetries opts - attempt) ->
    exists lastError' w' tr' e w1,
      at_attempt fn random opts w0 (maxRetries opts) lastError' w' tr'
      /\ fn w' = (inl e, w1)
      /\ run fn random opts w0
         = Some (Threw (Some e), w1, tr' ++ [EvCall (maxRetries opts)]).
Proof.
  intros Hfail. induction n as [|n IH]; intros w0 attempt lastError w tr Hat Hle Hn.
  - assert (attempt = maxRetries opts) as -> by lia.
    destruct (Hfail w) as (e & w1 & Hfn & _).
    exists lastError, w, tr, e, w1. split; [exact Hat |]. split; [exact Hfn |].
    rewrite (run_from_attempt _ _ _ _ _ Hat). unfold fuel_from.
    apply loop_throws; [lia | exact Hfn | now left].
  - destruct (Hfail w) as (e & w1 & Hfn & Hretry).
    destruct (random w1) as [rnd w2] eqn:Hrnd.
    assert (attempt < maxRetries opts) as Hlt by lia.
    pose proof (at_next fn random opts w0 _ _ _ _ _ _ _ _ Hat Hlt Hfn Hretry Hrnd) as Hat'.
    eapply IH; [exact Hat' | lia | lia].
Qed.

(** The loop always ends within its fuel, and invokes the operation at
    most [maxRetries + 1] times. *)
Lemma loop_total attempt : forall fuel lastError w tr,
  (Z.to_nat (maxRetries opts + 1 - attempt) < fuel)%nat ->
  exists c w' tr',
    loop fn random opts fuel attempt lastError w tr = Some (c, w', tr' )
    /\ (calls tr' <= calls tr + Z.to_nat (maxRetries opts + 1 - attempt))%nat.
Proof.
  intros fuel. revert attempt.
  induction fuel as [|fuel IH]; intros attempt lastError w tr Hfuel; [lia |].
  cbn [loop]. destruct (attempt <=? maxRetries opts) eqn:Hle.
  - apply Z.leb_le in Hle.
    assert (Z.to_nat (maxRetries opts + 1 - attempt)
            = S (Z.to_nat (maxRetries opts + 1 - (attempt + 1)))) as Hs by lia.
    destruct (fn w) as [[e|v] w1].
    + destruct (attempt =? maxRetries opts).
      { eexists _, _, _. split; [reflexivity |]. rewrite calls_app. cbn. lia. }
      destruct (is_non_retryable e).
      { eexists _, _, _. split; [reflexivity |]. rewrite calls_app. cbn. lia. }
      destruct (random w1) as [rnd w2].
      edestruct (IH (attempt + 1) (Some e) w2) as (c & w' & tr' & Heq & Hcalls);
        [| rewrite Heq; eexists _, _, _; split; [reflexivity |] ].
      * lia.
      * rewrite !calls_app, calls_observe in Hcalls. cbn in Hcalls. lia.
    + eexists _, _, _. split; [reflexivity |]. rewrite calls_app. cbn. lia.
  - eexists _, _, _. split; [reflexivity |]. lia.
Qed.

End Loop.

(** [withRetry] always completes, after at most [maxRetries + 1]
    invocations of the operation. *)
Lemma withRetry_total {W T : Type} (fn : W -> (JsError + T) * W)
    (random : W -> float * W) (options : PartialRetryOptions) (w : W) :
  exists c w' tr,
    withRetry fn random options w = Some (c, w', tr)
    /\ (calls tr <= Z.to_nat (maxRetries (mergeOptions options) + 1))%nat.
Proof.
  unfold withRetry, run.
  destruct (loop_total fn random (mergeOptions options) 0
              (fuel_from (mergeOptions options) 0) None w [])
    as (c & w' & tr & Heq & Hcalls).
  - unfold fuel_from. lia.
  - exists c, w', tr. split; [exact Heq |].
    replace (maxRetries (mergeOptions options) + 1 - 0)
      with (maxRetries (mergeOptions options) + 1) in Hcalls by lia.
    exact Hcalls.
Qed.

End RetryFacts.

(** * The backoff policy: non-retryable failures and exhausted retries *)

(** C4.  At whichever attempt the wrapped operation fails with an
    authentication rejection or a 404 network failure, [withRetry] throws
    that very error, and the failing invocation is the last thing the run
    does: the world is the one that invocation left (no random number drawn,
    no further invocation), and the trace ends with that call (no observer
    call, no sleep). *)
Theorem non_retryable_failure_rethrown_immediately {W T : Type}
    (fn : W -> (JsError + T) * W) (random : W -> float * W)
    (options : Retry.PartialRetryOptions)
    (w0 : W) (attempt : Z) (lastError : option JsError) (w : W)
    (tr : list Retry.Event) (e : JsError) (w1 : W) :
  Retry.at_attempt fn random (Retry.mergeOptions options) w0 attempt lastError w tr ->
  attempt <= Retry.maxRetries (Retry.mergeOptions options) ->
  fn w = (inl e, w1) ->
  (exists message, e = AuthenticationError message)
  \/ (exists message, e = NetworkError message (Some 404)) ->
  Retry.withRetry fn random options w0
  = Some (Threw (Some e), w1, tr ++ [Retry.EvCall attempt]).
Proof.
  intros Hat Hle Hfn Hkind. unfold Retry.withRetry.
  rewrite (RetryFacts.run_from_attempt _ _ _ _ _ _ _ _ Hat). unfold Retry.fuel_from.
  apply RetryFacts.loop_throws; [exact Hle | exact Hfn | right].
  destruct Hkind as [[message ->] | [message ->]]; reflexivity.
Qed.

(** The run of [Scenarios.limited_then_rejected]: the rejection at attempt 1
    ends it, with four retries still unused. *)
Lemma non_retryable_failure_rethrown_immediately_witness :
  Retry.withRetry Scenarios.limited_then_rejected Scenarios.half Retry.noOptions 0%nat
  = Some (Threw (Some (AuthenticationError "Access token expired or invalid.")),
          2%nat,
          [Retry.EvCall 0; Retry.EvSleep 1150%float; Retry.EvCall 1]).
Proof.
  apply (non_retryable_failure_rethrown_immediately
           Scenarios.limited_then_rejected Scenarios.half Retry.noOptions
           0%nat 1 (Some (RateLimitError "Rate limited by API" None)) 1%nat
           [Retry.EvCall 0; Retry.EvSleep 1150%float]
           (AuthenticationError "Access token expired or invalid.") 2%nat).
  - exact (Retry.at_next Scenarios.limited_then_rejected Scenarios.half
             (Retry.mergeOptions Retry.noOptions) 0%nat 0 None 0%nat []
             (RateLimitError "Rate limited by API" None) 1%nat 0x1p-1%float 1%nat
             (Retry.at_first _ _ _ _) eq_refl eq_refl eq_refl eq_refl).
  - cbv. discriminate.
  - reflexivity.
  - left. exists "Access token expired or invalid.". reflexivity.
Defined.

(** C5 as stated fails: with the default [maxRetries] of 5, an operation that
    is rate-limited on every invocation is invoked 6 times. *)
Lemma exhausted_retries_counterexample :
  exists w tr,
    Retry.withRetry Scenarios.always_limited Scenarios.half Retry.noOptions 0%nat
    = Some (Threw (Some (RateLimitError "Rate limited by API" None)), w, tr)
    /\ Retry.maxRetries (Retry.mergeOptions Retry.noOptions) = 5
    /\ Retry.calls tr = 6%nat.
Proof. eexists _, _. split; [vm_compute; reflexivity |]. split; reflexivity. Qed.

(** C5, amended.  An operation that fails with a retried error on every
    invocation is invoked [maxRetries + 1] times, at the attempts 0 to
    [maxRetries]; then [withRetry] throws the error of the last of these
    invocations. *)
Theorem exhausted_retries_propagate_last_error {W T : Type}
    (fn : W -> (JsError + T) * W) (random : W -> float * W)
    (options : Retry.PartialRetryOptions) (w0 : W) :
  0 <= Retry.maxRetries (Retry.mergeOptions options) ->
  (forall w, exists e w1, fn w = (inl e, w1) /\ Retry.is_non_retryable e = false) ->
  exists lastError w tr e w1,
    Retry.at_attempt fn random (Retry.mergeOptions options) w0
      (Retry.maxRetries (Retry.mergeOptions options)) lastError w tr
    /\ fn w = (inl e, w1)
    /\ Retry.withRetry fn random options w0
       = Some (Threw (Some e), w1,
               tr ++ [Retry.EvCall (Retry.maxRetries (Retry.mergeOptions options))])
    /\ Retry.calls (tr ++ [Retry.EvCall (Retry.maxRetries (Retry.mergeOptions options))])
       = Z.to_nat (Retry.maxRetries (Retry.mergeOptions options) + 1).
Proof.
  intros Hmax Hfail.
  destruct (RetryFacts.always_failing_from fn random (Retry.mergeOptions options)
              (Z.to_nat (Retry.maxRetries (Retry.mergeOptions options) - 0)) Hfail
              w0 0 None w0 [] (Retry.at_first _ _ _ _) Hmax eq_refl)
    as (lastError & w & tr & e & w1 & Hat & Hfn & Hrun).
  exists lastError, w, tr, e, w1. repeat split; try assumption.
  destruct (RetryFacts.calls_at_attempt _ _ _ _ _ _ _ _ Hat) as [_ Hcalls].
  rewrite RetryFacts.calls_app, Hcalls.
  replace (Retry.calls [Retry.EvCall _]) with 1%nat by reflexivity. lia.
Qed.

Lemma exhausted_retries_propagate_last_error_witness :
  exists lastError w tr e w1,
    Retry.at_attempt Scenarios.always_limited Scenarios.half
      (Retry.mergeOptions Retry.noOptions) 0%nat
      (Retry.maxRetries (Retry.mergeOptions Retry.noOptions)) lastError w tr
    /\ Scenarios.always_limited w = (inl e, w1)
    /\ Retry.withRetry Scenarios.always_limited Scenarios.half Retry.noOptions 0%nat
       = Some (Threw (Some e), w1,
               tr ++ [Retry.EvCall (Retry.maxRetries (Retry.mergeOptions Retry.noOptions))])
    /\ Retry.calls
         (tr ++ [Retry.EvCall (Retry.maxRetries (Retry.mergeOptions Retry.noOptions))])
       = Z.to_nat (Retry.maxRetries (Retry.mergeOptions Retry.noOptions) + 1).
Proof.
  apply (exhausted_retries_propagate_last_error
           Scenarios.always_limited Scenarios.half Retry.noOptions 0%nat).
  - cbv. discriminate.
  - intros w. eexists _, _. split; reflexivity.
Defined.

(** * The network-call abstraction and its retry budget *)

Module ClientFacts.
Import Retry Client.

(** The options [fetch] hands to [withRetry]: an observer and nothing else,
    so the budget is the default one. *)
Lemma fetch_budget : maxRetries (mergeOptions (mkPartial None None None true)) = 5.
Proof. reflexivity. Qed.

(** [fetch] does not read [retryOptions]. *)
Lemma fetch_ignores_retryOptions {W T : Type}
    (http : Request T -> W -> (JsError + Response T) * W) (random : W -> float * W)
    (parseInt : string -> float) (client : ChatGPTClient) (endpoint : string)
    (m : option string) (b : option T) (p : option (T -> JsError + T))
    (ro : option PartialRetryOptions) (w : W) :
  fetch http random parseInt client endpoint (mkFetchOptions m b p ro) w
  = fetch http random parseInt client endpoint (mkFetchOptions m b p None) w.
Proof. reflexivity. Qed.

(** A request that fails on every attempt with an error that is retried is
    sent six times. *)
Lemma fetch_always_failing {W T : Type}
    (http : Request T -> W -> (JsError + Response T) * W) (random : W -> float * W)
    (parseInt : string -> float) (client : ChatGPTClient) (endpoint : string)
    (options : FetchOptions T) (w0 : W) :
  accessToken client <> "" ->
  (forall w, exists e w1,
      attempt_request http parseInt client endpoint options w = (inl e, w1)
      /\ is_non_retryable e = false) ->
  exists w e w1 tr,
    attempt_request http parseInt client endpoint options w = (inl e, w1)
    /\ fetch http random parseInt client endpoint options w0
       = Some (Threw (Some e), w1, tr)
    /\ calls tr = 6%nat.
Proof.
  intros Htoken Hfail. unfold fetch.
  destruct (String.eqb_spec (accessToken client) "") as [Heq | _]; [contradiction |].
  destruct (RetryFacts.always_failing_from _ random
              (mergeOptions (mkPartial None None None true)) 5 Hfail
              w0 0 None w0 [] (at_first _ _ _ _) ltac:(cbv; discriminate) eq_refl)
    as (lastError & w & tr & e & w1 & Hat & Hfn & Hrun).
  exists w, e, w1, (tr ++ [EvCall 5]). split; [exact Hfn |]. split; [exact Hrun |].
  destruct (RetryFacts.calls_at_attempt _ _ _ _ _ _ _ _ Hat) as [_ Hcalls].
  rewrite RetryFacts.calls_app, Hcalls. reflexivity.
Qed.

(** What [attempt_request] makes of a 2xx response with a JSON body. *)
Lemma attempt_request_validates {W T : Type}
    (http : Request T -> W -> (JsError + Response T) * W)
    (parseInt : string -> float) (client : ChatGPTClient) (endpoint : string)
    (options : FetchOptions T) (parse : T -> JsError + T)
    (w : W) (response : Response T) (data : T) (w1 : W) :
  parseResponse options = Some parse ->
  http (mkRequest (String.append BASE_URL endpoint) (default "GET" (method options))
          (bearer client) (deviceId client) (body options)) w
  = (inr response, w1) ->
  ok response = true ->
  json response = Some data ->
  attempt_request http parseInt client endpoint options w = (parse data, w1).
Proof.
  intros Hparse Hhttp Hok Hjson. unfold attempt_request.
  rewrite Hhttp, Hok, Hjson, Hparse. reflexivity.
Qed.

End ClientFacts.

(** C6 as stated fails: when the validator rejects the body of every
    response, [downloadConversation] (that is, [client.fetch] with
    [parseResponse]) sends the request six times before the validation error
    comes out. *)
Lemma validation_failure_counterexample :
  exists tr,
    Backup.downloadConversation Scenarios.server_ok Scenarios.half Scenarios.noHeader
      Scenarios.wrong_shape Scenarios.client "c1" tt
    = Some (Threw (Some (ZodError "Invalid input")), tt, tr)
    /\ Retry.calls tr = 6%nat.
Proof. eexists. split; [vm_compute; reflexivity | reflexivity]. Qed.

(** C6, amended.  [withRetry] does not tell a validation failure from any
    other retried error: when [parseResponse] throws a [ZodError] on every
    successfully received response, [client.fetch] re-invokes the request
    after each failure but the last, six invocations in all, and then throws
    the validation error of the last response. *)
Theorem validation_failure_is_retried {W T : Type}
    (http : Client.Request T -> W -> (JsError + Client.Response T) * W)
    (random : W -> float * W) (parseInt : string -> float)
    (client : Client.ChatGPTClient) (endpoint : string)
    (options : Client.FetchOptions T) (parse : T -> JsError + T) (w0 : W) :
  Client.accessToken client <> "" ->
  Client.parseResponse options = Some parse ->
  (forall request w, exists response data message w1,
      http request w = (inr response, w1)
      /\ Client.ok response = true
      /\ Client.json response = Some data
      /\ parse data = inl (ZodError message)) ->
  exists message w1 tr,
    Client.fetch http random parseInt client endpoint options w0
    = Some (Threw (Some (ZodError message)), w1, tr)
    /\ Retry.calls tr = 6%nat.
Proof.
  intros Htoken Hparse Hinvalid.
  destruct (ClientFacts.fetch_always_failing http random parseInt client endpoint
              options w0 Htoken) as (w & e & w1 & tr & Hreq & Hfetch & Hcalls).
  - intros w.
    destruct (Hinvalid
                (Client.mkRequest (String.append Client.BASE_URL endpoint)
                   (default "GET" (Client.method options)) (Client.bearer client)
                   (Client.deviceId client) (Client.body options)) w)
      as (response & data & message & w1 & Hhttp & Hok & Hjson & Hbad).
    exists (ZodError message), w1. split; [| reflexivity].
    rewrite (ClientFacts.attempt_request_validates _ _ _ _ _ _ _ _ _ _
               Hparse Hhttp Hok Hjson).
    rewrite Hbad. reflexivity.
  - destruct (Hinvalid
                (Client.mkRequest (String.append Client.BASE_URL endpoint)
                   (default "GET" (Client.method options)) (Client.bearer client)
                   (Client.deviceId client) (Client.body options)) w)
      as (response & data & message & w1' & Hhttp & Hok & Hjson & Hbad).
    rewrite (ClientFacts.attempt_request_validates _ _ _ _ _ _ _ _ _ _
               Hparse Hhttp Hok Hjson), Hbad in Hreq.
    injection Hreq as <- <-.
    exists message, w1', tr. split; [exact Hfetch | exact Hcalls].
Qed.

Lemma validation_failure_is_retried_witness :
  exists message w1 tr,
    Client.fetch Scenarios.server_ok Scenarios.half Scenarios.noHeader
      Scenarios.client (Client.CONVERSATION "c1")
      (Client.mkFetchOptions None None (Some Scenarios.wrong_shape) None) tt
    = Some (Threw (Some (ZodError message)), w1, tr)
    /\ Retry.calls tr = 6%nat.
Proof.
  apply (validation_failure_is_retried Scenarios.server_ok Scenarios.half
           Scenarios.noHeader Scenarios.client (Client.CONVERSATION "c1")
           (Client.mkFetchOptions None None (Some Scenarios.wrong_shape) None)
           Scenarios.wrong_shape tt).
  - discriminate.
  - reflexivity.
  - intros request w. destruct w.
    exists (Client.mkResponse 200 "OK" None (Some Scenarios.emptyDetail)),
      Scenarios.emptyDetail, "Invalid input", tt.
    repeat split.
Defined.


(** Step 2, were it reached, would keep to its budget: [fetchRaw] with
    [{ maxRetries: 1 }] requests the bytes at most twice. *)
Lemma step2_at_most_two_requests {W : Type}
    (http_raw : string -> W -> (JsError + Download.Bytes) * W)
    (random : W -> float * W) (url : string) (w : W) :
  exists c w' tr,
    Download.step2 http_raw random url w = Some (c, w', tr)
    /\ (Retry.calls tr <= 2)%nat.
Proof.
  unfold Download.step2, Client.fetchRaw.
  destruct (RetryFacts.withRetry_total (http_raw url) random Download.oneRetry w)
    as (c & w' & tr & Heq & Hcalls).
  exists c, w', tr. split; [exact Heq | exact Hcalls].
Qed.

(** * File-reference extraction *)

Module FileServiceFacts.
Import FileService.

Lemma truthy_nonempty s : truthy s = true <-> s <> "".
Proof.
  unfold truthy. destruct (String.eqb_spec s ""); cbn; split; intros; congruence.
Qed.

Lemma Map_has_In refs key : Map_has refs key = true <-> In key (List.map fst refs).
Proof.
  unfold Map_has. rewrite existsb_exists, in_map_iff. split.
  - intros (entry & Hin & Heq). apply String.eqb_eq in Heq. eauto.
  - intros (entry & Heq & Hin). exists entry. split; [exact Hin |].
    now apply String.eqb_eq.
Qed.

Lemma Map_has_get refs key : Map_has refs key = false <-> Map_get refs key = None.
Proof.
  induction refs as [|entry rest IH]; cbn; [tauto |].
  destruct (String.eqb (fst entry) key); cbn; [split; discriminate | exact IH].
Qed.

(** Under an absent key, [set] appends. *)
Lemma Map_set_fresh refs key value :
  Map_has refs key = false -> Map_set refs key value = refs ++ [(key, value)].
Proof.
  induction refs as [|entry rest IH]; cbn; [reflexivity |].
  destruct (String.eqb (fst entry) key); cbn; [discriminate |].
  intros H. now rewrite IH.
Qed.

Lemma Map_get_app refs1 refs2 key :
  Map_get (refs1 ++ refs2) key
  = match Map_get refs1 key with Some r => Some r | None => Map_get refs2 key end.
Proof.
  induction refs1 as [|entry rest IH]; cbn; [reflexivity |].
  destruct (String.eqb (fst entry) key); [reflexivity | exact IH].
Qed.

Lemma offer_cases refs ref :
  (Map_has refs (fileId ref) = true /\ offer refs ref = refs)
  \/ (Map_has refs (fileId ref) = false /\ offer refs ref = refs ++ [(fileId ref, ref)]).
Proof.
  unfold offer. destruct (Map_has refs (fileId ref)) eqn:Hhas; cbn.
  - now left.
  - right. split; [reflexivity |]. now apply Map_set_fresh.
Qed.

(** The first reference offered under an identifier stays. *)
Lemma Map_get_offer refs ref id :
  Map_get (offer refs ref) id
  = match Map_get refs id with
    | Some r => Some r
    | None => if has_id id ref then Some ref else None
    end.
Proof.
  destruct (offer_cases refs ref) as [[Hhas ->] | [Hhas ->]].
  - destruct (Map_get refs id) eqn:Hget; [reflexivity |].
    unfold has_id. destruct (String.eqb_spec (fileId ref) id) as [<- | _]; [| reflexivity].
    apply Map_has_get in Hget. congruence.
  - rewrite Map_get_app. cbn. reflexivity.
Qed.

Lemma Map_get_offers occs : forall refs id,
  Map_get (fold_left offer occs refs) id
  = match Map_get refs id with
    | Some r => Some r
    | None => find (has_id id) occs
    end.
Proof.
  induction occs as [|ref occs IH]; intros refs id; cbn.
  - now destruct (Map_get refs id).
  - rewrite IH, Map_get_offer. destruct (Map_get refs id); [reflexivity |].
    now destruct (has_id id ref).
Qed.

Lemma well_keyed_offer refs ref :
  fileId ref <> "" -> well_keyed refs -> well_keyed (offer refs ref).
Proof.
  intros Hid [Hnodup Hkeys].
  destruct (offer_cases refs ref) as [[Hhas ->] | [Hhas ->]]; [now split |].
  split.
  - rewrite map_app. cbn. apply NoDup_app. repeat split.
    + exact Hnodup.
    + intros key Hin [<- | []]%list_elem_of_In.
      apply list_elem_of_In, Map_has_In in Hin. congruence.
    + apply NoDup_singleton.
  - apply Forall_app. split; [exact Hkeys |]. constructor; [| constructor].
    cbn. now split.
Qed.

Lemma well_keyed_offers occs : forall refs,
  Forall (fun ref => fileId ref <> "") occs ->
  well_keyed refs -> well_keyed (fold_left offer occs refs).
Proof.
  induction occs as [|ref occs IH]; intros refs Hocc Hwk; cbn; [exact Hwk |].
  inversion Hocc; subst. apply IH; [assumption |]. now apply well_keyed_offer.
Qed.

Lemma well_keyed_empty : well_keyed [].
Proof. split; constructor. Qed.

(** In a well-keyed map the references of an identifier are the one stored
    under it, if any. *)
Lemma filter_values refs id :
  well_keyed refs ->
  List.filter (has_id id) (Map_values refs)
  = match Map_get refs id with Some r => [r] | None => [] end.
Proof.
  intros [Hnodup Hkeys]. induction refs as [|[key ref] rest IH]; [reflexivity |].
  inversion Hnodup as [|? ? Hnotin Hnodup']; subst.
  inversion Hkeys as [|? ? [Hkey Hne] Hkeys']; subst. cbn in Hkey, Hnotin.
  change (Map_values ((key, ref) :: rest)) with (ref :: Map_values rest).
  cbn [List.filter Map_get fst snd].
  unfold has_id at 1. rewrite Hkey.
  destruct (String.eqb_spec key id) as [-> | Hneq].
  - f_equal. rewrite IH by assumption.
    destruct (Map_get rest id) eqn:Hget; [| reflexivity].
    exfalso. apply Hnotin, list_elem_of_In, Map_has_In.
    destruct (Map_has rest id) eqn:Hhas; [reflexivity |].
    apply Map_has_get in Hhas. congruence.
  - now apply IH.
Qed.

Lemma values_fileIds refs :
  well_keyed refs -> List.map fileId (Map_values refs) = List.map fst refs.
Proof.
  intros [_ Hkeys]. unfold Map_values. rewrite List.map_map.
  induction Hkeys as [|entry rest [Hkey _] _ IH]; cbn; [reflexivity |].
  now rewrite Hkey, IH.
Qed.

(** ** The three scans insert the occurrences they read, each guarded *)

Lemma scan_part_offers refs part :
  scan_part refs part = fold_left offer (part_occurrence part) refs.
Proof.
  destruct part as [s | [ct|] [pointer|] |]; cbn; try reflexivity.
  2: now destruct (String.eqb ct "image_asset_pointer").
  destruct (String.eqb ct "image_asset_pointer"); cbn; [| reflexivity].
  destruct (truthy pointer); cbn; [| reflexivity].
  destruct (extractFileIdFromPointer pointer) as [id|]; [| reflexivity].
  unfold offer. destruct (truthy id); cbn; [| reflexivity].
  now destruct (Map_has refs id).
Qed.

Lemma scan_attachment_offers refs a :
  scan_attachment refs a = fold_left offer (attachment_occurrence a) refs.
Proof.
  unfold scan_attachment, attachment_occurrence, offer.
  destruct (att_id a) as [id|]; [| reflexivity].
  destruct (truthy id); cbn; [| reflexivity].
  now destruct (Map_has refs id).
Qed.

Lemma scan_citation_offers refs c :
  scan_citation refs c = fold_left offer (citation_occurrence c) refs.
Proof.
  unfold scan_citation, citation_occurrence, offer.
  destruct (nullish _ (cit_file_id c)) as [id|]; [| reflexivity].
  destruct (truthy id); cbn; [| reflexivity].
  now destruct (Map_has refs id).
Qed.

Lemma fold_left_offers {A : Type} (scan : RefMap -> A -> RefMap)
    (occurrence : A -> list FileReference) :
  (forall refs x, scan refs x = fold_left offer (occurrence x) refs) ->
  forall l refs, fold_left scan l refs = fold_left offer (flat_map occurrence l) refs.
Proof.
  intros Hscan. induction l as [|x l IH]; intros refs; cbn; [reflexivity |].
  now rewrite fold_left_app, IH, Hscan.
Qed.

Lemma scan_node_offers refs node :
  scan_node refs node = fold_left offer (node_occurrences node) refs.
Proof.
  unfold scan_node, node_occurrences. destruct (message node) as [msg|]; [| reflexivity].
  rewrite !fold_left_app.
  rewrite <- (fold_left_offers scan_citation _ scan_citation_offers).
  rewrite <- (fold_left_offers scan_attachment _ scan_attachment_offers).
  rewrite <- (fold_left_offers scan_part _ scan_part_offers).
  destruct (content_parts msg), (metadata msg ≫= attachments),
    (metadata msg ≫= citations); reflexivity.
Qed.

Lemma extractFileReferences_offers detail :
  extractFileReferences detail = Map_values (fold_left offer (occurrences detail) []).
Proof.
  unfold extractFileReferences, occurrences.
  now rewrite (fold_left_offers scan_node _ scan_node_offers).
Qed.

(** Every occurrence carries a non-empty identifier. *)
Lemma occurrences_nonempty detail :
  Forall (fun ref => fileId ref <> "") (occurrences detail).
Proof.
  unfold occurrences. apply List.Forall_forall. intros ref Hin.
  apply in_flat_map in Hin as (node & _ & Hin). unfold node_occurrences in Hin.
  destruct (message node) as [msg|]; [| contradiction].
  rewrite !in_app_iff, !in_flat_map in Hin.
  destruct Hin as [(part & _ & Hin) | [(a & _ & Hin) | (c & _ & Hin)]].
  - destruct part as [s | [ct|] [pointer|] |]; cbn in Hin; try contradiction.
    destruct (String.eqb ct "image_asset_pointer" && truthy pointer); [| contradiction].
    destruct (extractFileIdFromPointer pointer) as [id|]; [| contradiction].
    destruct (truthy id) eqn:Hid; [| contradiction].
    destruct Hin as [<- | []]. now apply truthy_nonempty.
  - unfold attachment_occurrence in Hin. destruct (att_id a) as [id|]; [| contradiction].
    destruct (truthy id) eqn:Hid; [| contradiction].
    destruct Hin as [<- | []]. now apply truthy_nonempty.
  - unfold citation_occurrence in Hin.
    destruct (nullish _ (cit_file_id c)) as [id|]; [| contradiction].
    destruct (truthy id) eqn:Hid; [| contradiction].
    destruct Hin as [<- | []]. now apply truthy_nonempty.
Qed.

Lemma extract_well_keyed detail :
  well_keyed (fold_left offer (occurrences detail) []).
Proof.
  apply well_keyed_offers; [apply occurrences_nonempty | apply well_keyed_empty].
Qed.

Lemma extract_distinct detail :
  NoDup (List.map fileId (extractFileReferences detail)).
Proof.
  rewrite extractFileReferences_offers.
  rewrite values_fileIds by apply extract_well_keyed. apply extract_well_keyed.
Qed.

Lemma extract_nonempty detail :
  Forall (fun ref => fileId ref <> "") (extractFileReferences detail).
Proof.
  rewrite extractFileReferences_offers.
  destruct (extract_well_keyed detail) as [_ Hkeys]. unfold Map_values.
  apply List.Forall_map. eapply List.Forall_impl; [| exact Hkeys].
  intros entry [-> Hne]. exact Hne.
Qed.

End FileServiceFacts.

(** C7.  Of a file identifier the extraction returns no reference when the
    record has no occurrence of it, and otherwise exactly one reference: the
    one built at the first occurrence in scan order, with the provenance and
    file name read there.  Every later occurrence is dropped, whatever its
    provenance or file name. *)
Theorem first_occurrence_wins (detail : ConversationDetail) (id : string) :
  List.filter (FileService.has_id id) (FileService.extractFileReferences detail)
  = match find (FileService.has_id id) (FileService.occurrences detail) with
    | Some first => [first]
    | None => []
    end.
Proof.
  rewrite FileServiceFacts.extractFileReferences_offers.
  rewrite FileServiceFacts.filter_values by apply FileServiceFacts.extract_well_keyed.
  rewrite FileServiceFacts.Map_get_offers. reflexivity.
Qed.

(** [Scenarios.threefold]: attachment, citation and image of one file give
    one reference, the attachment's. *)
Example first_occurrence_wins_threefold :
  FileService.occurrences Scenarios.threefold
  = [ FileService.mkRef "file-abc" (Some "report.pdf") FileService.attachment;
      FileService.mkRef "file-abc" (Some "Annual report") FileService.citation;
      FileService.mkRef "file-abc" None FileService.image_asset_pointer ]
  /\ FileService.extractFileReferences Scenarios.threefold
     = [ FileService.mkRef "file-abc" (Some "report.pdf") FileService.attachment ].
Proof. split; reflexivity. Qed.

(** C10.  The identifiers of the references returned are pairwise distinct
    and none is empty; an image pointer that does not start with
    [file-service://], or that is nothing but this prefix, leaves the map of
    references as it was. *)
Theorem extracted_ids_distinct_nonempty (detail : ConversationDetail) :
  NoDup (List.map FileService.fileId (FileService.extractFileReferences detail))
  /\ Forall (fun ref => FileService.fileId ref <> "")
       (FileService.extractFileReferences detail)
  /\ (forall refs content_type pointer,
        String.prefix FileService.FILE_SERVICE_PREFIX pointer = false
        \/ pointer = FileService.FILE_SERVICE_PREFIX ->
        FileService.scan_part refs (PartObject content_type (Some pointer)) = refs).
Proof.
  split; [| split].
  - apply FileServiceFacts.extract_distinct.
  - apply FileServiceFacts.extract_nonempty.
  - intros refs content_type pointer Hpointer. cbn.
    destruct content_type as [ct|]; [| reflexivity].
    destruct (String.eqb ct "image_asset_pointer"); [| reflexivity].
    destruct (FileService.truthy pointer); [| reflexivity].
    unfold FileService.extractFileIdFromPointer.
    destruct Hpointer as [-> | ->]; reflexivity.
Qed.

(** * The download loop: what every schedule preserves *)

Module PoolFacts.
Import Pool.

Section Lists.
Context {Item Task : Type}.
Implicit Types (l : list (nat * (Item * Task))) (p : nat) (f : Task -> bool).

Lemma length_replace p w l : length (replace p w l) = length l.
Proof.
  induction l as [|[q w0] rest IH]; cbn; [reflexivity |].
  destruct (Nat.eqb q p); cbn; [reflexivity | now rewrite IH].
Qed.

Lemma promises_replace p w l : List.map fst (replace p w l) = List.map fst l.
Proof.
  induction l as [|[q w0] rest IH]; cbn; [reflexivity |].
  destruct (Nat.eqb q p); cbn; [reflexivity | now rewrite IH].
Qed.

Lemma length_delete p l : (length (delete p l) <= length l)%nat.
Proof. apply List.filter_length_le. Qed.

Lemma promises_delete p l :
  List.map fst (delete p l) = List.filter (fun q => negb (Nat.eqb q p)) (List.map fst l).
Proof.
  unfold delete. induction l as [|[q w0] rest IH]; cbn; [reflexivity |].
  destruct (Nat.eqb q p); cbn; [exact IH | now rewrite IH].
Qed.

Lemma lookup_In p l w : lookup p l = Some w -> In (p, w) l.
Proof.
  induction l as [|[q w0] rest IH]; cbn; [discriminate |].
  destruct (Nat.eqb_spec q p) as [-> | _].
  - intros [= ->]. now left.
  - intros H. right. now apply IH.
Qed.

Lemma lookup_None p l : ~ In p (List.map fst l) -> lookup p l = None.
Proof.
  induction l as [|[q w0] rest IH]; cbn; [reflexivity |].
  intros Hnotin. destruct (Nat.eqb_spec q p) as [-> | _]; [tauto |].
  apply IH. tauto.
Qed.

(** [replace] changes the entry [lookup] finds, so the count moves by the
    difference between the old task and the new. *)
Lemma count_replace f p item t t' l :
  lookup p l = Some (item, t) ->
  (count f (replace p (item, t') l) + (if f t then 1 else 0)
   = count f l + (if f t' then 1 else 0))%nat.
Proof.
  unfold count. induction l as [|[q [item0 t0]] rest IH]; cbn; [discriminate |].
  destruct (Nat.eqb q p); cbn.
  - intros [= -> ->]. destruct (f t), (f t'); cbn; lia.
  - intros H. specialize (IH H). destruct (f t0); cbn; lia.
Qed.

Lemma delete_absent p l : ~ In p (List.map fst l) -> delete p l = l.
Proof.
  unfold delete. induction l as [|[q w0] rest IH]; cbn; [reflexivity |].
  intros Hnotin. destruct (Nat.eqb_spec q p) as [-> | _]; [tauto |].
  cbn. f_equal. apply IH. tauto.
Qed.

(** With distinct promises, [delete] removes the entry [lookup] finds and
    nothing else. *)
Lemma count_delete f p item t l :
  NoDup (List.map fst l) ->
  lookup p l = Some (item, t) ->
  (count f (delete p l) + (if f t then 1 else 0) = count f l)%nat.
Proof.
  induction l as [|[q [item0 t0]] rest IH]; [discriminate |].
  intros Hnodup. inversion Hnodup as [|? ? Hnotin Hnodup']; subst.
  cbn [lookup]. unfold delete, count in *. cbn [List.filter fst snd].
  destruct (Nat.eqb_spec q p) as [-> | Hne]; cbn [negb].
  - intros [= -> ->]. change (List.filter _ rest) with (delete p rest) at 1.
    rewrite (delete_absent p rest) by (intros Hin; apply Hnotin, list_elem_of_In, Hin).
    destruct (f t); cbn; lia.
  - intros H. specialize (IH Hnodup' H). cbn [List.filter fst snd].
    destruct (f t0); cbn [length]; lia.
Qed.

Lemma Forall_replace (P : nat * (Item * Task) -> Prop) p w l :
  (forall w0, In (p, w0) l -> P (p, w0) -> P (p, w)) ->
  Forall P l -> Forall P (replace p w l).
Proof.
  intros Hp. induction l as [|[q w0] rest IH]; cbn; [constructor |].
  intros Hall. inversion Hall as [|? ? Hhead Htail]; subst.
  destruct (Nat.eqb_spec q p) as [-> | _].
  - constructor; [| exact Htail]. apply (Hp w0); [now left | exact Hhead].
  - constructor; [exact Hhead |]. apply IH; [| exact Htail].
    intros w1 Hin. apply Hp. now right.
Qed.

Lemma Forall_delete (P : nat * (Item * Task) -> Prop) p l :
  Forall P l -> Forall P (delete p l).
Proof.
  intros Hall. apply List.Forall_forall. intros entry Hin.
  unfold delete in Hin. apply List.filter_In in Hin as [Hin _].
  rewrite List.Forall_forall in Hall. now apply Hall.
Qed.

End Lists.

Section Invariants.
Context {Item Task Answer Shared : Type}.
Variable start : Item -> Task.
Variable resume : Item -> Task -> Answer -> Shared -> option (Task * Shared).
Variable settled : Task -> Settled.
Variable concurrency delay : Z.

Abbreviation State := (@State Item Task Shared).
Abbreviation step := (step start resume settled concurrency delay).
Abbreviation play := (play start resume settled concurrency delay).
Abbreviation transition := (transition start resume settled concurrency).

(** Every enabled action is one of the five transitions. *)
Lemma step_transition act (st st' : State) :
  step act st = Some st' -> transition st st'.
Proof.
  destruct act as [| | p a | p | p]; cbn.
  - unfold main. destruct (pc st) eqn:Hpc; try discriminate.
    + destruct (queue st) as [|item rest] eqn:Hq; cbn.
      * destruct (inProgress st) as [|entry l] eqn:Hl; unfold size; rewrite Hl; cbn.
        -- intros [= <-]. now apply t_exit.
        -- intros [= <-]. now apply t_pc.
      * intros [= <-]. now apply t_pc.
    + destruct (queue st) as [|item rest] eqn:Hq.
      * destruct (0 <? size st)%nat; intros [= <-]; now apply t_pc.
      * destruct (Z.of_nat (size st) <? concurrency) eqn:Hlt.
        -- intros [= <-]. apply t_launch; [exact Hq | now apply Z.ltb_lt |].
           now destruct (nonempty rest && (0 <? delay)).
        -- destruct (0 <? size st)%nat; intros [= <-]; now apply t_pc.
  - destruct (pc st); try discriminate. intros [= <-]. now apply t_pc.
  - destruct (suspended (pc st)); [| discriminate].
    destruct (lookup p (inProgress st)) as [[item task]|] eqn:Hlookup; [| discriminate].
    destruct (settled task) eqn:Hsettled; try discriminate.
    destruct (resume item task a (shared st)) as [[task' shared']|] eqn:Hresume;
      [| discriminate].
    intros [= <-]. now apply (t_resume _ _ _ _ _ p item task a task' shared').
  - destruct (suspended (pc st)); [| discriminate].
    destruct (lookup p (inProgress st)) as [[item task]|] eqn:Hlookup; [| discriminate].
    destruct (settled task) eqn:Hsettled; try discriminate.
    intros [= <-]. now apply (t_then _ _ _ _ _ p item task).
  - destruct (pc st); try discriminate.
    destruct (existsb (Nat.eqb p) snapshot); [| discriminate].
    destruct (lookup p (inProgress st)) as [[item task]|].
    + destruct (settled task); try discriminate. intros [= <-]. now apply t_pc.
    + intros [= <-]. now apply t_pc.
Qed.

(** What holds when the loop is entered and is kept by every transition
    holds in every state a schedule leads to. *)
Lemma play_invariant (Inv : State -> Prop) :
  (forall st st', Inv st -> transition st st' -> Inv st') ->
  forall acts st st', Inv st -> play acts st = Some st' -> Inv st'.
Proof.
  intros Hstep. induction acts as [|act acts IH]; intros st st' Hinv; cbn.
  - intros [= <-]. exact Hinv.
  - destruct (Pool.step start resume settled concurrency delay act st) as [st1|] eqn:Hst;
      [| discriminate].
    apply IH. apply (Hstep st); [exact Hinv |]. now apply step_transition in Hst.
Qed.

(** ** The concurrency bound *)

Abbreviation bounded := (bounded concurrency).

Lemma bounded_transition (st st' : State) :
  bounded st -> transition st st' -> bounded st'.
Proof.
  unfold Pool.bounded, size. intros Hb Ht.
  destruct Ht as [Hpc Hq Hl | pc' _ | item rest pc' Hq Hlt _
                  | p item task a task' shared' Hlookup Hsettled Hresume
                  | p item task Hlookup Hsettled]; cbn.
  - exact Hb.
  - exact Hb.
  - rewrite length_app. cbn. unfold size in Hlt. lia.
  - now rewrite length_replace.
  - pose proof (length_delete p (inProgress st)). lia.
Qed.

(** ** Promises are distinct *)

Lemma distinct_transition (st st' : State) :
  distinct st -> transition st st' -> distinct st'.
Proof.
  unfold distinct, promises. intros [Hnodup Hfresh] Ht.
  destruct Ht as [Hpc Hq Hl | pc' _ | item rest pc' Hq Hlt _
                  | p item task a task' shared' Hlookup Hsettled Hresume
                  | p item task Hlookup Hsettled]; cbn.
  - now split.
  - now split.
  - rewrite map_app. cbn. split.
    + apply NoDup_app. repeat split; [exact Hnodup | | apply NoDup_singleton].
      intros q Hin Hq'. apply list_elem_of_In in Hq'. destruct Hq' as [Heq | []].
      subst q. apply list_elem_of_In in Hin.
      rewrite List.Forall_forall in Hfresh. specialize (Hfresh _ Hin). lia.
    + apply Forall_app. split.
      * eapply List.Forall_impl; [| exact Hfresh]. cbn. intros q Hq'. lia.
      * constructor; [lia | constructor].
  - rewrite promises_replace. now split.
  - rewrite promises_delete. split.
    + apply NoDup_ListNoDup, List.NoDup_filter, NoDup_ListNoDup, Hnodup.
    + apply List.Forall_forall. intros q Hin. apply List.filter_In in Hin as [Hin _].
      rewrite List.Forall_forall in Hfresh. now apply Hfresh.
Qed.

(** ** Every item is started once, in queue order *)

Lemma conserved_transition items (st st' : State) :
  conserved items st -> transition st st' -> conserved items st'.
Proof.
  unfold conserved. intros [Hitems Hin] Ht.
  destruct Ht as [Hpc Hq Hl | pc' _ | item rest pc' Hq Hlt _
                  | p item task a task' shared' Hlookup Hsettled Hresume
                  | p item task Hlookup Hsettled]; cbn.
  - now split.
  - now split.
  - split.
    + rewrite <- Hitems, Hq, <- app_assoc. reflexivity.
    + apply Forall_app. split.
      * eapply List.Forall_impl; [| exact Hin]. cbn. intros entry He.
        apply in_or_app. now left.
      * constructor; [| constructor]. cbn. apply in_or_app. right. now left.
  - split; [exact Hitems |].
    apply Forall_replace; [| exact Hin]. cbn. intros w0 Hw0 _.
    apply lookup_In in Hlookup. rewrite List.Forall_forall in Hin.
    apply (Hin _ Hlookup).
  - split; [exact Hitems | now apply Forall_delete].
Qed.

(** ** The loop leaves only with nothing queued and nothing in flight *)

Lemma drained_transition (st st' : State) :
  drained st -> transition st st' -> drained st'.
Proof.
  unfold drained. intros Hd Ht.
  destruct Ht as [Hpc Hq Hl | pc' Hne | item rest pc' Hq Hlt Hne
                  | p item task a task' shared' Hlookup Hsettled Hresume
                  | p item task Hlookup Hsettled]; cbn.
  - intros _. now split.
  - intros Hpc. contradiction.
  - intros Hpc. contradiction.
  - intros Hpc. destruct (Hd Hpc) as [_ Hl]. rewrite Hl in Hlookup. discriminate.
  - intros Hpc. destruct (Hd Hpc) as [_ Hl]. rewrite Hl in Hlookup. discriminate.
Qed.

(** ** What the workers keep true of the shared variables *)

Lemma shared_transition items (J : Shared -> Prop) (st st' : State) :
  (forall item task a sh task' sh',
      In item items -> J sh -> resume item task a sh = Some (task', sh') -> J sh') ->
  conserved items st ->
  J (shared st) -> transition st st' -> J (shared st').
Proof.
  intros Hresume [Hitems Hin] Hj Ht.
  destruct Ht as [Hpc Hq Hl | pc' _ | item rest pc' Hq Hlt _
                  | p item task a task' shared' Hlookup Hsettled Hres
                  | p item task Hlookup Hsettled]; cbn; try exact Hj.
  apply (Hresume item task a (shared st) task' shared'); [| exact Hj | exact Hres].
  apply lookup_In in Hlookup. rewrite List.Forall_forall in Hin.
  specialize (Hin _ Hlookup). cbn in Hin. rewrite <- Hitems.
  apply in_or_app. now left.
Qed.

(** ** Accounting

    [tally] reads a count off the shared variables, [counted] tells whether
    a worker has added its item to it.  When every worker adds exactly one,
    the tally, the workers still to add and the queue make up the batch. *)

Variable tally : Shared -> nat.
Variable counted : Task -> bool.
Variable sound : Task -> Prop.

Abbreviation accounted := (accounted tally counted sound).

Hypothesis start_uncounted : forall item, counted (start item) = false /\ sound (start item).
Hypothesis resume_counts : forall item task a sh task' sh',
  sound task ->
  settled task = Pending ->
  resume item task a sh = Some (task', sh') ->
  sound task'
  /\ (tally sh' + (if counted task' then 0 else 1)
      = tally sh + (if counted task then 0 else 1))%nat.
Hypothesis settled_counted : forall task,
  sound task -> settled task = Fulfilled -> counted task = true.

Lemma accounted_transition n (st st' : State) :
  distinct st -> accounted n st -> transition st st' -> accounted n st'.
Proof.
  unfold Pool.accounted, in_flight. intros [Hnodup _] [Hsum Hsound] Ht.
  destruct Ht as [Hpc Hq Hl | pc' _ | item rest pc' Hq Hlt _
                  | p item task a task' shared' Hlookup Hsettled Hres
                  | p item task Hlookup Hsettled]; cbn.
  - now split.
  - now split.
  - destruct (start_uncounted item) as [Hc Hs]. split.
    + unfold count in *. rewrite List.filter_app, length_app. cbn. rewrite Hc. cbn.
      rewrite Hq in Hsum. cbn in Hsum. lia.
    + apply Forall_app. split; [exact Hsound |]. constructor; [exact Hs | constructor].
  - assert (sound task) as Hs.
    { apply lookup_In in Hlookup. rewrite List.Forall_forall in Hsound.
      apply (Hsound _ Hlookup). }
    destruct (resume_counts _ _ _ _ _ _ Hs Hsettled Hres) as [Hs' Heq]. split.
    + pose proof (count_replace (fun t => negb (counted t)) p item task task'
                    (inProgress st) Hlookup) as Hcount.
      unfold count in *. cbn beta in Hcount.
      destruct (counted task), (counted task'); cbn in Hcount, Heq; lia.
    + apply Forall_replace; [| exact Hsound]. intros; exact Hs'.
  - assert (sound task) as Hs.
    { apply lookup_In in Hlookup. rewrite List.Forall_forall in Hsound.
      apply (Hsound _ Hlookup). }
    split.
    + pose proof (count_delete (fun t => negb (counted t)) p item task
                    (inProgress st) Hnodup Hlookup) as Hcount.
      unfold count in *. cbn beta in Hcount.
      rewrite (settled_counted task Hs Hsettled) in Hcount. cbn in Hcount. lia.
    + now apply Forall_delete.
Qed.

(** With such workers, every state of a run accounts for the whole batch. *)
Lemma reachable_accounted items sh (st : State) :
  reachable start resume settled concurrency delay items sh st ->
  accounted (tally sh + length items)%nat st.
Proof.
  intros [acts Hplay].
  apply (play_invariant (fun st => distinct st /\ accounted (tally sh + length items)%nat st))
    with (acts := acts) (st := enter items sh); [| | exact Hplay].
  - intros st1 st2 [Hd Ha] Ht. split.
    + now apply (distinct_transition st1).
    + now apply (accounted_transition _ st1).
  - split; [split; constructor |]. split; [cbn; lia | constructor].
Qed.

End Invariants.

Section Reachable.
Context {Item Task Answer Shared : Type}.
Variable start : Item -> Task.
Variable resume : Item -> Task -> Answer -> Shared -> option (Task * Shared).
Variable settled : Task -> Settled.
Variable concurrency delay : Z.

(** The invariants that ask nothing of the workers. *)
Lemma reachable_invariants items sh (st : @State Item Task Shared) :
  reachable start resume settled concurrency delay items sh st ->
  bounded concurrency st /\ distinct st /\ conserved items st /\ drained st.
Proof.
  intros [acts Hplay].
  apply (play_invariant start resume settled concurrency delay
           (fun st => bounded concurrency st /\ distinct st
                      /\ conserved items st /\ drained st))
    with (acts := acts) (st := enter items sh); [| | exact Hplay].
  - intros st1 st2 (Hb & Hd & Hc & He) Ht. repeat split.
    + now apply (bounded_transition start resume settled concurrency st1).
    + now apply (distinct_transition start resume settled concurrency st1).
    + now apply (distinct_transition start resume settled concurrency st1).
    + now apply (conserved_transition start resume settled concurrency items st1).
    + now apply (conserved_transition start resume settled concurrency items st1).
    + now apply (drained_transition start resume settled concurrency st1).
    + now apply (drained_transition start resume settled concurrency st1).
  - repeat split; try constructor; try discriminate.
    unfold bounded, size. cbn. lia.
Qed.

(** A property of the shared variables that every worker keeps holds
    throughout a run. *)
Lemma reachable_shared items sh (J : Shared -> Prop) (st : @State Item Task Shared) :
  (forall item task a sh1 task' sh2,
      In item items -> J sh1 -> resume item task a sh1 = Some (task', sh2) -> J sh2) ->
  J sh ->
  reachable start resume settled concurrency delay items sh st ->
  J (shared st).
Proof.
  intros Hresume Hj [acts Hplay].
  apply (play_invariant start resume settled concurrency delay
           (fun st => conserved items st /\ J (shared st)))
    with (acts := acts) (st := enter items sh); [| | exact Hplay].
  - intros st1 st2 [Hc Hj1] Ht. split.
    + now apply (conserved_transition start resume settled concurrency items st1).
    + now apply (shared_transition start resume settled concurrency items J st1).
  - split; [split; [reflexivity | constructor] | exact Hj].
Qed.

(** Once the loop is left, every item of the batch has been started, in
    order, and no worker is in flight. *)
Lemma exited_all_started items sh (st : @State Item Task Shared) :
  reachable start resume settled concurrency delay items sh st ->
  pc st = Exited ->
  started st = items /\ inProgress st = [].
Proof.
  intros Hreach Hpc. destruct (reachable_invariants items sh st Hreach)
    as (_ & _ & [Hitems _] & Hdrained).
  destruct (Hdrained Hpc) as [Hq Hl]. rewrite Hq, app_nil_r in Hitems. now split.
Qed.

End Reachable.

End PoolFacts.

(** * File materialization *)

Module DownloadFacts.
Import FileService Download.

(** Case analysis on what a worker made of an answer. *)
Ltac crack H :=
  repeat (cbn in H;
          match type of H with
          | context [match ?x with _ => _ end] => destruct x
          end);
  try discriminate.

Lemma resume_counts verbose total ref t a v t' v' :
  settled t = Pool.Pending ->
  processOne_resume verbose total ref t a v = Some (t', v') ->
  (tally v' + (if counted t' then 0 else 1)
   = tally v + (if counted t then 0 else 1))%nat.
Proof.
  intros _ H. unfold tally.
  destruct t, a; crack H; injection H as <- <-; cbn; lia.
Qed.

(** Every state of a run accounts for the whole batch. *)
Lemma run_accounted allRefs options st :
  reachable allRefs options st ->
  Pool.accounted tally counted (fun _ => True)
    (length (batch allRefs (skipFileIds options))) st.
Proof.
  intros Hreach.
  apply (PoolFacts.reachable_accounted processOne_start
           (processOne_resume (verbose options)
              (length (batch allRefs (skipFileIds options))))
           settled (concurrency options) (delay options) tally counted (fun _ => True))
    in Hreach.
  - exact Hreach.
  - intros item. now split.
  - intros item task a sh task' sh' _ Hpending Hres. split; [exact I |].
    now apply (resume_counts _ _ _ _ _ _ _ _ Hpending Hres).
  - intros task _. now destruct task.
Qed.

(** The identifiers recorded as failed are identifiers of the batch. *)
Lemma failed_in_batch allRefs options st :
  reachable allRefs options st ->
  Forall (fun id => In id (List.map fileId (batch allRefs (skipFileIds options))))
    (failedFileIds (Pool.shared st)).
Proof.
  intros Hreach.
  apply (PoolFacts.reachable_shared processOne_start
           (processOne_resume (verbose options)
              (length (batch allRefs (skipFileIds options))))
           settled (concurrency options) (delay options)
           (batch allRefs (skipFileIds options)) (mkVars 0 0 0 0 [] [])
           (fun v => Forall
                       (fun id => In id (List.map fileId
                                           (batch allRefs (skipFileIds options))))
                       (failedFileIds v)) st);
    [| constructor | exact Hreach].
  intros ref t a v t' v' Hin Hj H.
  assert (Forall (fun id => In id (List.map fileId (batch allRefs (skipFileIds options))))
            (failedFileIds v ++ [fileId ref])) as Hpush.
  { apply Forall_app. split; [exact Hj |]. constructor; [| constructor].
    now apply in_map. }
  destruct t, a; crack H; injection H as <- <-; cbn; assumption.
Qed.

(** No reference of the batch carries a previously failed identifier. *)
Lemma batch_excludes allRefs (skip : gset string) id :
  id ∈ skip -> ~ In id (List.map fileId (batch allRefs (Some skip))).
Proof.
  intros Hid Hin. unfold batch in Hin.
  destruct (0 <? size skip)%nat eqn:Hsize.
  - apply in_map_iff in Hin as (ref & <- & Hin).
    apply List.filter_In in Hin as [_ Hkeep].
    apply negb_true_iff, bool_decide_eq_false in Hkeep. contradiction.
  - apply Nat.ltb_ge in Hsize. assert (size skip = 0%nat) as Hzero by lia.
    apply size_empty_inv in Hzero. set_solver.
Qed.

Lemma length_filter_negb {A : Type} (f : A -> bool) (l : list A) :
  (length (List.filter (fun x => negb (f x)) l) + length (List.filter f l)
   = length l)%nat.
Proof.
  induction l as [|x l IH]; cbn; [reflexivity |].
  destruct (f x); cbn; lia.
Qed.

(** The batch is what the memory leaves of the references. *)
Lemma length_batch allRefs (skip : gset string) :
  (length (batch allRefs (Some skip)) + Cli.skippedKnown allRefs skip
   = length allRefs)%nat.
Proof.
  unfold batch, Cli.skippedKnown. destruct (0 <? size skip)%nat; [| lia].
  apply (length_filter_negb (Cli.previously_failed skip)).
Qed.

(** Among references with distinct identifiers, each identifier present is
    carried by one. *)
Lemma one_per_id (refs : list FileReference) id :
  NoDup (List.map fileId refs) ->
  In id (List.map fileId refs) ->
  length (List.filter (has_id id) refs) = 1%nat.
Proof.
  induction refs as [|ref refs IH]; cbn; [contradiction |].
  intros Hnodup Hin. inversion Hnodup as [|? ? Hnotin Hnodup']; subst.
  unfold has_id at 1. destruct (String.eqb_spec (fileId ref) id) as [Heq | Hne].
  - cbn. f_equal. subst id.
    assert (List.filter (has_id (fileId ref)) refs = []) as ->; [| reflexivity].
    destruct (List.filter (has_id (fileId ref)) refs) as [|r rest] eqn:Hf; [reflexivity |].
    exfalso. assert (In r (List.filter (has_id (fileId ref)) refs)) as Hr
      by (rewrite Hf; now left).
    apply List.filter_In in Hr as [Hr Heq]. apply String.eqb_eq in Heq.
    apply Hnotin, list_elem_of_In. rewrite <- Heq. now apply in_map.
  - destruct Hin as [Heq | Hin]; [contradiction |]. now apply IH.
Qed.

Lemma filter_previously_failed (skip : gset string) refs id :
  id ∈ skip ->
  List.filter (has_id id) (List.filter (Cli.previously_failed skip) refs)
  = List.filter (has_id id) refs.
Proof.
  intros Hid. induction refs as [|ref refs IH]; cbn; [reflexivity |].
  unfold Cli.previously_failed at 1, has_id at 2.
  destruct (String.eqb_spec (fileId ref) id) as [Heq | Hne].
  - rewrite bool_decide_eq_true_2 by (rewrite Heq; exact Hid).
    cbn. unfold has_id at 1. rewrite Heq, String.eqb_refl. now rewrite IH.
  - destruct (bool_decide (fileId ref ∈ skip)); cbn; [| exact IH].
    unfold has_id at 1. destruct (String.eqb_spec (fileId ref) id); [contradiction |].
    exact IH.
Qed.

(** The scan of the stored conversations yields distinct identifiers. *)
Lemma scan_well_keyed files : forall refs,
  well_keyed refs -> well_keyed (fold_left scan_file files refs).
Proof.
  induction files as [|[detail|] files IH]; intros refs Hwk; cbn; [exact Hwk | |].
  - apply IH. apply (FileServiceFacts.well_keyed_offers _ refs); [| exact Hwk].
    apply FileServiceFacts.extract_nonempty.
  - now apply IH.
Qed.

Lemma scanAllConversations_distinct files :
  NoDup (List.map fileId (scanAllConversations files)).
Proof.
  unfold scanAllConversations.
  pose proof (scan_well_keyed files [] FileServiceFacts.well_keyed_empty) as Hwk.
  rewrite FileServiceFacts.values_fileIds by exact Hwk. apply Hwk.
Qed.

End DownloadFacts.

(** The run of [Scenarios.fileSchedule]. *)
Example file_run_of_schedule :
  FileService.scanAllConversations Scenarios.stored
  = [ FileService.mkRef "file-img" None FileService.image_asset_pointer;
      FileService.mkRef "file-abc" (Some "a.pdf") FileService.attachment;
      FileService.mkRef "file-xyz" (Some "x.pdf") FileService.attachment;
      FileService.mkRef "file-uvw" None FileService.attachment ]
  /\ Download.downloadFiles (FileService.scanAllConversations Scenarios.stored)
       Scenarios.fileOptions
       (Download.mkResult 1 1 1 3 ["file-xyz"]).
Proof.
  split; [reflexivity |].
  eexists. split; [exists Scenarios.fileSchedule; vm_compute; reflexivity |].
  split; reflexivity.
Qed.

(** X1.  Every result of [downloadFiles] accounts for its whole batch:
    [total] is the sum of the three counters. *)
Theorem file_run_accounts_for_batch (allRefs : list FileService.FileReference)
    (options : Download.FileDownloadOptions) (r : Download.FileDownloadResult) :
  Download.downloadFiles allRefs options r ->
  Download.res_total r
  = (Download.res_downloaded r + Download.res_skipped r + Download.res_failed r)%nat.
Proof.
  intros (st & Hreach & Hpc & ->).
  destruct (DownloadFacts.run_accounted allRefs options st Hreach) as [Hsum _].
  destruct (PoolFacts.exited_all_started _ _ _ _ _ _ _ _ Hreach Hpc) as [_ Hl].
  destruct (PoolFacts.reachable_invariants _ _ _ _ _ _ _ _ Hreach)
    as (_ & _ & _ & Hdrained).
  destruct (Hdrained Hpc) as [Hq _].
  unfold Pool.in_flight in Hsum. rewrite Hl, Hq in Hsum. cbn in Hsum.
  unfold Download.tally in Hsum. cbn. lia.
Qed.

Lemma file_run_accounts_for_batch_witness :
  Download.res_total (Download.mkResult 1 1 1 3 ["file-xyz"])
  = (Download.res_downloaded (Download.mkResult 1 1 1 3 ["file-xyz"])
     + Download.res_skipped (Download.mkResult 1 1 1 3 ["file-xyz"])
     + Download.res_failed (Download.mkResult 1 1 1 3 ["file-xyz"]))%nat.
Proof.
  apply (file_run_accounts_for_batch
           (FileService.scanAllConversations Scenarios.stored) Scenarios.fileOptions).
  eexists. split; [exists Scenarios.fileSchedule; vm_compute; reflexivity |].
  split; reflexivity.
Defined.

(** C8.  A file identifier of the persisted memory is kept out of the run:
    no state of [downloadFiles] has it queued, started (so neither the skip
    check nor a network call is made for it) or recorded as failed; if the
    scan found it, exactly one of the references that [skippedKnown] counts
    carries it; and a result of the run counts it nowhere: [total] and
    [skippedKnown] add up to the references found, [total] is the sum of
    [downloaded], [skipped] and [failed], and [failedFileIds] is without it. *)
Theorem previously_failed_file_excluded
    (files : list (option ConversationDetail)) (persisted : option (list string))
    (concurrency delay : Z) (verbose : bool) (id : string) :
  let refs := FileService.scanAllConversations files in
  let skipFileIds := Cli.loadFailedFiles persisted in
  let options := Cli.downloadOptions concurrency delay verbose skipFileIds in
  id ∈ skipFileIds ->
  (forall st, Download.reachable refs options st ->
     ~ In id (List.map FileService.fileId (Pool.queue st))
     /\ ~ In id (List.map FileService.fileId (Pool.started st))
     /\ ~ In id (Download.failedFileIds (Pool.shared st)))
  /\ (In id (List.map FileService.fileId refs) ->
      length (List.filter (FileService.has_id id)
                (List.filter (Cli.previously_failed skipFileIds) refs)) = 1%nat
      /\ Cli.skippedKnown refs skipFileIds
         = length (List.filter (Cli.previously_failed skipFileIds) refs))
  /\ (forall r, Download.downloadFiles refs options r ->
      (Download.res_total r + Cli.skippedKnown refs skipFileIds = length refs)%nat
      /\ Download.res_total r
         = (Download.res_downloaded r + Download.res_skipped r
            + Download.res_failed r)%nat
      /\ ~ In id (Download.res_failedFileIds r)).
Proof.
  intros refs skipFileIds options Hid.
  assert (forall st, Download.reachable refs options st ->
            ~ In id (Download.failedFileIds (Pool.shared st))) as Hfailed.
  { intros st Hreach Hin.
    pose proof (DownloadFacts.failed_in_batch refs options st Hreach) as Hall.
    rewrite List.Forall_forall in Hall.
    apply (DownloadFacts.batch_excludes refs skipFileIds id Hid), (Hall _ Hin). }
  split; [| split].
  - intros st Hreach.
    destruct (PoolFacts.reachable_invariants _ _ _ _ _ _ _ _ Hreach)
      as (_ & _ & [Hitems _] & _).
    pose proof (DownloadFacts.batch_excludes refs skipFileIds id Hid) as Hout.
    change (Download.skipFileIds options) with (Some skipFileIds) in Hitems.
    rewrite <- Hitems, map_app, in_app_iff in Hout.
    repeat split; [tauto | tauto | now apply Hfailed].
  - intros Hfound. split.
    + rewrite DownloadFacts.filter_previously_failed by exact Hid.
      apply DownloadFacts.one_per_id; [| exact Hfound].
      apply DownloadFacts.scanAllConversations_distinct.
    + unfold Cli.skippedKnown.
      destruct (0 <? size skipFileIds)%nat eqn:Hsize; [reflexivity |].
      apply Nat.ltb_ge in Hsize. assert (size skipFileIds = 0%nat) as Hzero by lia.
      apply size_empty_inv in Hzero. set_solver.
  - intros r Hr. split; [| split].
    + destruct Hr as (st & _ & _ & ->). cbn.
      apply DownloadFacts.length_batch.
    + destruct Hr as (st & Hreach & Hpc & ->).
      destruct (DownloadFacts.run_accounted refs options st Hreach) as [Hsum _].
      destruct (PoolFacts.reachable_invariants _ _ _ _ _ _ _ _ Hreach)
        as (_ & _ & _ & Hdrained).
      destruct (Hdrained Hpc) as [Hq Hl].
      unfold Pool.in_flight in Hsum. rewrite Hl, Hq in Hsum. cbn in Hsum.
      unfold Download.tally in Hsum. cbn. cbn in Hsum. lia.
    + destruct Hr as (st & Hreach & _ & ->). cbn. now apply Hfailed.
Qed.

(** [file-abc], remembered as failed, in the run of [Scenarios.stored]. *)
Lemma previously_failed_file_excluded_witness :
  (forall st,
     Download.reachable (FileService.scanAllConversations Scenarios.stored)
       Scenarios.fileOptions st ->
     ~ In "file-abc" (List.map FileService.fileId (Pool.queue st))
     /\ ~ In "file-abc" (List.map FileService.fileId (Pool.started st))
     /\ ~ In "file-abc" (Download.failedFileIds (Pool.shared st)))
  /\ (In "file-abc"
        (List.map FileService.fileId (FileService.scanAllConversations Scenarios.stored)) ->
      length (List.filter (FileService.has_id "file-abc")
                (List.filter
                   (Cli.previously_failed (Cli.loadFailedFiles Scenarios.memory))
                   (FileService.scanAllConversations Scenarios.stored))) = 1%nat
      /\ Cli.skippedKnown (FileService.scanAllConversations Scenarios.stored)
           (Cli.loadFailedFiles Scenarios.memory)
         = length (List.filter
                     (Cli.previously_failed (Cli.loadFailedFiles Scenarios.memory))
                     (FileService.scanAllConversations Scenarios.stored)))
  /\ (forall r,
      Download.downloadFiles (FileService.scanAllConversations Scenarios.stored)
        Scenarios.fileOptions r ->
      (Download.res_total r
       + Cli.skippedKnown (FileService.scanAllConversations Scenarios.stored)
           (Cli.loadFailedFiles Scenarios.memory)
       = length (FileService.scanAllConversations Scenarios.stored))%nat
      /\ Download.res_total r
         = (Download.res_downloaded r + Download.res_skipped r
            + Download.res_failed r)%nat
      /\ ~ In "file-abc" (Download.res_failedFileIds r)).
Proof.
  apply (previously_failed_file_excluded Scenarios.stored Scenarios.memory
           2 500 false "file-abc").
  apply elem_of_list_to_set. left.
Defined.

(** * Backup engine *)

Module BackupFacts.
Import Backup.

Section Diff.
Variable Date_getTime : string -> float.
Variable storage : Storage.
Variable options : BackupOptions.
Variable total : nat.

(** Is the conversation skipped by the loop over the listing? *)
Abbreviation skips := (fun conv => incremental options && unchanged Date_getTime storage conv).

Lemma diff_fold conversations : forall v toDownload,
  let r := fold_left (diff_step Date_getTime storage options total) conversations
             (v, toDownload) in
  snd r = toDownload ++ List.filter (fun conv => negb (skips conv)) conversations
  /\ skipped (fst r) = (skipped v + length (List.filter skips conversations))%nat
  /\ downloaded (fst r) = downloaded v
  /\ failed (fst r) = failed v.
Proof.
  induction conversations as [|conv rest IH]; intros v toDownload; cbn zeta.
  - cbn. rewrite app_nil_r. repeat split; lia.
  - cbn [fold_left List.filter].
    change (diff_step Date_getTime storage options total (v, toDownload) conv)
      with (if skips conv
            then (mkVars (downloaded v) (S (skipped v)) (failed v) (S (completed v))
                    (errors v)
                    (notices v ++ [OnDownloadProgress (S (completed v)) total (current conv)]),
                  toDownload)
            else (v, toDownload ++ [conv])).
    destruct (incremental options && unchanged Date_getTime storage conv); cbn [negb].
    + destruct (IH (mkVars (downloaded v) (S (skipped v)) (failed v) (S (completed v))
                      (errors v)
                      (notices v ++ [OnDownloadProgress (S (completed v)) total (current conv)]))
                  toDownload) as (Hsnd & Hsk & Hd & Hf).
      cbn zeta in Hsnd, Hsk, Hd, Hf. rewrite Hsnd, Hsk, Hd, Hf. cbn. repeat split; lia.
    + destruct (IH v (toDownload ++ [conv])) as (Hsnd & Hsk & Hd & Hf).
      cbn zeta in Hsnd, Hsk, Hd, Hf. rewrite Hsnd, Hsk, Hd, Hf, <- app_assoc.
      repeat split.
Qed.

End Diff.

Section Run.
Variable Date_getTime : string -> float.
Variable storage : Storage.
Variable options : BackupOptions.
Variable conversations : list ConversationItem.

Abbreviation skips := (fun conv => incremental options && unchanged Date_getTime storage conv).

Lemma diff_spec :
  snd (diff Date_getTime storage options conversations)
  = List.filter (fun conv => negb (skips conv)) conversations
  /\ skipped (fst (diff Date_getTime storage options conversations))
     = length (List.filter skips conversations)
  /\ downloaded (fst (diff Date_getTime storage options conversations)) = 0%nat
  /\ failed (fst (diff Date_getTime storage options conversations)) = 0%nat.
Proof.
  unfold diff.
  destruct (diff_fold Date_getTime storage options (length conversations)
              conversations (mkVars 0 0 0 0 [] []) []) as (Hsnd & Hsk & Hd & Hf).
  cbn zeta in Hsnd, Hsk, Hd, Hf. now rewrite Hsnd, Hsk, Hd, Hf.
Qed.

Lemma enter_diff :
  enter Date_getTime storage options conversations
  = Pool.enter (snd (diff Date_getTime storage options conversations))
      (fst (diff Date_getTime storage options conversations)).
Proof.
  unfold enter. now destruct (diff Date_getTime storage options conversations).
Qed.

(** The states of a run are the states of the loop over the conversations
    the diff left, entered with the variables the diff left. *)
Lemma reachable_pool st :
  reachable Date_getTime storage options conversations st ->
  Pool.reachable processOne_start
    (processOne_resume options (length conversations)) settled
    (concurrency options) (delay options)
    (List.filter (fun conv => negb (skips conv)) conversations)
    (fst (diff Date_getTime storage options conversations)) st.
Proof.
  intros [acts Hplay]. exists acts. rewrite enter_diff in Hplay.
  destruct diff_spec as [Hsnd _]. rewrite Hsnd in Hplay. exact Hplay.
Qed.


Lemma length_partition :
  (length (List.filter skips conversations)
   + length (List.filter (fun conv => negb (skips conv)) conversations)
   = length conversations)%nat.
Proof.
  pose proof (DownloadFacts.length_filter_negb skips conversations). lia.
Qed.

(** Without [verbose] a worker adds its item to exactly one counter. *)
Lemma quiet_resume_counts conv t a v t' v' :
  verbose options = false ->
  quiet t ->
  processOne_resume options (length conversations) conv t a v = Some (t', v') ->
  quiet t'
  /\ (tally v' + (if counted t' then 0 else 1)
      = tally v + (if counted t then 0 else 1))%nat.
Proof.
  intros Hverbose Hquiet H. unfold tally, quiet in *.
  destruct t, a; try contradiction; cbn in H; try rewrite Hverbose in H;
    DownloadFacts.crack H; injection H as <- <-; cbn; (split; [discriminate | lia]).
Qed.

Lemma quiet_run_accounted st :
  verbose options = false ->
  reachable Date_getTime storage options conversations st ->
  Pool.accounted tally counted quiet (length conversations) st.
Proof.
  intros Hverbose Hreach. apply reachable_pool in Hreach.
  apply (PoolFacts.reachable_accounted _ _ _ _ _ tally counted quiet) in Hreach.
  - destruct diff_spec as (_ & Hsk & Hd & Hf).
    replace (length conversations)
      with (tally (fst (diff Date_getTime storage options conversations))
            + length (List.filter (fun conv => negb (skips conv)) conversations))%nat;
      [exact Hreach |].
    unfold tally. rewrite Hsk, Hd, Hf. cbn [Nat.add]. rewrite Nat.add_0_r.
    apply length_partition.
  - intros conv. split; [reflexivity | discriminate].
  - intros conv t a v t' v' Hquiet _ H.
    now apply (quiet_resume_counts conv t a v t' v' Hverbose Hquiet H).
  - intros t _ Hsettled. now destruct t.
Qed.

End Run.

End BackupFacts.

(** The run of [Scenarios.backupSchedule]. *)
Example backup_run_of_schedule :
  Backup.backup Scenarios.epoch Scenarios.disk Scenarios.incrementalOptions
    Scenarios.listing
    (Backup.mkResult 4 2 1 1 [("c3", "Request failed: 500 ")]).
Proof.
  eexists. split; [exists Scenarios.backupSchedule; vm_compute; reflexivity |].
  split; reflexivity.
Qed.

(** C1 at a failing input.  In a verbose run the "Downloaded" line is
    appended to the log inside the [try] block, after [downloaded++]: when
    that append fails and the append of the [catch] block succeeds, the one
    conversation listed is counted as downloaded and as failed, and the
    result has [totalConversations = 1] but
    [downloaded + skipped + failed = 2]. *)
Theorem verbose_log_failure_counted_twice :
  Backup.backup Scenarios.epoch Scenarios.disk Scenarios.verboseOptions
    [Scenarios.c2]
    (Backup.mkResult 1 1 0 1
       [("c2", "EBUSY: resource busy or locked, open 'backup.log'")]).
Proof.
  eexists. split; [exists Scenarios.verboseSchedule; vm_compute; reflexivity |].
  split; reflexivity.
Qed.

(** X2.  Without [verbose], every result of [backup] accounts for the whole
    listing: [totalConversations] is the sum of the three counters. *)
Theorem quiet_backup_accounts_for_listing (Date_getTime : string -> float)
    (storage : gmap string Backup.StoredFile) (options : Backup.BackupOptions)
    (conversations : list ConversationItem) (r : Backup.BackupResult) :
  Backup.verbose options = false ->
  Backup.backup Date_getTime storage options conversations r ->
  Backup.totalConversations r
  = (Backup.res_downloaded r + Backup.res_skipped r + Backup.res_failed r)%nat.
Proof.
  intros Hverbose (st & Hreach & Hpc & Hr). cbn in Hr. injection Hr as <-. cbn.
  destruct (BackupFacts.quiet_run_accounted _ _ _ _ st Hverbose Hreach) as [Hsum _].
  apply BackupFacts.reachable_pool in Hreach.
  destruct (PoolFacts.reachable_invariants _ _ _ _ _ _ _ _ Hreach)
    as (_ & _ & _ & Hdrained).
  destruct (Hdrained Hpc) as [Hq Hl].
  unfold Pool.in_flight in Hsum. rewrite Hl, Hq in Hsum. cbn in Hsum.
  unfold Backup.tally in Hsum. lia.
Qed.

Lemma quiet_backup_accounts_for_listing_witness :
  Backup.totalConversations (Backup.mkResult 4 2 1 1 [("c3", "Request failed: 500 ")])
  = (Backup.res_downloaded (Backup.mkResult 4 2 1 1 [("c3", "Request failed: 500 ")])
     + Backup.res_skipped (Backup.mkResult 4 2 1 1 [("c3", "Request failed: 500 ")])
     + Backup.res_failed (Backup.mkResult 4 2 1 1 [("c3", "Request failed: 500 ")]))%nat.
Proof.
  apply (quiet_backup_accounts_for_listing Scenarios.epoch Scenarios.disk
           Scenarios.incrementalOptions Scenarios.listing).
  - reflexivity.
  - eexists. split; [exists Scenarios.backupSchedule; vm_compute; reflexivity |].
    split; reflexivity.
Defined.

(** * The incremental diff *)

Lemma unchanged_up_to_date (Date_getTime : string -> float)
    (storage : gmap string Backup.StoredFile) (conv : ConversationItem) :
  Backup.unchanged Date_getTime storage conv = true
  <-> Backup.up_to_date Date_getTime storage conv.
Proof.
  unfold Backup.unchanged, Backup.up_to_date. split.
  - destruct (Backup.getExistingConversationUpdateTime storage (item_id conv))
      as [existing|]; [| discriminate].
    destruct (Backup.convUpdateTime Date_getTime conv) as [remote|]; [| discriminate].
    intros Hle. now exists existing, remote.
  - intros (existing & remote & -> & -> & Hle). exact Hle.
Qed.



(** The examples of the specification: a copy stored at 100 against a
    listing of the same instant as a date string is up to date, against a
    listing at 150 it is not; without a readable copy, or without a listed
    time, nothing is. *)
Example timestamp_comparison :
  Backup.unchanged Scenarios.epoch Scenarios.disk Scenarios.c1 = true
  /\ Backup.unchanged Scenarios.epoch Scenarios.disk Scenarios.c2 = false
  /\ Backup.unchanged Scenarios.epoch Scenarios.disk Scenarios.c3 = false
  /\ Backup.unchanged Scenarios.epoch Scenarios.disk Scenarios.c4 = false.
Proof. repeat split; vm_compute; reflexivity. Qed.

(** * The concurrency bound *)

(** C3.  In every state of the file download loop and in every state of the
    backup download loop, the set [inProgress] holds at most [concurrency]
    promises ([concurrency] being a count, not negative). *)
Theorem in_flight_never_exceeds_concurrency
    (allRefs : list FileService.FileReference)
    (fileOptions : Download.FileDownloadOptions) (fileState : Download.PoolState)
    (Date_getTime : string -> float) (storage : gmap string Backup.StoredFile)
    (backupOptions : Backup.BackupOptions) (conversations : list ConversationItem)
    (backupState : Backup.PoolState) :
  (0 <= Download.concurrency fileOptions ->
   Download.reachable allRefs fileOptions fileState ->
   Z.of_nat (Pool.size fileState) <= Download.concurrency fileOptions)
  /\ (0 <= Backup.concurrency backupOptions ->
      Backup.reachable Date_getTime storage backupOptions conversations backupState ->
      Z.of_nat (Pool.size backupState) <= Backup.concurrency backupOptions).
Proof.
  split.
  - intros Hc Hreach.
    destruct (PoolFacts.reachable_invariants _ _ _ _ _ _ _ _ Hreach) as (Hb & _).
    unfold Pool.bounded in Hb. lia.
  - intros Hc Hreach. apply BackupFacts.reachable_pool in Hreach.
    destruct (PoolFacts.reachable_invariants _ _ _ _ _ _ _ _ Hreach) as (Hb & _).
    unfold Pool.bounded in Hb. lia.
Qed.

(** Both loops with every slot taken: two files in flight under a limit of
    two, three conversations under a limit of three. *)
Lemma in_flight_never_exceeds_concurrency_witness :
  exists fileState backupState,
    Download.reachable (FileService.scanAllConversations Scenarios.stored)
      Scenarios.fileOptions fileState
    /\ Backup.reachable Scenarios.epoch Scenarios.disk Scenarios.incrementalOptions
         Scenarios.listing backupState
    /\ Pool.size fileState = 2%nat
    /\ Pool.size backupState = 3%nat
    /\ Z.of_nat (Pool.size fileState) <= 2
    /\ Z.of_nat (Pool.size backupState) <= 3.
Proof.
  eexists. eexists.
  split; [exists (firstn 4 Scenarios.fileSchedule); vm_compute; reflexivity |].
  split; [exists (firstn 5 Scenarios.backupSchedule); vm_compute; reflexivity |].
  split; [reflexivity |]. split; [reflexivity |].
  split.
  - eapply (proj1 (in_flight_never_exceeds_concurrency
                     (FileService.scanAllConversations Scenarios.stored)
                     Scenarios.fileOptions _ Scenarios.epoch Scenarios.disk
                     Scenarios.incrementalOptions Scenarios.listing
                     (Backup.enter Scenarios.epoch Scenarios.disk
                        Scenarios.incrementalOptions Scenarios.listing)));
      [discriminate |].
    exists (firstn 4 Scenarios.fileSchedule). vm_compute. reflexivity.
  - eapply (proj2 (in_flight_never_exceeds_concurrency
                     (FileService.scanAllConversations Scenarios.stored)
                     Scenarios.fileOptions
                     (Download.enter (FileService.scanAllConversations Scenarios.stored)
                        Scenarios.fileOptions)
                     Scenarios.epoch Scenarios.disk
                     Scenarios.incrementalOptions Scenarios.listing _));
      [discriminate |].
    exists (firstn 5 Scenarios.backupSchedule). vm_compute. reflexivity.
Defined.

(** * Further properties of file materialization *)

Module DownloadProgress.
Import FileService Download.

(** [reportProgress] runs once per counted item, and [failedFileIds] grows
    with [failed]. *)
Lemma progress_kept allRefs options st :
  reachable allRefs options st ->
  completed (Pool.shared st) = tally (Pool.shared st)
  /\ length (failedFileIds (Pool.shared st)) = failed (Pool.shared st).
Proof.
  intros Hreach.
  apply (PoolFacts.reachable_shared processOne_start
           (processOne_resume (verbose options)
              (length (batch allRefs (skipFileIds options))))
           settled (concurrency options) (delay options)
           (batch allRefs (skipFileIds options)) (mkVars 0 0 0 0 [] [])
           (fun v => completed v = tally v /\ length (failedFileIds v) = failed v) st);
    [| split; reflexivity | exact Hreach].
  intros ref t a v t' v' _ [Hc Hf] H. unfold tally in *.
  destruct t, a; DownloadFacts.crack H; injection H as <- <-; cbn;
    rewrite ?length_app; cbn; split; lia.
Qed.

End DownloadProgress.

(** X4.  When [downloadFiles] leaves its loop, [processOne] has been started
    on every reference of the batch once, in batch order, whatever failed on
    the way; progress was reported once per reference, and [failedFileIds]
    has one entry per failure. *)
Theorem file_batch_fully_processed (allRefs : list FileService.FileReference)
    (options : Download.FileDownloadOptions) (st : Download.PoolState) :
  Download.reachable allRefs options st ->
  Pool.pc st = Pool.Exited ->
  Pool.started st = Download.batch allRefs (Download.skipFileIds options)
  /\ Pool.inProgress st = []
  /\ Download.completed (Pool.shared st)
     = length (Download.batch allRefs (Download.skipFileIds options))
  /\ length (Download.failedFileIds (Pool.shared st))
     = Download.failed (Pool.shared st).
Proof.
  intros Hreach Hpc.
  destruct (PoolFacts.exited_all_started _ _ _ _ _ _ _ _ Hreach Hpc) as [Hstarted Hl].
  destruct (DownloadProgress.progress_kept allRefs options st Hreach) as [Hc Hf].
  destruct (DownloadFacts.run_accounted allRefs options st Hreach) as [Hsum _].
  destruct (PoolFacts.reachable_invariants _ _ _ _ _ _ _ _ Hreach)
    as (_ & _ & _ & Hdrained).
  destruct (Hdrained Hpc) as [Hq _].
  unfold Pool.in_flight in Hsum. rewrite Hl, Hq in Hsum. cbn in Hsum.
  repeat split; [exact Hstarted | exact Hl | lia | exact Hf].
Qed.

Lemma file_batch_fully_processed_witness :
  exists st,
    Download.reachable (FileService.scanAllConversations Scenarios.stored)
      Scenarios.fileOptions st
    /\ Pool.started st
       = Download.batch (FileService.scanAllConversations Scenarios.stored)
           (Download.skipFileIds Scenarios.fileOptions)
    /\ Pool.inProgress st = []
    /\ Download.completed (Pool.shared st)
       = length (Download.batch (FileService.scanAllConversations Scenarios.stored)
                   (Download.skipFileIds Scenarios.fileOptions))
    /\ length (Download.failedFileIds (Pool.shared st))
       = Download.failed (Pool.shared st).
Proof.
  eexists. split; [exists Scenarios.fileSchedule; vm_compute; reflexivity |].
  apply (file_batch_fully_processed
           (FileService.scanAllConversations Scenarios.stored) Scenarios.fileOptions).
  - exists Scenarios.fileSchedule. vm_compute. reflexivity.
  - reflexivity.
Defined.

(** * Further properties of the backoff policy *)

(** The example of the specification: with [baseDelay = 1000] and
    [maxDelay = 60000], the delay after attempt 5 is 32000 before jitter,
    and the jitter of at most 30% is cut off at [maxDelay]. *)
Example delay_after_attempt_5 :
  Retry.calculateDelay 5 1000%float 60000%float 0%float = 32000%float
  /\ Retry.calculateDelay 5 1000%float 60000%float 0x1p-1%float = 36800%float
  /\ Retry.calculateDelay 6 1000%float 60000%float 0%float = 60000%float.
Proof. repeat split; vm_compute; reflexivity. Qed.

(** X3.  [withRetry] always completes, whatever the operation does, and
    invokes it at most [maxRetries + 1] times. *)
Theorem withRetry_completes_within_budget {W T : Type}
    (fn : W -> (JsError + T) * W) (random : W -> float * W)
    (options : Retry.PartialRetryOptions) (w : W) :
  exists c w' tr,
    Retry.withRetry fn random options w = Some (c, w', tr)
    /\ (Retry.calls tr <= Z.to_nat (Retry.maxRetries (Retry.mergeOptions options) + 1))%nat.
Proof.
  destruct (RetryFacts.withRetry_total fn random options w)
    as (c & w' & tr & Heq & Hcalls).
  exists c, w', tr. split; [exact Heq | exact Hcalls].
Qed.

(** * More on the backoff policy *)

Module RetryTraceFacts.
Import Retry RetryTrace.

Lemma sleeps_app (tr1 tr2 : list Event) : sleeps (tr1 ++ tr2) = (sleeps tr1 + sleeps tr2)%nat.
Proof. unfold sleeps. rewrite List.filter_app, length_app. reflexivity. Qed.

Lemma observations_app (tr1 tr2 : list Event) :
  observations (tr1 ++ tr2) = (observations tr1 + observations tr2)%nat.
Proof. unfold observations. rewrite List.filter_app, length_app. reflexivity. Qed.

Lemma observe_counts (opts : RetryOptions) e attempt delay :
  sleeps (observe opts e attempt delay) = 0%nat
  /\ observations (observe opts e attempt delay) = (if onRetry opts then 1 else 0)%nat.
Proof. unfold observe. destruct (onRetry opts); split; reflexivity. Qed.

(** Between two invocations the loop sleeps once, after calling the
    observer once if there is one. *)
Lemma loop_discipline {W T : Type} (fn : W -> (JsError + T) * W)
    (random : W -> float * W) (opts : RetryOptions) :
  forall fuel attempt lastError w tr c w' tr',
    loop fn random opts fuel attempt lastError w tr = Some (c, w', tr') ->
    attempt <= maxRetries opts ->
    sleeps tr = calls tr ->
    observations tr = (if onRetry opts then sleeps tr else 0)%nat ->
    (sleeps tr' + 1 = calls tr')%nat
    /\ observations tr' = (if onRetry opts then sleeps tr' else 0)%nat.
Proof.
  induction fuel as [|fuel IH]; intros attempt lastError w tr c w' tr' Hloop Hle Hs Ho;
    [discriminate |].
  cbn [loop] in Hloop.
  replace (attempt <=? maxRetries opts) with true in Hloop
    by (symmetry; apply Z.leb_le; lia).
  assert (sleeps (tr ++ [EvCall attempt]) + 1 = calls (tr ++ [EvCall attempt])
          /\ observations (tr ++ [EvCall attempt])
             = if onRetry opts then sleeps (tr ++ [EvCall attempt]) else 0)%nat as Hdone.
  { rewrite sleeps_app, observations_app, RetryFacts.calls_app. cbn.
    rewrite !Nat.add_0_r. split; [lia | exact Ho]. }
  destruct (fn w) as [[e|v] w1].
  - destruct (attempt =? maxRetries opts) eqn:Hlast.
    { injection Hloop as <- <- <-. exact Hdone. }
    destruct (is_non_retryable e).
    { injection Hloop as <- <- <-. exact Hdone. }
    destruct (random w1) as [rnd w2].
    apply Z.eqb_neq in Hlast.
    destruct (observe_counts opts e (attempt + 1)
                (calculateDelay attempt (baseDelay opts) (maxDelay opts) rnd))
      as [Hos Hoo].
    apply IH in Hloop; [exact Hloop | lia | |].
    + rewrite !sleeps_app, !RetryFacts.calls_app, RetryFacts.calls_observe, Hos.
      cbn. lia.
    + rewrite !observations_app, !sleeps_app, Hos, Hoo. cbn.
      destruct (onRetry opts); lia.
  - injection Hloop as <- <- <-. exact Hdone.
Qed.

(** Which failed statuses end a run at once. *)
Lemma network_error_class message (s : Z) :
  is_non_retryable (NetworkError message (Some s)) = (s =? 404).
Proof.
  unfold is_non_retryable. cbn.
  destruct (Z.eqb_spec s 404) as [-> | Hne]; [reflexivity |].
  destruct s as [|p|p]; try reflexivity.
  repeat (destruct p as [p|p|]; try reflexivity).
  contradiction.
Qed.

End RetryTraceFacts.

(** X6.  The first success ends the run: when the operation, having failed
    with retried errors at the attempts before, succeeds at an attempt,
    [withRetry] returns that value; the successful invocation is the last
    thing the run does, and it is invocation number [attempt + 1]. *)
Theorem first_success_ends_retrying {W T : Type}
    (fn : W -> (JsError + T) * W) (random : W -> float * W)
    (options : Retry.PartialRetryOptions)
    (w0 : W) (attempt : Z) (lastError : option JsError) (w : W)
    (tr : list Retry.Event) (v : T) (w1 : W) :
  Retry.at_attempt fn random (Retry.mergeOptions options) w0 attempt lastError w tr ->
  attempt <= Retry.maxRetries (Retry.mergeOptions options) ->
  fn w = (inr v, w1) ->
  Retry.withRetry fn random options w0
  = Some (Returned v, w1, tr ++ [Retry.EvCall attempt])
  /\ Retry.calls (tr ++ [Retry.EvCall attempt]) = Z.to_nat (attempt + 1).
Proof.
  intros Hat Hle Hfn. split.
  - unfold Retry.withRetry.
    rewrite (RetryFacts.run_from_attempt _ _ _ _ _ _ _ _ Hat). unfold Retry.fuel_from.
    cbn [Retry.loop].
    replace (attempt <=? Retry.maxRetries (Retry.mergeOptions options)) with true
      by (symmetry; apply Z.leb_le; lia).
    now rewrite Hfn.
  - destruct (RetryFacts.calls_at_attempt _ _ _ _ _ _ _ _ Hat) as [Hge Hcalls].
    rewrite RetryFacts.calls_app, Hcalls.
    replace (Retry.calls [Retry.EvCall attempt]) with 1%nat by reflexivity. lia.
Qed.

Lemma first_success_ends_retrying_witness :
  Retry.withRetry Cases.limited_then_ok Scenarios.half Retry.noOptions 0%nat
  = Some (Returned 42, 2%nat,
          [Retry.EvCall 0; Retry.EvSleep 1150%float] ++ [Retry.EvCall 1])
  /\ Retry.calls ([Retry.EvCall 0; Retry.EvSleep 1150%float] ++ [Retry.EvCall 1])
     = Z.to_nat (1 + 1).
Proof.
  apply (first_success_ends_retrying Cases.limited_then_ok Scenarios.half
           Retry.noOptions 0%nat 1
           (Some (RateLimitError "Rate limited by API" None)) 1%nat
           [Retry.EvCall 0; Retry.EvSleep 1150%float] 42 2%nat).
  - exact (Retry.at_next Cases.limited_then_ok Scenarios.half
             (Retry.mergeOptions Retry.noOptions) 0%nat 0 None 0%nat []
             (RateLimitError "Rate limited by API" None) 1%nat 0x1p-1%float 1%nat
             (Retry.at_first _ _ _ _) eq_refl eq_refl eq_refl eq_refl).
  - cbv. discriminate.
  - reflexivity.
Defined.

(** X7.  However a run of [withRetry] ends, it slept exactly once between
    two consecutive invocations of the operation and never after the last
    one, and it called the observer exactly once before each sleep if one is
    installed and never otherwise. *)
Theorem one_sleep_between_invocations {W T : Type}
    (fn : W -> (JsError + T) * W) (random : W -> float * W)
    (options : Retry.PartialRetryOptions) (w : W)
    (c : Completion T) (w' : W) (tr : list Retry.Event) :
  0 <= Retry.maxRetries (Retry.mergeOptions options) ->
  Retry.withRetry fn random options w = Some (c, w', tr) ->
  (RetryTrace.sleeps tr + 1 = Retry.calls tr)%nat
  /\ RetryTrace.observations tr
     = (if Retry.p_onRetry options then RetryTrace.sleeps tr else 0)%nat.
Proof.
  intros Hmax Hrun.
  apply (RetryTraceFacts.loop_discipline fn random (Retry.mergeOptions options))
    in Hrun; [exact Hrun | exact Hmax | reflexivity |].
  cbn. now destruct (Retry.p_onRetry options).
Qed.

Lemma one_sleep_between_invocations_witness :
  (RetryTrace.sleeps [Retry.EvCall 0; Retry.EvSleep 1150%float; Retry.EvCall 1] + 1
   = Retry.calls [Retry.EvCall 0; Retry.EvSleep 1150%float; Retry.EvCall 1])%nat
  /\ RetryTrace.observations [Retry.EvCall 0; Retry.EvSleep 1150%float; Retry.EvCall 1]
     = (if Retry.p_onRetry Retry.noOptions
        then RetryTrace.sleeps [Retry.EvCall 0; Retry.EvSleep 1150%float; Retry.EvCall 1]
        else 0)%nat.
Proof.
  apply (one_sleep_between_invocations Cases.limited_then_ok Scenarios.half
           Retry.noOptions 0%nat (Returned 42) 2%nat).
  - cbv. discriminate.
  - vm_compute. reflexivity.
Defined.

(** X8.  How [client.fetch] treats a failed HTTP status that the server
    answers every time: 401 and 403 throw an [AuthenticationError] and 404 a
    [NetworkError] after a single request; every other status outside 2xx
    (429 as a [RateLimitError], the rest as [NetworkError]) is requested six
    times before the error comes out. *)
Theorem fetch_retries_by_status {W T : Type}
    (http : Client.Request T -> W -> (JsError + Client.Response T) * W)
    (random : W -> float * W) (parseInt : string -> float)
    (client : Client.ChatGPTClient) (endpoint : string)
    (options : Client.FetchOptions T) (s : Z) (w0 : W) :
  Client.accessToken client <> "" ->
  s < 200 \/ 299 < s ->
  (forall request w, exists response w1,
      http request w = (inr response, w1) /\ Client.status response = s) ->
  exists e w1 tr,
    Client.fetch http random parseInt client endpoint options w0
    = Some (Threw (Some e), w1, tr)
    /\ Retry.calls tr = (if (s =? 401) || (s =? 403) || (s =? 404) then 1%nat else 6%nat)
    /\ err_name e = (if (s =? 401) || (s =? 403) then "AuthenticationError"
                     else if s =? 429 then "RateLimitError" else "NetworkError")
    /\ (err_name e = "NetworkError" -> err_statusCode e = Some s).
Proof.
  intros Htoken Hs Hhttp.
  assert (forall w, exists e w1,
            Client.attempt_request http parseInt client endpoint options w = (inl e, w1)
            /\ Retry.is_non_retryable e = ((s =? 401) || (s =? 403) || (s =? 404))
            /\ err_name e = (if (s =? 401) || (s =? 403) then "AuthenticationError"
                             else if s =? 429 then "RateLimitError" else "NetworkError")
            /\ (err_name e = "NetworkError" -> err_statusCode e = Some s)) as Hreq.
  { intros w. unfold Client.attempt_request.
    destruct (Hhttp (Client.mkRequest (String.append Client.BASE_URL endpoint)
                       (default "GET" (Client.method options)) (Client.bearer client)
                       (Client.deviceId client) (Client.body options)) w)
      as (response & w1 & -> & Hstatus).
    assert (Client.ok response = false) as ->.
    { unfold Client.ok. rewrite Hstatus. lia. }
    cbn [negb]. rewrite Hstatus.
    destruct ((s =? 401) || (s =? 403)) eqn:Hauth.
    - eexists _, _. split; [reflexivity |]. cbn.
      split; [reflexivity |]. split; [reflexivity | discriminate].
    - apply orb_false_iff in Hauth as [H401 H403].
      destruct (s =? 429) eqn:H429.
      + eexists _, _. split; [reflexivity |].
        assert ((s =? 404) = false) as ->
          by (apply Z.eqb_eq in H429; apply Z.eqb_neq; lia).
        split; [reflexivity |]. split; [reflexivity | discriminate].
      + eexists _, _. split; [reflexivity |].
        rewrite RetryTraceFacts.network_error_class. cbn.
        split; [reflexivity |]. split; reflexivity. }
  destruct ((s =? 401) || (s =? 403) || (s =? 404)) eqn:Hclass.
  - destruct (Hreq w0) as (e & w1 & Hfn & Hnon & Hname & Hcode).
    exists e, w1, ([] ++ [Retry.EvCall 0]). split; [| now repeat split].
    unfold Client.fetch.
    destruct (String.eqb_spec (Client.accessToken client) "") as [Heq | _];
      [contradiction |].
    unfold Retry.withRetry, Retry.run, Retry.fuel_from.
    apply RetryFacts.loop_throws; [cbv; discriminate | exact Hfn | now right].
  - destruct (ClientFacts.fetch_always_failing http random parseInt client endpoint
                options w0 Htoken) as (w & e & w1 & tr & Hfn & Hfetch & Hcalls).
    + intros w. destruct (Hreq w) as (e & w1 & Hfn & Hnon & _).
      exists e, w1. now split.
    + destruct (Hreq w) as (e' & w1' & Hfn' & _ & Hname & Hcode).
      rewrite Hfn in Hfn'. injection Hfn' as <- <-.
      exists e, w1, tr. now repeat split.
Qed.

Lemma fetch_retries_by_status_witness :
  exists e w1 tr,
    Client.fetch (@Cases.rate_limited ConversationDetail) Scenarios.half
      Scenarios.noHeader Scenarios.client (Client.CONVERSATION "c1")
      (Client.mkFetchOptions None None None None) tt
    = Some (Threw (Some e), w1, tr)
    /\ Retry.calls tr
       = (if (429 =? 401) || (429 =? 403) || (429 =? 404) then 1%nat else 6%nat)
    /\ err_name e = (if (429 =? 401) || (429 =? 403) then "AuthenticationError"
                     else if 429 =? 429 then "RateLimitError" else "NetworkError")
    /\ (err_name e = "NetworkError" -> err_statusCode e = Some 429).
Proof.
  apply (fetch_retries_by_status (@Cases.rate_limited ConversationDetail)
           Scenarios.half Scenarios.noHeader Scenarios.client
           (Client.CONVERSATION "c1") (Client.mkFetchOptions None None None None) 429 tt).
  - discriminate.
  - right. lia.
  - intros request w. eexists _, _. split; reflexivity.
Defined.

(** * Facts about the listings *)

Module PaginationFacts.
Import Pagination.

Lemma listing_requests_app (a b : list Event) : requests (a ++ b) = requests a ++ requests b.
Proof. apply omap_app. Qed.

Lemma listing_sleeps_app (a b : list Event) : (sleeps (a ++ b) = sleeps a + sleeps b)%nat.
Proof. unfold sleeps. now rewrite List.filter_app, length_app. Qed.

(** The number of pages of a listing of [N] items in pages of [L]: at least
    one, since the first request is made before the total is known. *)
Lemma page_count (N L : Z) :
  0 < L ->
  let n := Z.max 1 ((N + L - 1) / L) in
  (n = 1 \/ (n - 1) * L < N) /\ N <= n * L.
Proof.
  intros HL n.
  pose proof (Z.div_mod (N + L - 1) L ltac:(lia)) as Hdm.
  pose proof (Z.mod_pos_bound (N + L - 1) L HL) as Hr.
  set (q := (N + L - 1) / L) in *. set (r := (N + L - 1) mod L) in *.
  destruct (Z_le_gt_dec q 1) as [Hq|Hq].
  - assert (n = 1) as -> by (unfold n; lia). split; [now left | nia].
  - assert (n = q) as -> by (unfold n; lia). split; [right; nia | nia].
Qed.

Section Stable.
Context {W : Type}.
Variable call : string -> W -> Completion ConversationsResponse * W.
Variable limit delay : Z.
Variable page : Z -> list ConversationItem.
Variable N : Z.
Variable tick : W -> W.
Hypothesis positive : 0 < limit.
Hypothesis stable : forall offset w,
  call (page_url limit offset) w = (Returned (mkPage (page offset) N), tick w).

Lemma offset_loop_stable (m : nat) :
  forall offset total0 fetched out w tr fuel,
    (S m < fuel)%nat ->
    below offset total0 = true ->
    (m = 0%nat \/ offset + Z.of_nat m * limit < N) ->
    N <= offset + (Z.of_nat m + 1) * limit ->
    exists d,
      offset_loop call limit delay fuel offset total0 fetched out w tr = Some d /\
      yielded d = out ++ flat_map page (offsets limit (S m) offset) /\
      thrown d = None /\
      world d = Nat.iter (S m) tick w /\
      requests (trace d) =
        requests tr ++ map (page_url limit) (offsets limit (S m) offset) /\
      sleeps (trace d) = (sleeps tr + (if (0 <? delay)%Z then m else 0))%nat.
Proof.
  induction m as [|m IH]; intros offset total0 fetched out w tr fuel Hfuel Hbelow Hlow Hhigh.
  - destruct fuel as [|[|fuel]]; try lia.
    cbn [offset_loop]. rewrite Hbelow, stable. cbn [total items].
    assert ((offset + limit <? N) = false) as Hstop by (apply Z.ltb_ge; lia).
    cbn [below]. rewrite Hstop. cbn [andb].
    eexists; split; [reflexivity |]. cbn [yielded thrown world trace offsets flat_map map Nat.iter nat_rect].
    rewrite app_nil_r. repeat split.
    + rewrite listing_requests_app. reflexivity.
    + rewrite listing_sleeps_app. cbn. destruct (0 <? delay); lia.
  - destruct fuel as [|fuel]; try lia.
    cbn [offset_loop]. rewrite Hbelow, stable. cbn [total items].
    assert ((offset + limit <? N) = true) as Hgo by (apply Z.ltb_lt; nia).
    rewrite Hgo. cbn [andb].
    destruct (IH (offset + limit) (Some N)
                (fetched + Z.of_nat (length (page offset))) (out ++ page offset) (tick w)
                (tr ++ [Request (page_url limit offset);
                        OnProgress (fetched + Z.of_nat (length (page offset))) N]
                    ++ (if 0 <? delay then [Sleep delay] else []))
                fuel)
      as (d & Hrun & Hy & Ht & Hw & Hr & Hs).
    + lia.
    + exact Hgo.
    + destruct m as [|m]; [now left | right; nia].
    + nia.
    + exists d. split; [exact Hrun |]. repeat split.
      * rewrite Hy. cbn [offsets flat_map]. now rewrite <- app_assoc.
      * exact Ht.
      * rewrite Hw. now rewrite <- (Nat.iter_succ_r (S _)).
      * rewrite Hr, !listing_requests_app. cbn [offsets map].
        replace (requests (if 0 <? delay then [Sleep delay] else [])) with (@nil string)
          by (destruct (0 <? delay); reflexivity).
        cbn. now rewrite <- app_assoc.
      * rewrite Hs, !listing_sleeps_app. destruct (0 <? delay); cbn; lia.
Qed.

End Stable.

Lemma offsets_In (L : Z) (j i : nat) (offset : Z) :
  (i < j)%nat -> In (offset + Z.of_nat i * L) (offsets L j offset).
Proof.
  revert i offset.
  induction j as [|j IH]; intros i offset Hi; [lia |].
  destruct i as [|i]; cbn [offsets].
  - left. lia.
  - right. replace (offset + Z.of_nat (S i) * L) with (offset + L + Z.of_nat i * L) by lia.
    apply IH. lia.
Qed.

Section Failing.
Context {W : Type}.
Variable call : string -> W -> Completion ConversationsResponse * W.
Variable limit delay : Z.
Variable page : Z -> list ConversationItem.
Variable N : Z.
Variable tick : W -> W.
Variable j : nat.
Variable e : option JsError.
Hypothesis positive : 0 < limit.
Hypothesis served : forall offset w, In offset (offsets limit j 0) ->
  call (page_url limit offset) w = (Returned (mkPage (page offset) N), tick w).
Hypothesis failing : forall w,
  call (page_url limit (Z.of_nat j * limit)) w = (Threw e, tick w).
Hypothesis inside : Z.of_nat j * limit < N \/ j = 0%nat.

Lemma offset_loop_failing (k : nat) :
  forall (i : nat) total0 fetched out w tr fuel,
    (i + k = j)%nat ->
    (k < fuel)%nat ->
    below (Z.of_nat i * limit) total0 = true ->
    exists d,
      offset_loop call limit delay fuel (Z.of_nat i * limit) total0 fetched out w tr = Some d /\
      yielded d = out ++ flat_map page (offsets limit k (Z.of_nat i * limit)) /\
      thrown d = Some e /\
      world d = Nat.iter (S k) tick w /\
      requests (trace d) =
        requests tr ++ map (page_url limit) (offsets limit (S k) (Z.of_nat i * limit)).
Proof.
  induction k as [|k IH]; intros i total0 fetched out w tr fuel Hi Hfuel Hbelow.
  - destruct fuel as [|fuel]; try lia.
    assert (i = j) as -> by lia.
    cbn [offset_loop]. rewrite Hbelow, failing.
    eexists; split; [reflexivity |]. cbn [yielded thrown world trace offsets flat_map map Nat.iter nat_rect].
    rewrite app_nil_r, listing_requests_app. repeat split.
  - destruct fuel as [|fuel]; try lia.
    cbn [offset_loop]. rewrite Hbelow, served.
    2:{ replace (Z.of_nat i * limit) with (0 + Z.of_nat i * limit) by lia.
        apply offsets_In. lia. }
    cbn [total items].
    assert ((Z.of_nat i * limit + limit <? N) = true) as Hgo by (apply Z.ltb_lt; nia).
    rewrite Hgo. cbn [andb].
    replace (Z.of_nat i * limit + limit) with (Z.of_nat (S i) * limit) in * by lia.
    destruct (IH (S i) (Some N)
                (fetched + Z.of_nat (length (page (Z.of_nat i * limit))))
                (out ++ page (Z.of_nat i * limit)) (tick w)
                (tr ++ [Request (page_url limit (Z.of_nat i * limit));
                        OnProgress (fetched + Z.of_nat (length (page (Z.of_nat i * limit)))) N]
                    ++ (if 0 <? delay then [Sleep delay] else []))
                fuel)
      as (d & Hrun & Hy & Ht & Hw & Hr).
    + lia.
    + lia.
    + exact Hgo.
    + exists d. split; [exact Hrun |]. repeat split.
      * rewrite Hy. cbn [offsets flat_map].
        replace (Z.of_nat i * limit + limit) with (Z.of_nat (S i) * limit) by lia.
        now rewrite <- app_assoc.
      * exact Ht.
      * rewrite Hw. now rewrite <- (Nat.iter_succ_r (S _)).
      * rewrite Hr, !listing_requests_app. cbn [offsets map].
        replace (Z.of_nat i * limit + limit) with (Z.of_nat (S i) * limit) by lia.
        replace (requests (if 0 <? delay then [Sleep delay] else [])) with (@nil string)
          by (destruct (0 <? delay); reflexivity).
        cbn. now rewrite <- app_assoc.
Qed.

End Failing.

Section Chain.
Context {W A : Type}.
Variable call : string -> W -> Completion (CursorResponse A) * W.
Variable encodeURIComponent : string -> string.
Variable delay : Z.

Lemma quiet_sleep (b : bool) : requests (if b then [Sleep delay] else []) = [].
Proof. now destruct b. Qed.

Lemma cursor_loop_serves (gizmoId : string) c w pages w' :
  serves call (project_url encodeURIComponent gizmoId) present c w pages w' ->
  present c = true ->
  forall fuel fetched out tr,
    (length pages < fuel)%nat ->
    exists d,
      cursor_loop call encodeURIComponent delay fuel (PROJECT_CONVERSATIONS gizmoId) c
        fetched out w tr = Some d /\
      yielded d = out ++ concat (map snd pages) /\
      thrown d = None /\
      world d = w' /\
      requests (trace d) =
        requests tr ++ map (fun p => project_url encodeURIComponent gizmoId (fst p)) pages /\
      (sleeps (trace d) <= sleeps tr + (length pages - 1))%nat.
Proof.
  induction 1 as [c w its next w1 Hcall Hlive | c w its next w1 rest w2 Hcall Hlive Hrest IH];
    intros Hc fuel fetched out tr Hfuel; cbn [length] in Hfuel;
    destruct c as [c|]; try discriminate.
  - destruct fuel as [|[|fuel]]; try lia.
    destruct next as [next|]; [discriminate |].
    cbn [cursor_loop]. unfold project_url in Hcall. cbn in Hcall. rewrite Hcall.
    cbn [cursor cursor_items truthy andb].
    eexists; split; [reflexivity |]. cbn [yielded thrown world trace concat map snd fst].
    rewrite !app_nil_r. repeat split.
    + rewrite listing_requests_app. reflexivity.
    + rewrite listing_sleeps_app. cbn. lia.
  - destruct fuel as [|fuel]; try lia.
    cbn [cursor_loop]. unfold project_url in Hcall. cbn in Hcall. rewrite Hcall.
    cbn [cursor cursor_items].
    edestruct (IH Hlive fuel) as (d & Hrun & Hy & Ht & Hw & Hr & Hs); [lia |].
    exists d. split; [exact Hrun |]. repeat split.
    + rewrite Hy. cbn [concat map snd]. now rewrite <- app_assoc.
    + exact Ht.
    + exact Hw.
    + rewrite Hr, !listing_requests_app, quiet_sleep. cbn. now rewrite <- app_assoc.
    + etransitivity; [exact Hs |]. rewrite !listing_sleeps_app.
      assert (1 <= length rest)%nat by (inversion Hrest; cbn; lia).
      destruct (truthy next && (0 <? delay)); cbn; lia.
Qed.

Lemma sidebar_loop_serves c w pages w' :
  serves call (sidebar_url encodeURIComponent) truthy c w pages w' ->
  forall fuel out tr,
    (length pages <= fuel)%nat ->
    exists d,
      sidebar_loop call encodeURIComponent delay fuel c out w tr = Some d /\
      yielded d = out ++ concat (map snd pages) /\
      thrown d = None /\
      world d = w' /\
      requests (trace d) =
        requests tr ++ map (fun p => sidebar_url encodeURIComponent (fst p)) pages /\
      sleeps (trace d) =
        (sleeps tr + (if (0 <? delay)%Z then length pages - 1 else 0))%nat.
Proof.
  induction 1 as [c w its next w1 Hcall Hlive | c w its next w1 rest w2 Hcall Hlive Hrest IH];
    intros fuel out tr Hfuel; cbn [length] in Hfuel.
  - destruct fuel as [|fuel]; try lia.
    cbn [sidebar_loop]. rewrite Hcall. cbn [cursor cursor_items].
    rewrite Hlive. cbn [andb].
    eexists; split; [reflexivity |]. cbn [yielded thrown world trace concat map snd fst].
    rewrite !app_nil_r. repeat split.
    + rewrite listing_requests_app. reflexivity.
    + rewrite listing_sleeps_app. cbn. destruct (0 <? delay); lia.
  - destruct fuel as [|fuel]; try lia.
    cbn [sidebar_loop]. rewrite Hcall. cbn [cursor cursor_items].
    rewrite Hlive.
    edestruct (IH fuel) as (d & Hrun & Hy & Ht & Hw & Hr & Hs); [lia |].
    exists d. split; [exact Hrun |]. repeat split.
    + rewrite Hy. cbn [concat map snd]. now rewrite <- app_assoc.
    + exact Ht.
    + exact Hw.
    + rewrite Hr, !listing_requests_app, quiet_sleep. cbn. now rewrite <- app_assoc.
    + rewrite Hs, !listing_sleeps_app.
      assert (1 <= length rest)%nat by (inversion Hrest; cbn; lia).
      cbn [andb length]. destruct (0 <? delay); cbn; lia.
Qed.

End Chain.

End PaginationFacts.

(** X9. Against a server that answers every page request of the listing
    with that page and the same total [N], [fetchAllConversations] with a
    positive [limit] asks for the offsets [0, limit, 2 limit, ...] in order,
    [max 1 (ceil (N / limit))] of them (the first one is asked before the
    total is known, so also an empty listing costs one request), yields the
    pages' items in that order, sleeps between two requests only, and
    returns. *)
Theorem conversations_listed_page_by_page {W : Type}
    (call : string -> W -> Completion Pagination.ConversationsResponse * W)
    (limit delay N : Z) (page : Z -> list ConversationItem) (tick : W -> W)
    (fuel : nat) (w : W) :
  0 < limit ->
  (forall offset w0,
     call (Pagination.page_url limit offset) w0 =
     (Returned (Pagination.mkPage (page offset) N), tick w0)) ->
  let n := Z.to_nat (Z.max 1 ((N + limit - 1) / limit)) in
  (n < fuel)%nat ->
  exists d,
    Pagination.fetchAllConversations call limit delay fuel w = Some d /\
    Pagination.collected d = Returned (flat_map page (Pagination.offsets limit n 0)) /\
    Pagination.requests (Pagination.trace d) =
      map (Pagination.page_url limit) (Pagination.offsets limit n 0) /\
    Pagination.sleeps (Pagination.trace d) = (if (0 <? delay)%Z then n - 1 else 0)%nat /\
    Pagination.world d = Nat.iter n tick w.
Proof.
  intros HL Hstable n Hfuel.
  destruct (PaginationFacts.page_count N limit HL) as [Hlow Hhigh].
  set (z := Z.max 1 ((N + limit - 1) / limit)) in *.
  assert (1 <= z) as Hz by (unfold z; lia).
  assert (exists m, n = S m) as [m Hm] by (exists (Nat.pred n); unfold n; lia).
  assert (Z.of_nat m = z - 1) as Hmz by (unfold n in Hm; lia).
  destruct (PaginationFacts.offset_loop_stable call limit delay page N tick HL Hstable m
              0 None 0 [] w [] fuel) as (d & Hrun & Hy & Ht & Hw & Hr & Hs).
  - lia.
  - reflexivity.
  - destruct Hlow as [Hone | Hlt]; [left; lia | right; rewrite Hmz; lia].
  - rewrite Hmz. lia.
  - exists d. rewrite Hm. split; [exact Hrun |].
    unfold Pagination.collected. rewrite Ht, Hy, Hr, Hs, Hw.
    repeat split. destruct (0 <? delay); cbn; lia.
Qed.

Lemma conversations_listed_page_by_page_witness :
  exists d,
    Pagination.fetchAllConversations Cases.listing_server 2 500 4 0%nat = Some d /\
    Pagination.collected d = Returned Cases.five /\
    Pagination.sleeps (Pagination.trace d) = 2%nat /\
    Pagination.world d = 3%nat.
Proof.
  destruct (conversations_listed_page_by_page Cases.listing_server 2 500 5
              (fun offset => Cases.page_of (Pagination.page_url 2 offset)) S 4 0%nat)
    as (d & Hrun & Hc & _ & Hs & Hw).
  - lia.
  - intros offset w0. reflexivity.
  - vm_compute. lia.
  - exists d. repeat split; assumption.
Defined.

(** X10. When the request for one page of the listing fails for good (the
    [j] pages before it are served, and it is inside the listing or the very
    first request), [fetchAllConversations] throws that error after exactly
    [j + 1] requests and asks for nothing more; [listConversations], which
    collects the items in a local array, then rejects with the error and
    the [j] pages already yielded are lost to its caller. *)
Theorem failed_page_aborts_listing {W : Type}
    (call : string -> W -> Completion Pagination.ConversationsResponse * W)
    (limit delay N : Z) (page : Z -> list ConversationItem) (tick : W -> W)
    (j : nat) (e : option JsError) (fuel : nat) (w : W) :
  0 < limit ->
  (forall offset w0, In offset (Pagination.offsets limit j 0) ->
     call (Pagination.page_url limit offset) w0 =
     (Returned (Pagination.mkPage (page offset) N), tick w0)) ->
  (forall w0, call (Pagination.page_url limit (Z.of_nat j * limit)) w0 = (Threw e, tick w0)) ->
  Z.of_nat j * limit < N \/ j = 0%nat ->
  (j < fuel)%nat ->
  exists d,
    Pagination.fetchAllConversations call limit delay fuel w = Some d /\
    Pagination.collected d = Threw e /\
    Pagination.yielded d = flat_map page (Pagination.offsets limit j 0) /\
    Pagination.requests (Pagination.trace d) =
      map (Pagination.page_url limit) (Pagination.offsets limit (S j) 0) /\
    Pagination.world d = Nat.iter (S j) tick w.
Proof.
  intros HL Hserved Hfail Hin Hfuel.
  destruct (PaginationFacts.offset_loop_failing call limit delay page N tick j e HL
              Hserved Hfail Hin j 0%nat None 0 [] w [] fuel)
    as (d & Hrun & Hy & Ht & Hw & Hr); [lia | lia | reflexivity |].
  exists d. split; [exact Hrun |].
  unfold Pagination.collected. rewrite Ht. repeat split; assumption.
Qed.

Lemma failed_page_aborts_listing_witness :
  exists d,
    Pagination.fetchAllConversations Cases.broken_server 2 500 4 0%nat = Some d /\
    Pagination.collected d = Threw (Some (NetworkError "Request failed: 500 " (Some 500))) /\
    Pagination.yielded d = [Scenarios.c1; Scenarios.c2] /\
    length (Pagination.requests (Pagination.trace d)) = 2%nat.
Proof.
  destruct (failed_page_aborts_listing Cases.broken_server 2 500 5
              (fun offset => Cases.page_of (Pagination.page_url 2 offset)) S 1
              (Some (NetworkError "Request failed: 500 " (Some 500))) 4 0%nat)
    as (d & Hrun & Hc & Hy & Hr & _).
  - lia.
  - intros offset w0 [<- | []]. reflexivity.
  - intros w0. reflexivity.
  - left. lia.
  - lia.
  - exists d. repeat split; try assumption. now rewrite Hr.
Defined.

(** X11. [fetchProjectConversations] follows the server's cursors from
    ['0'] on: when the server serves a chain of pages, each leading to the
    next by a cursor that is not [null] (an empty-string cursor included)
    and the last one carrying none, the listing asks for exactly these
    pages, in order, yields their items in order and returns, sleeping at
    most once between two requests. *)
Theorem project_conversations_follow_cursors {W A : Type}
    (call : string -> W -> Completion (Pagination.CursorResponse A) * W)
    (encodeURIComponent : string -> string) (delay : Z) (gizmoId : string)
    (pages : list (option string * list A)) (w w' : W) (fuel : nat) :
  Pagination.serves call (Pagination.project_url encodeURIComponent gizmoId)
    Pagination.present (Some "0") w pages w' ->
  (length pages < fuel)%nat ->
  exists d,
    Pagination.fetchProjectConversations call encodeURIComponent delay fuel gizmoId w = Some d /\
    Pagination.collected d = Returned (concat (map snd pages)) /\
    Pagination.requests (Pagination.trace d) =
      map (fun p => Pagination.project_url encodeURIComponent gizmoId (fst p)) pages /\
    (Pagination.sleeps (Pagination.trace d) <= length pages - 1)%nat /\
    Pagination.world d = w'.
Proof.
  intros Hserves Hfuel.
  destruct (PaginationFacts.cursor_loop_serves call encodeURIComponent delay gizmoId
              (Some "0") w pages w' Hserves eq_refl fuel 0 [] [] Hfuel)
    as (d & Hrun & Hy & Ht & Hw & Hr & Hs).
  exists d. split; [exact Hrun |].
  unfold Pagination.collected. rewrite Ht, Hy. repeat split; assumption.
Qed.

Lemma project_conversations_follow_cursors_witness :
  exists d,
    Pagination.fetchProjectConversations Cases.cursor_server Cases.plain 500 3 "g-1" 0%nat
      = Some d /\
    Pagination.collected d = Returned [Scenarios.c1; Scenarios.c2; Scenarios.c3] /\
    Pagination.world d = 2%nat.
Proof.
  destruct (project_conversations_follow_cursors Cases.cursor_server Cases.plain 500 "g-1"
              [(Some "0", [Scenarios.c1; Scenarios.c2]); (Some "p2", [Scenarios.c3])]
              0%nat 2%nat 3)
    as (d & Hrun & Hc & _ & _ & Hw).
  - eapply Pagination.serves_more; [reflexivity | reflexivity |].
    eapply Pagination.serves_last; reflexivity.
  - cbn. lia.
  - exists d. repeat split; assumption.
Defined.

(** X12. [fetchAllProjects] asks the sidebar without a cursor first and
    then follows the server's cursors as long as they are truthy: a page
    whose cursor is [null], absent or the empty string ends the listing.
    Over such a chain of pages it makes exactly one request per page,
    returns the pages' items in order, and sleeps once between two
    requests when [delay > 0]. *)
Theorem projects_follow_truthy_cursors {W A : Type}
    (call : string -> W -> Completion (Pagination.CursorResponse A) * W)
    (encodeURIComponent : string -> string) (delay : Z)
    (pages : list (option string * list A)) (w w' : W) (fuel : nat) :
  Pagination.serves call (Pagination.sidebar_url encodeURIComponent)
    Pagination.truthy None w pages w' ->
  (length pages <= fuel)%nat ->
  exists d,
    Pagination.fetchAllProjects call encodeURIComponent delay fuel w = Some d /\
    Pagination.collected d = Returned (concat (map snd pages)) /\
    Pagination.requests (Pagination.trace d) =
      map (fun p => Pagination.sidebar_url encodeURIComponent (fst p)) pages /\
    Pagination.sleeps (Pagination.trace d) =
      (if (0 <? delay)%Z then length pages - 1 else 0)%nat /\
    Pagination.world d = w'.
Proof.
  intros Hserves Hfuel.
  destruct (PaginationFacts.sidebar_loop_serves call encodeURIComponent delay
              None w pages w' Hserves fuel [] [] Hfuel)
    as (d & Hrun & Hy & Ht & Hw & Hr & Hs).
  exists d. split; [exact Hrun |].
  unfold Pagination.collected. rewrite Ht, Hy. repeat split; assumption.
Qed.

Lemma projects_follow_truthy_cursors_witness :
  exists d,
    Pagination.fetchAllProjects Cases.sidebar_server Cases.plain 500 2 0%nat = Some d /\
    Pagination.collected d =
      Returned [Pagination.mkProject "g-1" "Research"; Pagination.mkProject "g-2" "Travel";
                Pagination.mkProject "g-3" "Recipes"] /\
    Pagination.requests (Pagination.trace d) =
      ["/backend-api/gizmos/snorlax/sidebar";
       "/backend-api/gizmos/snorlax/sidebar?cursor=next"] /\
    Pagination.sleeps (Pagination.trace d) = 1%nat.
Proof.
  destruct (projects_follow_truthy_cursors Cases.sidebar_server Cases.plain 500
              [(None, [Pagination.mkProject "g-1" "Research";
                       Pagination.mkProject "g-2" "Travel"]);
               (Some "next", [Pagination.mkProject "g-3" "Recipes"])]
              0%nat 2%nat 2)
    as (d & Hrun & Hc & Hr & Hs & _).
  - eapply Pagination.serves_more; [reflexivity | reflexivity |].
    eapply Pagination.serves_last; reflexivity.
  - cbn. lia.
  - exists d. repeat split; assumption.
Defined.

(** * Facts about the progress of a backup *)

Module BackupProgress.
Import Backup BackupTrace.

Lemma reported_app (a b : list Notice) : reported (a ++ b) = reported a ++ reported b.
Proof. apply omap_app. Qed.

Lemma counting_S (total k : nat) :
  counting total (S k) = counting total k ++ [(S k, total)].
Proof. unfold counting. now rewrite seq_S, map_app. Qed.

Section Run.
Variable Date_getTime : string -> float.
Variable storage : Storage.
Variable options : BackupOptions.
Variable conversations : list ConversationItem.

Abbreviation n := (length conversations).
Abbreviation skips := (fun conv => incremental options && unchanged Date_getTime storage conv).

Abbreviation in_step := (BackupTrace.in_step n).

Lemma diff_in_step (l : list ConversationItem) : forall v toDownload,
  in_step v ->
  let r := fold_left (diff_step Date_getTime storage options n) l (v, toDownload) in
  in_step (fst r)
  /\ completed (fst r) = (completed v + length (List.filter skips l))%nat.
Proof.
  induction l as [|conv rest IH]; intros v toDownload Hv; cbn zeta.
  - cbn. split; [exact Hv | lia].
  - cbn [fold_left List.filter].
    change (diff_step Date_getTime storage options n (v, toDownload) conv)
      with (if skips conv
            then (mkVars (downloaded v) (S (skipped v)) (failed v) (S (completed v))
                    (errors v)
                    (notices v ++ [OnDownloadProgress (S (completed v)) n (current conv)]),
                  toDownload)
            else (v, toDownload ++ [conv])).
    destruct (incremental options && unchanged Date_getTime storage conv).
    + edestruct (IH (mkVars (downloaded v) (S (skipped v)) (failed v) (S (completed v))
                      (errors v)
                      (notices v ++ [OnDownloadProgress (S (completed v)) n (current conv)]))
                  toDownload) as [Hstep Hc].
      * destruct Hv as [Hrep Herr]. split; cbn [notices completed errors failed]; [| exact Herr].
        rewrite reported_app, Hrep, counting_S. reflexivity.
      * cbn zeta in Hstep, Hc. split; [exact Hstep |]. rewrite Hc. cbn. lia.
    + destruct (IH v (toDownload ++ [conv]) Hv) as [Hstep Hc].
      cbn zeta in Hstep, Hc. split; [exact Hstep |]. rewrite Hc. cbn. lia.
Qed.

Lemma resume_in_step conv t a v t' v' :
  in_step v ->
  processOne_resume options n conv t a v = Some (t', v') ->
  in_step v'.
Proof.
  intros [Hrep Herr] H. unfold in_step.
  destruct t, a; cbn in H; DownloadFacts.crack H; injection H as <- <-;
    cbn [notices completed errors failed];
    rewrite ?reported_app, ?length_app, ?Hrep, ?counting_S; cbn [reported omap is_progress length];
    rewrite ?app_nil_r; (split; [reflexivity | lia]).
Qed.

(** [completed] moves exactly when [processOne] passes its [finally]. *)
Lemma resume_completed conv t a v t' v' :
  processOne_resume options n conv t a v = Some (t', v') ->
  (completed v' + (if finished t' then 0 else 1)
   = completed v + (if finished t then 0 else 1))%nat.
Proof.
  intros H.
  destruct t, a; cbn in H; DownloadFacts.crack H; injection H as <- <-; cbn; lia.
Qed.

Lemma run_in_step st :
  reachable Date_getTime storage options conversations st ->
  in_step (Pool.shared st).
Proof.
  intros Hreach. apply BackupFacts.reachable_pool in Hreach.
  apply (PoolFacts.reachable_shared _ _ _ _ _ _ _ in_step) in Hreach; [exact Hreach | |].
  - intros conv t a v t' v' _ Hv H. now apply (resume_in_step conv t a v t' v' Hv H).
  - apply (diff_in_step conversations (mkVars 0 0 0 0 [] []) []). split; reflexivity.
Qed.

Lemma run_completes st :
  reachable Date_getTime storage options conversations st ->
  (completed (Pool.shared st)
   + Pool.in_flight (fun t => negb (finished t)) st
   + length (Pool.queue st) = n)%nat.
Proof.
  intros Hreach. apply BackupFacts.reachable_pool in Hreach.
  apply (PoolFacts.reachable_accounted _ _ _ _ _ completed finished (fun _ => True))
    in Hreach.
  - destruct Hreach as [Hsum _].
    destruct (diff_in_step conversations (mkVars 0 0 0 0 [] []) [])
      as [_ Hc]; [split; reflexivity |].
    cbn zeta in Hc. unfold diff in Hsum. rewrite Hc in Hsum. cbn [completed Nat.add] in Hsum.
    pose proof (BackupFacts.length_partition Date_getTime storage options conversations).
    lia.
  - intros conv. split; [reflexivity | exact I].
  - intros conv t a v t' v' _ _ H. split; [exact I |].
    now apply (resume_completed conv t a v t' v' H).
  - intros t _ Hsettled. now destruct t.
Qed.

End Run.

End BackupProgress.

(** X13. In every state of the download loop of [backup], verbose or not
    and whatever failed, [onDownloadProgress] has been called with
    [completed = 1, 2, ...] in this order and always with the length of the
    listing as total, once per conversation skipped or gone through
    [processOne]; [errors] has one entry per failure counted; and when the
    loop is left every listed conversation has been reported exactly
    once. *)
Theorem backup_progress_counts_each_conversation_once
    (Date_getTime : string -> float) (storage : gmap string Backup.StoredFile)
    (options : Backup.BackupOptions) (conversations : list ConversationItem)
    (st : Backup.PoolState) :
  Backup.reachable Date_getTime storage options conversations st ->
  BackupTrace.reported (Backup.notices (Pool.shared st))
  = BackupTrace.counting (length conversations) (Backup.completed (Pool.shared st))
  /\ length (Backup.errors (Pool.shared st)) = Backup.failed (Pool.shared st)
  /\ (Backup.completed (Pool.shared st) <= length conversations)%nat
  /\ (Pool.pc st = Pool.Exited ->
      Backup.completed (Pool.shared st) = length conversations).
Proof.
  intros Hreach.
  destruct (BackupProgress.run_in_step _ _ _ _ st Hreach) as [Hrep Herr].
  pose proof (BackupProgress.run_completes _ _ _ _ st Hreach) as Hsum.
  repeat split; [exact Hrep | exact Herr | lia |].
  intros Hpc. apply BackupFacts.reachable_pool in Hreach.
  destruct (PoolFacts.exited_all_started _ _ _ _ _ _ _ _ Hreach Hpc) as [_ Hl].
  destruct (PoolFacts.reachable_invariants _ _ _ _ _ _ _ _ Hreach)
    as (_ & _ & _ & Hdrained).
  destruct (Hdrained Hpc) as [Hq _].
  unfold Pool.in_flight in Hsum. rewrite Hl, Hq in Hsum. cbn in Hsum. lia.
Qed.

Lemma backup_progress_counts_each_conversation_once_witness :
  exists st,
    Backup.reachable Scenarios.epoch Scenarios.disk Scenarios.verboseOptions
      [Scenarios.c2] st
    /\ Pool.pc st = Pool.Exited
    /\ BackupTrace.reported (Backup.notices (Pool.shared st)) = [(1%nat, 1%nat)]
    /\ Backup.downloaded (Pool.shared st) = 1%nat
    /\ Backup.failed (Pool.shared st) = 1%nat.
Proof.
  eexists. split; [exists Scenarios.verboseSchedule; vm_compute; reflexivity |].
  split; [reflexivity |]. split; [| split; reflexivity].
  refine (proj1 (backup_progress_counts_each_conversation_once Scenarios.epoch
                   Scenarios.disk Scenarios.verboseOptions [Scenarios.c2] _ _)).
  exists Scenarios.verboseSchedule. vm_compute. reflexivity.
Defined.

(** X14. An incremental backup over a listing whose conversations all have
    an up-to-date stored copy starts no download at all: the download loop
    is left at its first test with nothing queued, started or in flight,
    and the run returns, every conversation counted as skipped and none as
    downloaded or failed. *)
Theorem unchanged_listing_downloads_nothing
    (Date_getTime : string -> float) (storage : gmap string Backup.StoredFile)
    (options : Backup.BackupOptions) (conversations : list ConversationItem) :
  Backup.incremental options = true ->
  (forall conv, In conv conversations -> Backup.up_to_date Date_getTime storage conv) ->
  let r0 := Backup.mkResult (length conversations) 0 (length conversations) 0 [] in
  Backup.backup Date_getTime storage options conversations r0
  /\ (forall r, Backup.backup Date_getTime storage options conversations r -> r = r0)
  /\ (forall st, Backup.reachable Date_getTime storage options conversations st ->
        Pool.started st = [] /\ Pool.queue st = [] /\ Pool.inProgress st = []).
Proof.
  intros Hinc Hall r0.
  assert (Hskips : forall conv, In conv conversations ->
            Backup.incremental options && Backup.unchanged Date_getTime storage conv = true).
  { intros conv Hin. rewrite Hinc. cbn. apply unchanged_up_to_date. now apply Hall. }
  assert (Hnone : List.filter
            (fun conv => negb (Backup.incremental options
                               && Backup.unchanged Date_getTime storage conv))
            conversations = []).
  { clear - Hskips. induction conversations as [|conv rest IH]; [reflexivity |].
    cbn. rewrite (Hskips conv) by now left. cbn. apply IH.
    intros c Hc. apply Hskips. now right. }
  assert (Hsome : length (List.filter
            (fun conv => Backup.incremental options
                         && Backup.unchanged Date_getTime storage conv)
            conversations) = length conversations).
  { pose proof (BackupFacts.length_partition Date_getTime storage options conversations) as Hp.
    cbv beta in Hp. rewrite Hnone in Hp. cbn in Hp. lia. }
  destruct (BackupFacts.diff_spec Date_getTime storage options conversations)
    as (Hsnd & Hsk & Hd & Hf).
  rewrite Hnone in Hsnd. rewrite Hsome in Hsk.
  assert (Hstates : forall st,
            Backup.reachable Date_getTime storage options conversations st ->
            Pool.started st = [] /\ Pool.queue st = [] /\ Pool.inProgress st = []
            /\ Pool.shared st = fst (Backup.diff Date_getTime storage options conversations)).
  { intros st Hreach. apply BackupFacts.reachable_pool in Hreach. rewrite Hnone in Hreach.
    destruct (PoolFacts.reachable_invariants _ _ _ _ _ _ _ _ Hreach)
      as (_ & _ & [Hitems Hflight] & _).
    apply app_eq_nil in Hitems as [Hs Hq].
    assert (Pool.inProgress st = []) as Hl.
    { destruct (Pool.inProgress st) as [|entry rest]; [reflexivity |].
      inversion Hflight as [|? ? Hin _]. rewrite Hs in Hin. destruct Hin. }
    repeat split; try assumption.
    apply (PoolFacts.reachable_shared _ _ _ _ _ _ _
             (fun v => v = fst (Backup.diff Date_getTime storage options conversations)))
      in Hreach; [exact Hreach | | reflexivity].
    intros item task a sh1 task' sh2 []. }
  assert (Hresult : forall st,
            Backup.reachable Date_getTime storage options conversations st ->
            Backup.finish conversations None None st = Returned r0).
  { intros st Hreach. destruct (Hstates st Hreach) as (_ & _ & _ & Hsh).
    destruct (BackupProgress.run_in_step _ _ _ _ st Hreach) as [_ Herr].
    cbn. rewrite Hsh in *. rewrite Hsk, Hd, Hf. rewrite Hf in Herr.
    apply length_zero_iff_nil in Herr. rewrite Herr. reflexivity. }
  assert (Hrun : Backup.reachable Date_getTime storage options conversations
            (Pool.set_pc (Backup.enter Date_getTime storage options conversations)
               Pool.Exited)).
  { exists [Pool.Main]. rewrite BackupFacts.enter_diff, Hsnd. reflexivity. }
  split; [| split].
  - eexists. split; [exact Hrun |]. split; [reflexivity |]. now apply Hresult.
  - intros r (st & Hreach & _ & Hr). rewrite (Hresult st Hreach) in Hr.
    now injection Hr as <-.
  - intros st Hreach. destruct (Hstates st Hreach) as (Hs & Hq & Hl & _). now repeat split.
Qed.

Lemma unchanged_listing_downloads_nothing_witness :
  Backup.backup Scenarios.epoch Scenarios.disk Scenarios.incrementalOptions
    [Scenarios.c1] (Backup.mkResult 1 0 1 0 []).
Proof.
  refine (proj1 (unchanged_listing_downloads_nothing Scenarios.epoch Scenarios.disk
                   Scenarios.incrementalOptions [Scenarios.c1] _ _)).
  - reflexivity.
  - intros conv [<- | []]. exists 100%float, 100%float. repeat split; reflexivity.
Defined.

(** * Facts about projects and the failure memory *)

Module ProjectFacts.
Import Pagination Projects.

(** [find] returns the first element that satisfies the predicate. *)
Lemma find_first {A : Type} (f : A -> bool) (l : list A) (x : A) :
  find f l = Some x <->
  exists before after,
    l = before ++ x :: after /\ f x = true /\ Forall (fun y => f y = false) before.
Proof.
  split.
  - induction l as [|y rest IH]; [discriminate |].
    cbn. destruct (f y) eqn:Hy.
    + intros [= <-]. exists [], rest. repeat split; [exact Hy | constructor].
    + intros Hfind. destruct (IH Hfind) as (before & after & -> & Hx & Hbefore).
      exists (y :: before), after. repeat split; [exact Hx | now constructor].
  - intros (before & after & -> & Hx & Hbefore).
    induction Hbefore as [|y before Hy _ IH]; cbn.
    + now rewrite Hx.
    + now rewrite Hy.
Qed.

Lemma find_ext_in {A : Type} (f g : A -> bool) (l : list A) :
  (forall x, In x l -> f x = g x) -> find f l = find g l.
Proof.
  induction l as [|y rest IH]; intros Hfg; [reflexivity |].
  cbn. rewrite (Hfg y) by now left.
  destruct (g y); [reflexivity |]. apply IH. intros x Hx. apply Hfg. now right.
Qed.

Lemma safe_underscore : safe 95 = true.
Proof. reflexivity. Qed.

End ProjectFacts.

(** X15. [resolveProjectId] resolves a query to the first listed project
    whose identifier is the query or whose display name equals it up to
    case, whatever comes later in the list, and throws when the listing
    threw or no project matches.  Two queries that differ only in case
    resolve to the same project when neither is the identifier of a listed
    project. *)
Theorem project_resolved_by_first_match (toLowerCase : string -> string)
    (projects : list Pagination.SidebarItem) (nameOrId : string) :
  (forall id name,
     Projects.resolveProjectId toLowerCase (Returned projects) nameOrId
     = Returned (id, name)
     <-> exists before p after,
           projects = before ++ p :: after
           /\ Projects.matches toLowerCase nameOrId p = true
           /\ Forall (fun q => Projects.matches toLowerCase nameOrId q = false) before
           /\ id = Pagination.gizmo_id p /\ name = Pagination.gizmo_name p)
  /\ (Forall (fun q => Projects.matches toLowerCase nameOrId q = false) projects ->
      Projects.resolveProjectId toLowerCase (Returned projects) nameOrId
      = Threw (Some (Projects.notFound nameOrId projects)))
  /\ (forall other found,
        toLowerCase other = toLowerCase nameOrId ->
        Forall (fun q => Pagination.gizmo_id q <> nameOrId
                         /\ Pagination.gizmo_id q <> other) projects ->
        Projects.resolveProjectId toLowerCase (Returned projects) nameOrId
        = Returned found ->
        Projects.resolveProjectId toLowerCase (Returned projects) other
        = Returned found).
Proof.
  split; [| split].
  - intros id name. unfold Projects.resolveProjectId. split.
    + destruct (find _ projects) as [p|] eqn:Hfind; [| discriminate].
      intros [= <- <-]. apply ProjectFacts.find_first in Hfind
        as (before & after & Hl & Hp & Hbefore).
      exists before, p, after. now repeat split.
    + intros (before & p & after & Hl & Hp & Hbefore & -> & ->).
      assert (find (Projects.matches toLowerCase nameOrId) projects = Some p) as ->
        by (apply ProjectFacts.find_first; exists before, after; now repeat split).
      reflexivity.
  - intros Hnone. unfold Projects.resolveProjectId.
    destruct (find _ projects) as [p|] eqn:Hfind; [| reflexivity].
    apply find_some in Hfind as [Hin Hp].
    rewrite List.Forall_forall in Hnone. rewrite (Hnone p Hin) in Hp. discriminate.
  - intros other found Hcase Hids. unfold Projects.resolveProjectId.
    rewrite (ProjectFacts.find_ext_in (Projects.matches toLowerCase other)
               (Projects.matches toLowerCase nameOrId)); [now destruct (find _ projects) |].
    intros p Hp. rewrite List.Forall_forall in Hids. destruct (Hids p Hp) as [Hn Ho].
    unfold Projects.matches. rewrite Hcase.
    apply String.eqb_neq in Hn, Ho. now rewrite Hn, Ho.
Qed.

(** X16. The directory name [StorageService] derives from a project name
    has as many code units as the name, all of them in [[a-zA-Z0-9_-]]: it
    holds no path separator and no dot, so the directory stays one level
    below [projects/]; a name that is already of this form is kept as it
    is, and sanitising twice changes nothing more. *)
Theorem project_directory_name_is_safe (projectName : Projects.CodeUnits) :
  length (Projects.safeName projectName) = length projectName
  /\ Forall (fun c => Projects.safe c = true) (Projects.safeName projectName)
  /\ (forall c, In c (Projects.safeName projectName) ->
        c <> 47%N /\ c <> 92%N /\ c <> 46%N /\ c <> 0%N)
  /\ (Forall (fun c => Projects.safe c = true) projectName ->
      Projects.safeName projectName = projectName)
  /\ Projects.safeName (Projects.safeName projectName) = Projects.safeName projectName.
Proof.
  assert (Hsafe : Forall (fun c => Projects.safe c = true) (Projects.safeName projectName)).
  { unfold Projects.safeName. apply List.Forall_forall. intros c Hc.
    apply in_map_iff in Hc as (c0 & <- & _).
    destruct (Projects.safe c0) eqn:Hc0; [exact Hc0 | reflexivity]. }
  assert (Hfix : forall name, Forall (fun c => Projects.safe c = true) name ->
                              Projects.safeName name = name).
  { intros name Hname. unfold Projects.safeName.
    induction Hname as [|c rest Hc _ IH]; [reflexivity |].
    cbn. now rewrite Hc, IH. }
  repeat split.
  - unfold Projects.safeName. apply length_map.
  - exact Hsafe.
  - rewrite List.Forall_forall in Hsafe. apply Hsafe in H. intros ->. discriminate.
  - rewrite List.Forall_forall in Hsafe. apply Hsafe in H. intros ->. discriminate.
  - rewrite List.Forall_forall in Hsafe. apply Hsafe in H. intros ->. discriminate.
  - rewrite List.Forall_forall in Hsafe. apply Hsafe in H. intros ->. discriminate.
  - apply Hfix.
  - now apply Hfix.
Qed.

(** * Facts about the failure memory *)

Module MemoryFacts.
Import Cli.

Lemma NoDup_snoc {A : Type} (l : list A) (x : A) :
  List.NoDup l -> ~ In x l -> List.NoDup (l ++ [x]).
Proof.
  induction 1 as [|y l Hy Hl IH]; intros Hx; cbn.
  - constructor; [intros [] | constructor].
  - constructor.
    + rewrite in_app_iff. intros [Hin | [-> | []]]; [now apply Hy | apply Hx; now left].
    + apply IH. intros Hin. apply Hx. now right.
Qed.

Lemma Set_add_elements (elements : list string) (x id : string) :
  In id (Set_add elements x) <-> In id elements \/ id = x.
Proof.
  unfold Set_add. destruct (existsb (String.eqb x) elements) eqn:Hin.
  - apply existsb_exists in Hin as (y & Hy & Heq). apply String.eqb_eq in Heq. subst y.
    split; [now left | intros [H | ->]; assumption].
  - rewrite in_app_iff. cbn. split.
    + intros [H | [<- | []]]; [now left | now right].
    + intros [H | ->]; [now left | right; now left].
Qed.

Lemma Set_add_NoDup (elements : list string) (x : string) :
  List.NoDup elements -> List.NoDup (Set_add elements x).
Proof.
  intros Hnodup. unfold Set_add.
  destruct (existsb (String.eqb x) elements) eqn:Hin; [exact Hnodup |].
  apply NoDup_snoc; [exact Hnodup |].
  intros Hx. assert (existsb (String.eqb x) elements = true) as Hyes
    by (apply existsb_exists; exists x; split; [exact Hx | apply String.eqb_refl]).
  congruence.
Qed.

Lemma fold_Set_add (l : list string) : forall elements,
  List.NoDup elements ->
  List.NoDup (fold_left Set_add l elements)
  /\ (forall id, In id (fold_left Set_add l elements) <-> In id elements \/ In id l).
Proof.
  induction l as [|x l IH]; intros elements Hnodup; cbn [fold_left].
  - split; [exact Hnodup |]. intros id. cbn. tauto.
  - destruct (IH (Set_add elements x) (Set_add_NoDup elements x Hnodup)) as [Hn Hin].
    split; [exact Hn |]. intros id. rewrite Hin, Set_add_elements. cbn.
    split; [intros [[H | ->] | H] | intros [H | [-> | H]]]; auto.
Qed.

(** The set spread is the set loaded, each identifier once. *)
Lemma spread_loaded (persisted : option (list string)) :
  List.NoDup (spread persisted)
  /\ (forall id, In id (spread persisted) <-> id ∈ loadFailedFiles persisted).
Proof.
  destruct persisted as [failedFiles|]; cbn [spread loadFailedFiles].
  - destruct (fold_Set_add failedFiles [] (List.NoDup_nil _)) as [Hn Hin].
    split; [exact Hn |]. intros id. rewrite Hin, elem_of_list_to_set, list_elem_of_In.
    cbn. tauto.
  - split; [constructor |]. intros id. cbn. rewrite elem_of_empty. tauto.
Qed.

Lemma spread_set (persisted : option (list string)) :
  list_to_set (spread persisted) = loadFailedFiles persisted.
Proof.
  apply set_eq. intros id. rewrite elem_of_list_to_set, list_elem_of_In.
  apply spread_loaded.
Qed.

End MemoryFacts.

(** X17. [backup] saves its metadata by writing [metadata.json] anew, so
    the failure memory does not survive a backup: whatever the file held
    before, [runFileDownloads] run after a backup into the same output
    directory (as [backupCommand] does) loads an empty memory, reports no
    reference as previously failed, and hands every scanned reference to
    the batch: when [downloadFiles] leaves its loop, [processOne] has been
    started on each of them, those that failed in an earlier run included;
    and the memory persisted afterwards holds the failures of this batch
    only. *)
Theorem failure_memory_lost_after_backup (file : Metadata.MetadataFile)
    (now : string) (r : Backup.BackupResult)
    (refs : list FileService.FileReference) (concurrency delay : Z) (verbose : bool) :
  let file' := Metadata.saveMetadata file (Metadata.metadataOf now r) in
  let skipFileIds := Metadata.loadFailedFiles file' in
  let options := Cli.downloadOptions concurrency delay verbose skipFileIds in
  skipFileIds = ∅
  /\ Cli.skippedKnown refs skipFileIds = 0%nat
  /\ (forall st, Download.reachable refs options st -> Pool.pc st = Pool.Exited ->
        Pool.started st = refs)
  /\ (forall result,
        Metadata.persisted (Metadata.runFileDownloads_saves file' result)
        = Some (Download.res_failedFileIds result)).
Proof.
  cbn zeta. split; [reflexivity |]. split; [reflexivity |]. split.
  - intros st Hreach Hpc.
    now destruct (PoolFacts.exited_all_started _ _ _ _ _ _ _ _ Hreach Hpc).
  - intros result. reflexivity.
Qed.

(** X18. Between two runs of [runFileDownloads] with no backup in between,
    the memory only grows: what the second run loads is what the first
    loaded together with what failed in its batch, and the other keys of
    [metadata.json] are kept. *)
Theorem failure_memory_round_trip (file : Metadata.MetadataFile)
    (result : Download.FileDownloadResult) :
  Metadata.loadFailedFiles (Metadata.runFileDownloads_saves file result)
  = Metadata.loadFailedFiles file ∪ list_to_set (Download.res_failedFileIds result)
  /\ Metadata.backupOf (Metadata.runFileDownloads_saves file result)
     = Metadata.backupOf file.
Proof.
  split.
  - unfold Metadata.runFileDownloads_saves, Metadata.loadFailedFiles, Cli.allFailed.
    rewrite <- (MemoryFacts.spread_set (Metadata.persisted file)).
    destruct file as [|backup failedFiles]; cbn [Metadata.saveFailedFiles Metadata.persisted
                                                   Cli.loadFailedFiles];
      now rewrite list_to_set_app_L, MemoryFacts.spread_set.
  - now destruct file.
Qed.

(** * Facts about the files on disk *)

Module TreeFacts.
Import Tree.

Section Induction.
Variable P : Entry -> Prop.
Hypothesis on_file : P File.
Hypothesis on_directory : forall entries,
  List.Forall (fun entry => P (snd entry)) entries -> P (Directory entries).
Hypothesis on_unreadable : P Unreadable.
Hypothesis on_other : P Other.

Lemma Entry_nested_ind (e : Entry) : P e.
Proof.
  revert e. fix IH 1.
  intros [|entries| |]; [exact on_file | | exact on_unreadable | exact on_other].
  apply on_directory.
  induction entries as [|[name c] rest IHrest]; constructor; [apply IH | exact IHrest].
Qed.

End Induction.

Section Paths.
Variable path_join : string -> string -> string.
Hypothesis join_nonempty : forall a b, a <> "" -> path_join a b <> "".

Lemma truthy_iff (s : string) : FileService.truthy s = true <-> s <> "".
Proof.
  unfold FileService.truthy. rewrite negb_true_iff. apply String.eqb_neq.
Qed.

(** On a well-named tree the skip check and the search agree, and what the
    search returns is the non-empty path of a file. *)
Lemma search_agrees (e : Entry) :
  well_named e = true ->
  (dirHasFiles e = true <-> exists p, findFirstFile path_join e = Some p)
  /\ (forall p, findFirstFile path_join e = Some p ->
        p <> "" /\ locates path_join e p).
Proof.
  induction e as [|entries IH| |] using Entry_nested_ind; intros Hnamed;
    try (split; [split; [discriminate | intros [p Hp]; discriminate] | discriminate]).
  cbn [dirHasFiles findFirstFile well_named] in *.
  induction entries as [|[name c] rest IHrest].
  - split; [split; [discriminate | intros [p Hp]; discriminate] | discriminate].
  - cbn [existsb first_some forallb fst snd] in *.
    apply andb_prop in Hnamed as [Hhead Hrest].
    apply andb_prop in Hhead as [Hname Hc].
    apply truthy_iff in Hname.
    inversion IH as [|? ? IHc IHtail]; subst.
    destruct (IHrest IHtail Hrest) as [Hiff Hloc]. cbn [snd] in IHc.
    destruct (IHc Hc) as [Hciff Hcloc].
    assert (Hlift : forall p, locates path_join (Directory rest) p ->
                              locates path_join (Directory ((name, c) :: rest)) p).
    { intros p Hp. inversion Hp; subst.
      - apply locates_file. now right.
      - eapply locates_nested; [right; eassumption | assumption]. }
    destruct c as [|sub| |].
    + split.
      * split; [intros _; now exists name | reflexivity].
      * intros p [= <-]. split; [exact Hname | apply locates_file; now left].
    + destruct (findFirstFile path_join (Directory sub)) as [nested|] eqn:Hnested.
      * destruct (Hcloc nested eq_refl) as [Hne Hl].
        apply truthy_iff in Hne. rewrite Hne.
        assert (dirHasFiles (Directory sub) = true) as -> by (apply Hciff; now exists nested).
        split.
        -- split; [intros _; eexists; reflexivity | reflexivity].
        -- intros p [= <-]. split; [now apply join_nonempty |].
           eapply locates_nested; [now left | exact Hl].
      * assert (dirHasFiles (Directory sub) = false) as ->.
        { apply not_true_is_false. intros Hd.
          apply Hciff in Hd as [p Hp]. discriminate. }
        cbn [orb]. split; [exact Hiff |].
        intros p Hp. destruct (Hloc p Hp) as [Hne Hl]. split; [exact Hne | now apply Hlift].
    + cbn. split; [exact Hiff |].
      intros p Hp. destruct (Hloc p Hp) as [Hne Hl]. split; [exact Hne | now apply Hlift].
    + cbn. split; [exact Hiff |].
      intros p Hp. destruct (Hloc p Hp) as [Hne Hl]. split; [exact Hne | now apply Hlift].
Qed.

Abbreviation linked := (Tree.linked path_join).

Lemma map_step_linked (fileMap : gmap string string) (entry : string * Entry) :
  map_step path_join fileMap entry
  = match linked entry with
    | Some p => <[fst entry := p]> fileMap
    | None => fileMap
    end.
Proof.
  unfold map_step, Tree.linked. destruct (isDirectory (snd entry)); [| reflexivity].
  destruct (findFirstFile path_join (snd entry)) as [rel|]; [| reflexivity].
  now destruct (FileService.truthy rel).
Qed.

Lemma fold_lookup (entries : list (string * Entry)) : forall fileMap id p,
  fold_left (map_step path_join) entries fileMap !! id = Some p ->
  fileMap !! id = Some p
  \/ exists e, In (id, e) entries /\ linked (id, e) = Some p.
Proof.
  induction entries as [|[name c] rest IH]; intros fileMap id p Hp; [now left |].
  cbn [fold_left] in Hp. apply IH in Hp as [Hp | (e & Hin & He)].
  - rewrite map_step_linked in Hp. cbn [fst] in Hp.
    destruct (linked (name, c)) as [q|] eqn:Hq; [| now left].
    destruct (decide (name = id)) as [-> | Hne].
    + rewrite lookup_insert_eq in Hp. injection Hp as ->.
      right. exists c. split; [now left | exact Hq].
    + rewrite lookup_insert_ne in Hp by exact Hne. now left.
  - right. exists e. split; [now right | exact He].
Qed.

Lemma fold_keeps (entries : list (string * Entry)) : forall fileMap id,
  is_Some (fileMap !! id) ->
  is_Some (fold_left (map_step path_join) entries fileMap !! id).
Proof.
  induction entries as [|[name c] rest IH]; intros fileMap id Hid; [exact Hid |].
  cbn [fold_left]. apply IH. rewrite map_step_linked. cbn [fst].
  destruct (linked (name, c)) as [q|]; [| exact Hid].
  destruct (decide (name = id)) as [-> | Hne].
  - rewrite lookup_insert_eq. now eexists.
  - now rewrite lookup_insert_ne.
Qed.

Lemma fold_adds (entries : list (string * Entry)) : forall fileMap id e p,
  In (id, e) entries -> linked (id, e) = Some p ->
  is_Some (fold_left (map_step path_join) entries fileMap !! id).
Proof.
  induction entries as [|[name c] rest IH]; intros fileMap id e p Hin He; [destruct Hin |].
  cbn [fold_left]. destruct Hin as [[= -> ->] | Hin].
  - apply fold_keeps. rewrite map_step_linked, He. cbn [fst].
    rewrite lookup_insert_eq. now eexists.
  - now apply (IH _ id e p).
Qed.

Lemma well_named_entry (entries : list (string * Entry)) (id : string) (e : Entry) :
  well_named (Directory entries) = true -> In (id, e) entries ->
  id <> "" /\ well_named e = true.
Proof.
  cbn [well_named]. rewrite forallb_forall. intros Hall Hin.
  apply Hall in Hin. cbn [fst snd] in Hin. apply andb_prop in Hin as [Hid He].
  split; [now apply truthy_iff | exact He].
Qed.

Lemma linked_iff (id : string) (e : Entry) :
  well_named e = true ->
  (is_Some (linked (id, e)) <-> dirHasFiles e = true)
  /\ (forall p, linked (id, e) = Some p ->
        exists rel, locates path_join e rel
                    /\ p = path_join (path_join "files" id) rel).
Proof.
  intros He. destruct (search_agrees e He) as [Hiff Hloc].
  unfold Tree.linked. cbn [fst snd]. split.
  - split.
    + intros [p Hp]. destruct (isDirectory e); [| discriminate].
      destruct (findFirstFile path_join e) as [rel|]; [| discriminate].
      apply Hiff. now exists rel.
    + intros Hd. assert (isDirectory e = true) as -> by (now destruct e).
      apply Hiff in Hd as [rel Hrel]. rewrite Hrel.
      destruct (Hloc rel Hrel) as [Hne _]. apply truthy_iff in Hne. rewrite Hne. now eexists.
  - intros p Hp. destruct (isDirectory e); [| discriminate].
    destruct (findFirstFile path_join e) as [rel|] eqn:Hrel; [| discriminate].
    destruct (FileService.truthy rel); [| discriminate]. injection Hp as <-.
    exists rel. split; [now apply Hloc | reflexivity].
Qed.

End Paths.

End TreeFacts.

(** X19. On a directory tree without empty names, the check by which
    [downloadFiles] takes a file for downloaded ([dirHasFiles]) and the
    search by which the conversion finds the file to link to
    ([findFirstFile]) agree: the directory has a file, at whatever depth,
    exactly when the search returns a path, and that path is not empty and
    leads from the directory to a regular file.  Unreadable directories
    and entries that are neither files nor directories count for nothing
    in both. *)
Theorem skip_check_agrees_with_file_search (path_join : string -> string -> string)
    (e : Tree.Entry) :
  (forall a b, a <> "" -> path_join a b <> "") ->
  Tree.well_named e = true ->
  (Tree.dirHasFiles e = true <-> exists p, Tree.findFirstFile path_join e = Some p)
  /\ (forall p, Tree.findFirstFile path_join e = Some p ->
        p <> "" /\ Tree.locates path_join e p).
Proof.
  intros Hjoin Hnamed. now apply TreeFacts.search_agrees.
Qed.

Lemma skip_check_agrees_with_file_search_witness :
  Tree.dirHasFiles Cases.fileDir = true
  <-> exists p, Tree.findFirstFile Cases.posix_join Cases.fileDir = Some p.
Proof.
  refine (proj1 (skip_check_agrees_with_file_search Cases.posix_join Cases.fileDir _ _)).
  - intros a b Ha. destruct a; [contradiction | discriminate].
  - reflexivity.
Defined.

(** X20. [buildFileMap] maps a file identifier exactly when [files/] has
    an entry of that name that holds a file, that is, exactly when
    [downloadFiles] would skip the identifier as downloaded; the path it
    maps it to is [files/<id>/<rel>] for a path [rel] that leads to a
    regular file below that entry. *)
Theorem file_map_lists_downloaded_files (path_join : string -> string -> string)
    (fileIdDirs : list (string * Tree.Entry)) (id : string) :
  (forall a b, a <> "" -> path_join a b <> "") ->
  Tree.well_named (Tree.Directory fileIdDirs) = true ->
  (is_Some (Tree.buildFileMap path_join (Tree.Directory fileIdDirs) !! id)
   <-> exists e, In (id, e) fileIdDirs /\ Tree.dirHasFiles e = true)
  /\ (forall p,
        Tree.buildFileMap path_join (Tree.Directory fileIdDirs) !! id = Some p ->
        exists e rel,
          In (id, e) fileIdDirs /\ Tree.locates path_join e rel
          /\ p = path_join (path_join "files" id) rel).
Proof.
  intros Hjoin Hnamed. cbn [Tree.buildFileMap]. split; [split |].
  - intros [p Hp]. apply TreeFacts.fold_lookup in Hp as [Hp | (e & Hin & He)].
    + rewrite lookup_empty in Hp. discriminate.
    + exists e. split; [exact Hin |].
      destruct (TreeFacts.well_named_entry fileIdDirs id e Hnamed Hin) as [_ Hwe].
      apply (TreeFacts.linked_iff path_join Hjoin id e Hwe). now exists p.
  - intros (e & Hin & Hd).
    destruct (TreeFacts.well_named_entry fileIdDirs id e Hnamed Hin) as [_ Hwe].
    apply (TreeFacts.linked_iff path_join Hjoin id e Hwe) in Hd as [p Hp].
    now apply (TreeFacts.fold_adds path_join fileIdDirs ∅ id e p).
  - intros p Hp. apply TreeFacts.fold_lookup in Hp as [Hp | (e & Hin & He)].
    + rewrite lookup_empty in Hp. discriminate.
    + destruct (TreeFacts.well_named_entry fileIdDirs id e Hnamed Hin) as [_ Hwe].
      destruct (TreeFacts.linked_iff path_join Hjoin id e Hwe) as [_ Hloc].
      destruct (Hloc p He) as (rel & Hrel & ->). now exists e, rel.
Qed.

Lemma file_map_lists_downloaded_files_witness :
  is_Some (Tree.buildFileMap Cases.posix_join (Tree.Directory Cases.filesDir) !! "file-abc")
  <-> exists e, In ("file-abc", e) Cases.filesDir /\ Tree.dirHasFiles e = true.
Proof.
  refine (proj1 (file_map_lists_downloaded_files Cases.posix_join Cases.filesDir
                   "file-abc" _ _)).
  - intros a b Ha. destruct a; [contradiction | discriminate].
  - reflexivity.
Defined.

(** * The loop without workers *)

Module PoolStall.
Import Pool.

Section Stalled.
Context {Item Task Answer Shared : Type}.
Variable start : Item -> Task.
Variable resume : Item -> Task -> Answer -> Shared -> option (Task * Shared).
Variable settled : Task -> Settled.
Variable concurrency delay : Z.
Variable items : list Item.
Variable sh : Shared.
Hypothesis no_worker : concurrency <= 0.
Hypothesis work : items <> [].

(** With nothing allowed in flight and something queued, the loop only
    ever goes from one test to the other. *)
Lemma stalled_step (act : @Action Answer) (st st' : @State Item Task Shared) :
  queue st = items /\ inProgress st = [] /\ started st = [] /\ shared st = sh
  /\ suspended (pc st) = false ->
  step start resume settled concurrency delay act st = Some st' ->
  act = Main
  /\ queue st' = items /\ inProgress st' = [] /\ started st' = [] /\ shared st' = sh
  /\ suspended (pc st') = false.
Proof.
  intros (Hq & Hl & Hs & Hsh & Hpc) Hstep.
  destruct act as [| |p a|p|p]; cbn in Hstep.
  - split; [reflexivity |]. unfold main in Hstep.
    destruct (pc st) eqn:Hst; try discriminate.
    + rewrite Hq in Hstep. destruct items as [|item rest]; [contradiction |].
      cbn in Hstep. injection Hstep as <-. cbn. now rewrite Hq, Hl, Hs, Hsh.
    + rewrite Hq in Hstep. destruct items as [|item rest]; [contradiction |].
      unfold size in Hstep. rewrite Hl in Hstep. cbn [length] in Hstep.
      assert ((Z.of_nat 0 <? concurrency) = false) as Hfull by (apply Z.ltb_ge; lia).
      rewrite Hfull in Hstep. cbn in Hstep. injection Hstep as <-. cbn.
      now rewrite Hq, Hl, Hs, Hsh.
  - destruct (pc st); discriminate.
  - rewrite Hpc in Hstep. discriminate.
  - rewrite Hpc in Hstep. discriminate.
  - destruct (pc st); discriminate.
Qed.

Lemma stalled_play (acts : list (@Action Answer)) : forall (st st' : @State Item Task Shared),
  queue st = items /\ inProgress st = [] /\ started st = [] /\ shared st = sh
  /\ suspended (pc st) = false ->
  play start resume settled concurrency delay acts st = Some st' ->
  List.Forall (fun act => act = Main) acts
  /\ queue st' = items /\ inProgress st' = [] /\ started st' = [] /\ shared st' = sh
  /\ suspended (pc st') = false.
Proof.
  induction acts as [|act acts IH]; intros st st' Hinv; cbn.
  - intros [= <-]. split; [constructor | exact Hinv].
  - destruct (step start resume settled concurrency delay act st) as [st1|] eqn:Hst;
      [| discriminate].
    intros Hplay. destruct (stalled_step act st st1 Hinv Hst) as [-> Hinv1].
    destruct (IH st1 st' Hinv1 Hplay) as [Hacts Hinv']. split; [now constructor | exact Hinv'].
Qed.

Lemma stalled_reachable (st : @State Item Task Shared) :
  reachable start resume settled concurrency delay items sh st ->
  queue st = items /\ inProgress st = [] /\ started st = [] /\ shared st = sh
  /\ suspended (pc st) = false.
Proof.
  intros [acts Hplay]. apply stalled_play in Hplay; [apply Hplay |]. now repeat split.
Qed.

End Stalled.

End PoolStall.

(** X21. With [concurrency <= 0] and something to download, neither
    download loop ever starts a worker, awaits anything or ends: in every
    state of [downloadFiles] and of [backup] the queue is the whole batch,
    nothing was started, the loop stands at one of its two tests (it spins
    between them without yielding to the event loop), and no result is ever
    returned. *)
Theorem nonpositive_concurrency_never_returns
    (allRefs : list FileService.FileReference)
    (fileOptions : Download.FileDownloadOptions)
    (Date_getTime : string -> float) (storage : gmap string Backup.StoredFile)
    (backupOptions : Backup.BackupOptions) (conversations : list ConversationItem) :
  (Download.concurrency fileOptions <= 0 ->
   Download.batch allRefs (Download.skipFileIds fileOptions) <> [] ->
   (forall st, Download.reachable allRefs fileOptions st ->
      Pool.queue st = Download.batch allRefs (Download.skipFileIds fileOptions)
      /\ Pool.started st = []
      /\ Pool.suspended (Pool.pc st) = false)
   /\ (forall r, ~ Download.downloadFiles allRefs fileOptions r))
  /\ (Backup.concurrency backupOptions <= 0 ->
      snd (Backup.diff Date_getTime storage backupOptions conversations) <> [] ->
      (forall st, Backup.reachable Date_getTime storage backupOptions conversations st ->
         Pool.queue st = snd (Backup.diff Date_getTime storage backupOptions conversations)
         /\ Pool.started st = []
         /\ Pool.suspended (Pool.pc st) = false)
      /\ (forall r, ~ Backup.backup Date_getTime storage backupOptions conversations r)).
Proof.
  split.
  - intros Hc Hwork.
    assert (Hstate : forall st, Download.reachable allRefs fileOptions st ->
              Pool.queue st = Download.batch allRefs (Download.skipFileIds fileOptions)
              /\ Pool.started st = []
              /\ Pool.suspended (Pool.pc st) = false).
    { intros st Hreach.
      destruct (PoolStall.stalled_reachable _ _ _ _ _ _ _ Hc Hwork st Hreach)
        as (Hq & _ & Hs & _ & Hpc).
      now repeat split. }
    split; [exact Hstate |].
    intros r (st & Hreach & Hpc & _). destruct (Hstate st Hreach) as (_ & _ & Hsusp).
    rewrite Hpc in Hsusp. discriminate.
  - intros Hc Hwork.
    assert (Hstate : forall st,
              Backup.reachable Date_getTime storage backupOptions conversations st ->
              Pool.queue st = snd (Backup.diff Date_getTime storage backupOptions conversations)
              /\ Pool.started st = []
              /\ Pool.suspended (Pool.pc st) = false).
    { intros st [acts Hplay]. rewrite BackupFacts.enter_diff in Hplay.
      destruct (PoolStall.stalled_reachable _ _ _ _ _ _ _ Hc Hwork st
                  (ex_intro _ acts Hplay)) as (Hq & _ & Hs & _ & Hpc).
      now repeat split. }
    split; [exact Hstate |].
    intros r (st & Hreach & Hpc & _). destruct (Hstate st Hreach) as (_ & _ & Hsusp).
    rewrite Hpc in Hsusp. discriminate.
Qed.

Lemma nonpositive_concurrency_never_returns_witness :
  (forall r, ~ Download.downloadFiles [Scenarios.someRef]
                 (Download.mkOptions 0 500 false None) r)
  /\ (forall r, ~ Backup.backup Scenarios.epoch Scenarios.disk
                    (Backup.mkOptions 0 500 true false) Scenarios.listing r).
Proof.
  destruct (nonpositive_concurrency_never_returns [Scenarios.someRef]
              (Download.mkOptions 0 500 false None)
              Scenarios.epoch Scenarios.disk (Backup.mkOptions 0 500 true false)
              Scenarios.listing) as [Hfiles Hbackup].
  split.
  - apply Hfiles; [cbn; lia | discriminate].
  - apply Hbackup; [cbn; lia | vm_compute; discriminate].
Defined.

(** * Runs that finish *)

Module PoolLiveness.
Import Pool PoolRun.

Section Lists.
Context {Item Task : Type}.
Implicit Types (l : list (nat * (Item * Task))) (p : nat).

Lemma lookup_middle p w l1 l2 :
  ~ In p (List.map fst l1) -> lookup p (l1 ++ (p, w) :: l2) = Some w.
Proof.
  induction l1 as [|[q w0] l1 IH]; intros Hp; cbn.
  - now rewrite Nat.eqb_refl.
  - destruct (Nat.eqb q p) eqn:Hq.
    + apply Nat.eqb_eq in Hq. exfalso. apply Hp. now left.
    + apply IH. intros Hin. apply Hp. now right.
Qed.

Lemma replace_middle p w w' l1 l2 :
  ~ In p (List.map fst l1) ->
  replace p w' (l1 ++ (p, w) :: l2) = l1 ++ (p, w') :: l2.
Proof.
  induction l1 as [|[q w0] l1 IH]; intros Hp; cbn.
  - now rewrite Nat.eqb_refl.
  - destruct (Nat.eqb q p) eqn:Hq.
    + apply Nat.eqb_eq in Hq. exfalso. apply Hp. now left.
    + f_equal. apply IH. intros Hin. apply Hp. now right.
Qed.

Lemma delete_head p w l :
  ~ In p (List.map fst l) -> delete p ((p, w) :: l) = l.
Proof.
  intros Hp. unfold delete. cbn [List.filter fst]. rewrite Nat.eqb_refl. cbn [negb].
  now apply (PoolFacts.delete_absent p l).
Qed.

End Lists.

Section Liveness.
Context {Item Task Answer Shared : Type}.
Variable start : Item -> Task.
Variable resume : Item -> Task -> Answer -> Shared -> option (Task * Shared).
Variable settled : Task -> Settled.
Variable concurrency delay : Z.
Variable answers : Item -> list Answer.

Abbreviation State := (@State Item Task Shared).
Abbreviation play := (play start resume settled concurrency delay).
Abbreviation step := (step start resume settled concurrency delay).
Abbreviation alone := (alone start resume settled answers).
Abbreviation after := (after start resume settled answers).
Abbreviation items := (List.map (fun entry : nat * (Item * Task) => fst (snd entry))).
Abbreviation unstarted :=
  (List.Forall (fun entry : nat * (Item * Task) => snd (snd entry) = start (fst (snd entry)))).
Abbreviation fulfilled :=
  (List.Forall (fun entry : nat * (Item * Task) => settled (snd (snd entry)) = Fulfilled)).

Hypothesis a_worker : 1 <= concurrency.
Hypothesis completes : forall item sh, exists t' sh',
  alone item sh = Some (t', sh') /\ settled t' = Fulfilled.

Lemma play_app (a b : list (@Action Answer)) (st : State) :
  play (a ++ b) st = match play a st with Some st1 => play b st1 | None => None end.
Proof.
  revert st. induction a as [|act a IH]; intros st; [reflexivity |].
  cbn. destruct (step act st); [apply IH | reflexivity].
Qed.

Lemma play_then (a b : list (@Action Answer)) (st st1 st2 : State) :
  play a st = Some st1 -> play b st1 = Some st2 -> play (a ++ b) st = Some st2.
Proof. intros Ha Hb. now rewrite play_app, Ha. Qed.

Lemma after_app (l1 l2 : list Item) (sh : Shared) :
  after (l1 ++ l2) sh = after l2 (after l1 sh).
Proof.
  revert sh. induction l1 as [|item l1 IH]; intros sh; [reflexivity |].
  cbn [PoolRun.after app]. destruct (completes item sh) as (t' & sh' & Ha & _).
  rewrite Ha. apply IH.
Qed.

(** A worker in flight driven through its answers while the loop waits. *)
Lemma drive_play (l : list Answer) : forall q l1 l2 fr sh pc started p item t t' sh',
  suspended pc = true ->
  ~ In p (List.map fst l1) ->
  drive resume settled item t l sh = Some (t', sh') ->
  play (List.map (Resume p) l) (mkState q (l1 ++ (p, (item, t)) :: l2) fr sh pc started)
  = Some (mkState q (l1 ++ (p, (item, t')) :: l2) fr sh' pc started).
Proof.
  induction l as [|a l IH]; intros q l1 l2 fr sh pc started p item t t' sh' Hpc Hp Hdrive.
  - cbn in Hdrive. injection Hdrive as <- <-. reflexivity.
  - cbn [drive] in Hdrive.
    destruct (settled t) eqn:Hsettled; try discriminate.
    destruct (resume item t a sh) as [[t1 sh1]|] eqn:Hresume; [| discriminate].
    cbn [List.map Pool.play Pool.step Pool.pc Pool.inProgress Pool.shared Pool.queue
           Pool.fresh Pool.started].
    rewrite Hpc, (lookup_middle p (item, t) l1 l2 Hp), Hsettled, Hresume.
    rewrite (replace_middle p (item, t) (item, t1) l1 l2 Hp).
    now apply IH.
Qed.

(** The workers in flight that have not run yet, run one after the other. *)
Lemma run_workers (todo : list (nat * (Item * Task))) : forall q done fr sh pc started,
  suspended pc = true ->
  List.NoDup (List.map fst (done ++ todo)) ->
  unstarted todo ->
  exists acts finished,
    play acts (mkState q (done ++ todo) fr sh pc started)
    = Some (mkState q (done ++ finished) fr (after (items todo) sh) pc started)
    /\ List.map fst finished = List.map fst todo
    /\ fulfilled finished.
Proof.
  induction todo as [|[p [item t]] todo IH]; intros q done fr sh pc started Hpc Hnodup Hun.
  - exists [], []. repeat split. constructor.
  - inversion Hun as [|? ? Ht Htodo]; subst. cbn [fst snd] in Ht. subst t.
    destruct (completes item sh) as (t' & sh' & Halone & Hful).
    assert (~ In p (List.map fst done)) as Hp.
    { rewrite map_app in Hnodup. cbn in Hnodup.
      apply List.NoDup_remove_2 in Hnodup. intros Hin. apply Hnodup.
      apply in_or_app. now left. }
    pose proof (drive_play (answers item) q done todo fr sh pc started p item
                  (start item) t' sh' Hpc Hp Halone) as Hplay.
    destruct (IH q (done ++ [(p, (item, t'))]) fr sh' pc started Hpc) as
      (acts & finished & Hrest & Hfst & Hfin).
    + rewrite <- app_assoc. cbn [app].
      rewrite !map_app in *. cbn [List.map fst] in *. exact Hnodup.
    + exact Htodo.
    + exists (List.map (Resume p) (answers item) ++ acts), ((p, (item, t')) :: finished).
      rewrite <- app_assoc in Hrest. cbn [app] in Hrest.
      split; [| split].
      * rewrite (play_then _ _ _ _ _ Hplay Hrest). cbn [PoolRun.after List.map fst snd].
        rewrite Halone. now rewrite <- app_assoc.
      * cbn. now rewrite Hfst.
      * constructor; [exact Hful | exact Hfin].
Qed.

(** The [.then] callbacks of the resolved promises empty the set. *)
Lemma then_all (l : list (nat * (Item * Task))) : forall q fr sh pc started,
  suspended pc = true ->
  List.NoDup (List.map fst l) ->
  fulfilled l ->
  play (List.map Then (List.map fst l)) (mkState q l fr sh pc started)
  = Some (mkState q [] fr sh pc started).
Proof.
  induction l as [|[p [item t]] l IH]; intros q fr sh pc started Hpc Hnodup Hful;
    [reflexivity |].
  inversion Hnodup as [|? ? Hp Hrest]; subst.
  inversion Hful as [|? ? Ht Hl]; subst. cbn [fst snd] in Ht.
  cbn [List.map fst Pool.play Pool.step Pool.pc Pool.inProgress Pool.shared Pool.queue
         Pool.fresh Pool.started lookup].
  rewrite Hpc, Nat.eqb_refl, Ht. rewrite (delete_head p (item, t) l Hp).
  now apply IH.
Qed.

(** A full or final set of workers, raced to the end. *)
Lemma drain (l : list (nat * (Item * Task))) q fr sh started :
  l <> [] ->
  q = [] \/ (Z.of_nat (length l) <? concurrency) = false ->
  List.NoDup (List.map fst l) ->
  unstarted l ->
  exists acts,
    play acts (mkState q l fr sh AtInnerTest started)
    = Some (mkState q [] fr (after (items l) sh) AtOuterTest started).
Proof.
  intros Hne Hfull Hnodup Hun.
  destruct (run_workers l q [] fr sh (Racing (List.map fst l)) started eq_refl Hnodup Hun)
    as (acts & finished & Hrun & Hfst & Hfin). cbn [app] in Hrun.
  assert (Hthen := then_all finished q fr (after (items l) sh) (Racing (List.map fst l))
                     started eq_refl).
  rewrite Hfst in Hthen. specialize (Hthen Hnodup Hfin).
  destruct l as [|[p0 w0] l]; [contradiction |].
  exists (Main :: (acts ++ List.map Then (List.map fst ((p0, w0) :: l)))
          ++ [RaceSettled p0]).
  assert (Hmain : step Main (mkState q ((p0, w0) :: l) fr sh AtInnerTest started)
                  = Some (mkState q ((p0, w0) :: l) fr sh
                            (Racing (List.map fst ((p0, w0) :: l))) started)).
  { cbn [Pool.step main Pool.pc Pool.queue]. unfold size. cbn [Pool.inProgress].
    destruct Hfull as [-> | Hfull].
    - reflexivity.
    - destruct q as [|item rest]; [reflexivity |]. rewrite Hfull. reflexivity. }
  assert (Hrace : play [RaceSettled p0]
                    (mkState q [] fr (after (items ((p0, w0) :: l)) sh)
                       (Racing (List.map fst ((p0, w0) :: l))) started)
                  = Some (mkState q [] fr (after (items ((p0, w0) :: l)) sh)
                            AtOuterTest started)).
  { cbn [Pool.play Pool.step Pool.pc existsb List.map fst]. rewrite Nat.eqb_refl.
    reflexivity. }
  cbn [Pool.play]. rewrite Hmain.
  exact (play_then _ _ _ _ _ (play_then _ _ _ _ _ Hrun Hthen) Hrace).
Qed.

(** The loop starts a worker when the set has room. *)
Lemma launch (l : list (nat * (Item * Task))) item rest fr sh started :
  (Z.of_nat (length l) <? concurrency) = true ->
  exists acts,
    play acts (mkState (item :: rest) l fr sh AtInnerTest started)
    = Some (mkState rest (l ++ [(fr, (item, start item))]) (S fr) sh AtInnerTest
              (started ++ [item])).
Proof.
  intros Hroom.
  destruct (nonempty rest && (0 <? delay)) eqn:Hsleep.
  - exists [Main; Timer]. cbn [Pool.play Pool.step main Pool.pc Pool.queue].
    unfold size. cbn [Pool.inProgress Pool.fresh Pool.shared Pool.started].
    rewrite Hroom, Hsleep. reflexivity.
  - exists [Main]. cbn [Pool.play Pool.step main Pool.pc Pool.queue].
    unfold size. cbn [Pool.inProgress Pool.fresh Pool.shared Pool.started].
    rewrite Hroom, Hsleep. reflexivity.
Qed.

Lemma nodup_snoc (l : list nat) (x : nat) :
  List.NoDup l -> ~ In x l -> List.NoDup (l ++ [x]).
Proof.
  induction 1 as [|y l Hy Hl IH]; intros Hx; cbn.
  - constructor; [intros [] | constructor].
  - constructor.
    + rewrite in_app_iff. intros [Hin | [-> | []]]; [now apply Hy | apply Hx; now left].
    + apply IH. intros Hin. apply Hx. now right.
Qed.

(** From the inner test on, with workers in flight that have not run yet,
    the loop can be played to its end. *)
Lemma finish_from (q : list Item) : forall l fr sh started,
  List.NoDup (List.map fst l) ->
  List.Forall (fun p => (p < fr)%nat) (List.map fst l) ->
  unstarted l ->
  exists acts st',
    play acts (mkState q l fr sh AtInnerTest started) = Some st'
    /\ Pool.pc st' = Exited
    /\ shared st' = after (items l ++ q) sh
    /\ Pool.started st' = started ++ q.
Proof.
  induction q as [|item rest IH]; intros l fr sh started Hnodup Hfresh Hun.
  - rewrite !app_nil_r. destruct l as [|entry l].
    + exists [Main; Main]. eexists. split; [reflexivity |]. now repeat split.
    + destruct (drain (entry :: l) [] fr sh started) as [acts Hdrain];
        [discriminate | now left | exact Hnodup | exact Hun |].
      exists (acts ++ [Main]),
        (mkState [] [] fr (after (items (entry :: l)) sh) Exited started).
      split; [apply (play_then _ _ _ _ _ Hdrain); reflexivity |]. now repeat split.
  - assert (Hgrow : forall l0 fr0 sh0,
              List.NoDup (List.map fst l0) ->
              List.Forall (fun p => (p < fr0)%nat) (List.map fst l0) ->
              unstarted l0 ->
              (Z.of_nat (length l0) <? concurrency) = true ->
              exists acts st',
                play acts (mkState (item :: rest) l0 fr0 sh0 AtInnerTest started) = Some st'
                /\ Pool.pc st' = Exited
                /\ shared st' = after (items l0 ++ item :: rest) sh0
                /\ Pool.started st' = started ++ item :: rest).
    { intros l0 fr0 sh0 Hnodup0 Hfresh0 Hun0 Hroom.
      destruct (launch l0 item rest fr0 sh0 started Hroom) as [acts1 Hlaunch].
      destruct (IH (l0 ++ [(fr0, (item, start item))]) (S fr0) sh0 (started ++ [item]))
        as (acts2 & st' & Hrest & Hpc & Hsh & Hst).
      - rewrite map_app. cbn [List.map fst]. apply nodup_snoc; [exact Hnodup0 |].
        intros Hin. rewrite List.Forall_forall in Hfresh0. apply Hfresh0 in Hin. lia.
      - rewrite map_app. cbn [List.map fst]. apply List.Forall_app. split.
        + eapply List.Forall_impl; [| exact Hfresh0]. cbn. intros p Hp. lia.
        + constructor; [lia | constructor].
      - apply List.Forall_app. split; [exact Hun0 |]. constructor; [reflexivity | constructor].
      - exists (acts1 ++ acts2), st'. split; [exact (play_then _ _ _ _ _ Hlaunch Hrest) |].
        split; [exact Hpc |]. split.
        + rewrite Hsh, map_app, <- app_assoc. reflexivity.
        + rewrite Hst, <- app_assoc. reflexivity. }
    destruct (Z.of_nat (length l) <? concurrency) eqn:Hroom.
    + now apply Hgrow.
    + assert (l <> []) as Hne.
      { intros ->. cbn in Hroom. apply Z.ltb_ge in Hroom. lia. }
      destruct (drain l (item :: rest) fr sh started Hne (or_intror Hroom) Hnodup Hun)
        as [acts1 Hdrain].
      destruct (Hgrow [] fr (after (items l) sh)) as (acts2 & st' & Hrest & Hpc & Hsh & Hst);
        [constructor | constructor | constructor | apply Z.ltb_lt; cbn; lia |].
      exists (acts1 ++ Main :: acts2), st'.
      split; [| split; [exact Hpc | split; [| exact Hst]]].
      * apply (play_then _ _ _ _ _ Hdrain). cbn [Pool.play Pool.step main Pool.pc Pool.queue
                                                    nonempty orb].
        exact Hrest.
      * rewrite Hsh. cbn [List.map app]. now rewrite after_app.
Qed.

(** With room for a worker, the loop can be played from its entry to its
    end, the workers running one after the other in batch order. *)
Lemma can_finish (batch : list Item) (sh : Shared) :
  exists st,
    reachable start resume settled concurrency delay batch sh st
    /\ Pool.pc st = Exited
    /\ shared st = after batch sh
    /\ Pool.started st = batch.
Proof.
  destruct batch as [|item rest].
  - eexists. split; [exists [Main]; reflexivity |]. now repeat split.
  - destruct (finish_from (item :: rest) [] 0%nat sh [])
      as (acts & st' & Hplay & Hpc & Hsh & Hst); [constructor | constructor | constructor |].
    exists st'. split; [| now repeat split].
    exists (Main :: acts). exact Hplay.
Qed.

End Liveness.

End PoolLiveness.

Module RunsThatFinish.

Section Backup.
Import Backup.
Variable options : BackupOptions.
Variable total : nat.
Variable detail : ConversationDetail.

Abbreviation resume := (processOne_resume options total).
Abbreviation answers := (PoolRun.saved options detail).

Lemma saved_alone (conv : ConversationItem) (v : Vars) :
  exists t' v',
    PoolRun.alone processOne_start resume settled answers conv v = Some (t', v')
    /\ settled t' = Pool.Fulfilled
    /\ downloaded v' = S (downloaded v) /\ skipped v' = skipped v
    /\ failed v' = failed v /\ errors v' = errors v.
Proof.
  unfold PoolRun.alone, PoolRun.saved. destruct (verbose options) eqn:Hverbose;
    cbn; rewrite Hverbose; cbn; eexists; eexists; (split; [reflexivity |]); now repeat split.
Qed.

Lemma saved_after (batch : list ConversationItem) : forall v,
  let v' := PoolRun.after processOne_start resume settled answers batch v in
  downloaded v' = (downloaded v + length batch)%nat /\ skipped v' = skipped v
  /\ failed v' = failed v /\ errors v' = errors v.
Proof.
  induction batch as [|conv rest IH]; intros v; cbn zeta.
  - cbn. repeat split; lia.
  - cbn [PoolRun.after length].
    destruct (saved_alone conv v) as (t' & v1 & -> & _ & Hd & Hs & Hf & He).
    destruct (IH v1) as (Hd' & Hs' & Hf' & He'). cbn zeta in *.
    rewrite Hd', Hs', Hf', He', Hd, Hs, Hf, He. repeat split; lia.
Qed.

End Backup.

Section Download.
Import Download.
Variable verbose : bool.
Variable total : nat.
Variable onDisk : FileService.FileReference -> bool.

Abbreviation file_resume := (processOne_resume verbose total).
Abbreviation file_answers := (PoolRun.attempted onDisk).
Abbreviation missing := (List.filter (fun ref => negb (onDisk ref))).

(** What step 1 ends with, whatever it is given. *)
Lemma step1_throws {W : Type}
    (http : Client.Request FileMeta -> W -> (JsError + Client.Response FileMeta) * W)
    (random : W -> float * W) (parseInt : string -> float)
    (client : Client.ChatGPTClient) (ref : FileService.FileReference) (w : W) :
  step1 http random parseInt client ref w
  = Some (Threw (Some (Client.not_a_function "FILE_DOWNLOAD")), w, []).
Proof. reflexivity. Qed.

Lemma attempted_alone (ref : FileService.FileReference) (v : Vars) :
  exists t' v',
    PoolRun.alone processOne_start file_resume settled file_answers ref v = Some (t', v')
    /\ settled t' = Pool.Fulfilled
    /\ downloaded v' = downloaded v
    /\ skipped v' = (skipped v + length (List.filter onDisk [ref]))%nat
    /\ failed v' = (failed v + length (missing [ref]))%nat
    /\ failedFileIds v' = failedFileIds v ++ List.map FileService.fileId (missing [ref]).
Proof.
  unfold PoolRun.alone, PoolRun.attempted. cbn [List.filter].
  destruct (onDisk ref); cbn; eexists; eexists; (split; [reflexivity |]); cbn;
    rewrite ?app_nil_r; repeat split; lia.
Qed.

Lemma attempted_after (batch : list FileService.FileReference) : forall v,
  let v' := PoolRun.after processOne_start file_resume settled file_answers batch v in
  downloaded v' = downloaded v
  /\ skipped v' = (skipped v + length (List.filter onDisk batch))%nat
  /\ failed v' = (failed v + length (missing batch))%nat
  /\ failedFileIds v' = failedFileIds v ++ List.map FileService.fileId (missing batch).
Proof.
  induction batch as [|ref rest IH]; intros v; cbn zeta.
  - cbn. rewrite app_nil_r. repeat split; lia.
  - cbn [PoolRun.after].
    destruct (attempted_alone ref v) as (t' & v1 & -> & _ & Hd & Hs & Hf & He).
    destruct (IH v1) as (Hd' & Hs' & Hf' & He'). cbn zeta in *.
    rewrite Hd', Hs', Hf', He', Hd, Hs, Hf, He. cbn [List.filter].
    destruct (onDisk ref); cbn [negb length List.map app]; rewrite ?app_nil_r;
      repeat split; try lia.
    now rewrite <- app_assoc.
Qed.

End Download.

End RunsThatFinish.

(** X22. With room for one worker at least, [backup] does return: there is
    a run in which every detail arrives and is saved (and, in a verbose
    run, logged), the workers running one after the other, and it returns
    with every conversation that was not skipped counted as downloaded,
    none as failed and no error recorded. *)
Theorem backup_returns_when_downloads_succeed
    (Date_getTime : string -> float) (storage : gmap string Backup.StoredFile)
    (options : Backup.BackupOptions) (conversations : list ConversationItem) :
  1 <= Backup.concurrency options ->
  let toDownload := snd (Backup.diff Date_getTime storage options conversations) in
  Backup.backup Date_getTime storage options conversations
    (Backup.mkResult (length conversations) (length toDownload)
       (length conversations - length toDownload) 0 []).
Proof.
  intros Hc toDownload.
  destruct (PoolLiveness.can_finish Backup.processOne_start
              (Backup.processOne_resume options (length conversations)) Backup.settled
              (Backup.concurrency options) (Backup.delay options)
              (PoolRun.saved options Scenarios.emptyDetail) Hc
              (fun conv v =>
                 let '(ex_intro _ t' (ex_intro _ v' (conj Ha (conj Hf _)))) :=
                   RunsThatFinish.saved_alone options (length conversations)
                     Scenarios.emptyDetail conv v in
                 ex_intro _ t' (ex_intro _ v' (conj Ha Hf)))
              toDownload
              (fst (Backup.diff Date_getTime storage options conversations)))
    as (st & Hreach & Hpc & Hsh & _).
  assert (Hrun : Backup.reachable Date_getTime storage options conversations st).
  { destruct Hreach as [acts Hplay]. exists acts.
    rewrite BackupFacts.enter_diff. exact Hplay. }
  exists st. split; [exact Hrun |]. split; [exact Hpc |].
  destruct (RunsThatFinish.saved_after options (length conversations) Scenarios.emptyDetail
              toDownload (fst (Backup.diff Date_getTime storage options conversations)))
    as (Hd & Hs & Hf & He). cbn zeta in Hd, Hs, Hf, He. rewrite <- Hsh in Hd, Hs, Hf, He.
  destruct (BackupFacts.diff_spec Date_getTime storage options conversations)
    as (Hsnd & Hsk & Hd0 & Hf0).
  destruct (BackupProgress.run_in_step _ _ _ _ st Hrun) as [_ Herr].
  pose proof (BackupFacts.length_partition Date_getTime storage options conversations) as Hp.
  cbv beta in Hp. rewrite <- Hsnd in Hp. fold toDownload in Hp.
  cbn [Backup.finish]. f_equal. f_equal.
  - rewrite Hd, Hd0. reflexivity.
  - rewrite Hs, Hsk. lia.
  - rewrite Hf, Hf0. reflexivity.
  - rewrite Hf, Hf0 in Herr. now apply length_zero_iff_nil in Herr.
Qed.

Lemma backup_returns_when_downloads_succeed_witness :
  Backup.backup Scenarios.epoch Scenarios.disk Scenarios.incrementalOptions
    Scenarios.listing (Backup.mkResult 4 3 1 0 []).
Proof.
  apply (backup_returns_when_downloads_succeed Scenarios.epoch Scenarios.disk
           Scenarios.incrementalOptions Scenarios.listing).
  cbn. lia.
Defined.

(** X23. With room for one worker at least, [downloadFiles] does return.
    Whichever files of the batch are on disk already, there is a run in
    which those are skipped and each of the others fails at step 1 (it
    throws before any request, as [ENDPOINTS.FILE_DOWNLOAD] is not a
    function), the workers running one after the other; it returns with
    nothing downloaded, the files on disk counted as skipped, the others
    as failed, and their identifiers remembered in batch order. *)
Theorem file_downloads_return
    (allRefs : list FileService.FileReference) (options : Download.FileDownloadOptions)
    (onDisk : FileService.FileReference -> bool) :
  1 <= Download.concurrency options ->
  let refs := Download.batch allRefs (Download.skipFileIds options) in
  let missing := List.filter (fun ref => negb (onDisk ref)) refs in
  Download.downloadFiles allRefs options
    (Download.mkResult 0 (length (List.filter onDisk refs)) (length missing)
       (length refs) (List.map FileService.fileId missing)).
Proof.
  intros Hc refs missing.
  destruct (PoolLiveness.can_finish Download.processOne_start
              (Download.processOne_resume (Download.verbose options) (length refs))
              Download.settled (Download.concurrency options) (Download.delay options)
              (PoolRun.attempted onDisk) Hc
              (fun ref v =>
                 let '(ex_intro _ t' (ex_intro _ v' (conj Ha (conj Hf _)))) :=
                   RunsThatFinish.attempted_alone (Download.verbose options) (length refs)
                     onDisk ref v in
                 ex_intro _ t' (ex_intro _ v' (conj Ha Hf)))
              refs (Download.mkVars 0 0 0 0 [] []))
    as (st & Hreach & Hpc & Hsh & _).
  exists st. split; [exact Hreach |]. split; [exact Hpc |].
  destruct (RunsThatFinish.attempted_after (Download.verbose options) (length refs) onDisk
              refs (Download.mkVars 0 0 0 0 [] []))
    as (Hd & Hs & Hf & He). cbn zeta in Hd, Hs, Hf, He. rewrite <- Hsh in Hd, Hs, Hf, He.
  unfold Download.result. fold refs. now rewrite Hd, Hs, Hf, He.
Qed.

Lemma file_downloads_return_witness :
  Download.downloadFiles (FileService.scanAllConversations Scenarios.stored)
    Scenarios.fileOptions (Download.mkResult 0 1 2 3 ["file-xyz"; "file-uvw"]).
Proof.
  apply (file_downloads_return (FileService.scanAllConversations Scenarios.stored)
           Scenarios.fileOptions
           (fun ref => String.eqb (FileService.fileId ref) "file-img")).
  cbn. lia.
Defined.

(** * Facts about the thread of a conversation *)

Module MarkdownFacts.
Import Markdown.

Section Thread.
Context {M : Type}.
Variable mapping : Mapping M.

Lemma known_Some (nodeId : option string) (node : MappingNode M) :
  known mapping nodeId = Some node ->
  exists id, nodeId = Some id /\ id <> "" /\ get mapping id = Some node.
Proof.
  destruct nodeId as [id|]; [| discriminate]. cbn.
  destruct (FileService.truthy id) eqn:Hid; [| discriminate].
  intros Hget. exists id. repeat split; [| exact Hget].
  unfold FileService.truthy in Hid. apply negb_true_iff in Hid. now apply String.eqb_neq.
Qed.

Lemma get_In (id : string) (node : MappingNode M) :
  get mapping id = Some node -> In node (List.map snd mapping).
Proof.
  unfold get. destruct (find _ mapping) as [entry|] eqn:Hfind; [| discriminate].
  cbn. intros [= <-]. apply find_some in Hfind as [Hin _]. now apply in_map.
Qed.

Lemma known_In (nodeId : option string) (node : MappingNode M) :
  known mapping nodeId = Some node -> In node (List.map snd mapping).
Proof.
  intros Hknown. destruct (known_Some nodeId node Hknown) as (id & _ & _ & Hget).
  now apply (get_In id).
Qed.

Section Ranked.
Variable depth : MappingNode M -> nat.
Hypothesis parents_are_higher : forall node parent,
  In node (List.map snd mapping) ->
  known mapping (node_parent node) = Some parent ->
  (depth parent < depth node)%nat.

(** The walk ends when the parents are ever higher up. *)
Lemma walk_ends (fuel : nat) : forall nodeId path,
  (forall node, known mapping nodeId = Some node -> (depth node + 2 <= fuel)%nat) ->
  (1 <= fuel)%nat ->
  chained mapping path ->
  (forall b, head path = Some b -> node_parent b = nodeId) ->
  exists front,
    walk fuel mapping nodeId path = Some (front ++ path)
    /\ chained mapping (front ++ path)
    /\ (forall first, head (front ++ path) = Some first ->
          known mapping (node_parent first) = None).
Proof.
  induction fuel as [|fuel IH]; intros nodeId path Hfuel Hpos Hchained Hhead; [lia |].
  cbn [walk]. destruct (known mapping nodeId) as [node|] eqn:Hknown.
  - pose proof (Hfuel node eq_refl) as Hdepth.
    destruct (IH (node_parent node) (node :: path)) as (front & Hwalk & Hc & Htop).
    + intros parent Hparent.
      pose proof (parents_are_higher node parent (known_In nodeId node Hknown) Hparent). lia.
    + lia.
    + cbn [chained]. destruct path as [|b rest]; [exact I |].
      split; [| exact Hchained]. rewrite (Hhead b eq_refl). exact Hknown.
    + intros b [= <-]. reflexivity.
    + exists (front ++ [node]). rewrite <- !app_assoc. cbn [app].
      split; [exact Hwalk |]. split; [exact Hc | exact Htop].
  - exists []. cbn [app]. split; [reflexivity |]. split; [exact Hchained |].
    intros first Hfirst. rewrite (Hhead first Hfirst). exact Hknown.
Qed.

End Ranked.

Section Closed.
Variable start : option string.
Hypothesis no_top : forall node,
  met mapping start node -> known mapping (node_parent node) <> None.

(** The walk never ends when every node it meets has a known parent. *)
Lemma walk_loops (fuel : nat) : forall nodeId path node,
  known mapping nodeId = Some node -> met mapping start node ->
  walk fuel mapping nodeId path = None.
Proof.
  induction fuel as [|fuel IH]; intros nodeId path node Hknown Hmet; [reflexivity |].
  cbn [walk]. rewrite Hknown.
  destruct (known mapping (node_parent node)) as [parent|] eqn:Hparent.
  - apply (IH (node_parent node) (node :: path) parent Hparent).
    now apply (met_next mapping start node parent).
  - now apply no_top in Hmet.
Qed.

End Closed.

Section FirstChildren.
Variable depth : MappingNode M -> nat.
Hypothesis children_are_lower : forall node nextId others next,
  In node (List.map snd mapping) ->
  node_children node = Some (nextId :: others) ->
  get mapping nextId = Some next ->
  (depth next < depth node)%nat.

(** The descent ends when the first children are ever lower down. *)
Lemma follow_ends (fuel : nat) : forall current thread front,
  In current (List.map snd mapping) ->
  (depth current < fuel)%nat ->
  thread = front ++ [current] ->
  descending mapping thread ->
  exists back init last,
    follow fuel mapping current thread = Some (thread ++ back)
    /\ descending mapping (thread ++ back)
    /\ thread ++ back = init ++ [last]
    /\ (forall nextId others, node_children last = Some (nextId :: others) ->
          get mapping nextId = None).
Proof.
  induction fuel as [|fuel IH]; intros current thread front Hin Hfuel Hthread Hdesc; [lia |].
  assert (Hstop : (forall nextId others, node_children current = Some (nextId :: others) ->
                     get mapping nextId = None) ->
                  exists back init last,
                    Some thread = Some (thread ++ back)
                    /\ descending mapping (thread ++ back)
                    /\ thread ++ back = init ++ [last]
                    /\ (forall nextId others, node_children last = Some (nextId :: others) ->
                          get mapping nextId = None)).
  { intros Hnone. exists [], front, current. rewrite app_nil_r.
    split; [reflexivity |]. split; [exact Hdesc |]. split; [exact Hthread | exact Hnone]. }
  cbn [follow]. destruct (node_children current) as [[|nextId others]|] eqn:Hchildren.
  - apply Hstop. discriminate.
  - destruct (get mapping nextId) as [next|] eqn:Hnext.
    + destruct (IH next (thread ++ [next]) thread)
        as (back & init & last & Hrun & Hd & Hlast & Hend).
      * now apply (get_In nextId).
      * pose proof (children_are_lower current nextId others next Hin Hchildren Hnext). lia.
      * reflexivity.
      * rewrite Hthread, <- app_assoc. cbn [app]. rewrite Hthread in Hdesc.
        clear - Hdesc Hchildren Hnext. induction front as [|a front IHf].
        -- cbn. split; [| exact I]. now exists nextId, others.
        -- cbn [app descending] in *.
           destruct front as [|b front]; cbn [app] in *.
           ++ destruct Hdesc as [Hab _]. split; [exact Hab |]. now apply IHf.
           ++ destruct Hdesc as [Hab Hrest]. split; [exact Hab |]. now apply IHf.
      * exists (next :: back), init, last. rewrite <- app_assoc in Hrun, Hd, Hlast.
        cbn [app] in *. now repeat split.
    + apply Hstop. intros nextId0 others0 [= <- _]. exact Hnext.
  - apply Hstop. discriminate.
Qed.

End FirstChildren.

End Thread.

End MarkdownFacts.

(** X24. When the current node is known and the parents are ever higher
    up (no node is its own ancestor), [getLinearThread] returns the active
    path: it ends with the current node, each node but the first names the
    node before it as its parent, and the first one has no parent in the
    mapping. *)
Theorem active_path_is_parent_chain {M : Type} (mapping : Markdown.Mapping M)
    (c : string) (node : Markdown.MappingNode M)
    (depth : Markdown.MappingNode M -> nat) (fuel : nat) :
  Markdown.known mapping (Some c) = Some node ->
  (forall n parent,
     In n (List.map snd mapping) ->
     Markdown.known mapping (Markdown.node_parent n) = Some parent ->
     (depth parent < depth n)%nat) ->
  (depth node + 2 <= fuel)%nat ->
  exists front,
    Markdown.getLinearThread fuel mapping (Some c) = Some (front ++ [node])
    /\ Markdown.chained mapping (front ++ [node])
    /\ (forall first, head (front ++ [node]) = Some first ->
          Markdown.known mapping (Markdown.node_parent first) = None).
Proof.
  intros Hknown Hrank Hfuel. unfold Markdown.getLinearThread. rewrite Hknown.
  destruct fuel as [|fuel]; [lia |]. cbn [Markdown.walk]. rewrite Hknown.
  apply (MarkdownFacts.walk_ends mapping depth Hrank).
  - intros parent Hparent.
    pose proof (Hrank node parent (MarkdownFacts.known_In mapping _ _ Hknown) Hparent). lia.
  - lia.
  - exact I.
  - intros b [= <-]. reflexivity.
Qed.

Lemma active_path_is_parent_chain_witness :
  exists front,
    Markdown.getLinearThread 4 Cases.turns (Some "n3")
    = Some (front ++ [Markdown.mkNode "n3" (Some tt) (Some "n2b") None])
    /\ Markdown.chained Cases.turns
         (front ++ [Markdown.mkNode "n3" (Some tt) (Some "n2b") None]).
Proof.
  destruct (active_path_is_parent_chain Cases.turns "n3"
              (Markdown.mkNode "n3" (Some tt) (Some "n2b") None)
              (fun n => Cases.turn_depth (Markdown.node_id n)) 4)
    as (front & Hrun & Hchained & _).
  - reflexivity.
  - intros n parent [<- | [<- | [<- | [<- | []]]]]; cbn; intros [= <-]; cbn; lia.
  - cbn. lia.
  - exists front. split; assumption.
Defined.

(** X25. When the current node is known and every node the walk back
    meets has a known parent (as when two nodes name each other as parent,
    whatever else the mapping holds), the walk of [getLinearThread] never
    ends: no amount of steps lets it return. *)
Theorem parent_cycle_never_ends {M : Type} (mapping : Markdown.Mapping M)
    (c : string) (fuel : nat) :
  Markdown.known mapping (Some c) <> None ->
  (forall node,
     Markdown.met mapping (Some c) node ->
     Markdown.known mapping (Markdown.node_parent node) <> None) ->
  Markdown.getLinearThread fuel mapping (Some c) = None.
Proof.
  intros Hknown Hclosed. unfold Markdown.getLinearThread.
  destruct (Markdown.known mapping (Some c)) as [node|] eqn:Hnode; [| contradiction].
  apply (MarkdownFacts.walk_loops mapping (Some c) Hclosed fuel (Some c) [] node Hnode).
  now apply Markdown.met_first.
Qed.

Lemma parent_cycle_never_ends_witness :
  Markdown.getLinearThread 1000 Cases.knot (Some "a") = None.
Proof.
  apply (parent_cycle_never_ends Cases.knot "a" 1000).
  - discriminate.
  - intros node Hmet.
    assert (node = Markdown.mkNode "a" (Some tt) (Some "b") (Some ["b"])
            \/ node = Markdown.mkNode "b" (Some tt) (Some "a") (Some ["a"])) as Hnode.
    { induction Hmet as [node Hfirst | node parent _ IH Hparent].
      - left. now injection Hfirst as <-.
      - destruct IH as [-> | ->]; injection Hparent as <-; [now right | now left]. }
    destruct Hnode as [-> | ->]; discriminate.
Defined.

(** X26. Without a known current node, [getLinearThread] starts at the
    first node of the mapping that has no parent and follows the first
    children: when these are ever lower down, it returns a thread that
    begins with that root, in which each node but the last names the next
    one as its first child, and whose last node has no first child in the
    mapping. *)
Theorem fallback_thread_follows_first_children {M : Type}
    (mapping : Markdown.Mapping M) (currentNode : option string)
    (key : string) (root : Markdown.MappingNode M)
    (depth : Markdown.MappingNode M -> nat) (fuel : nat) :
  Markdown.known mapping currentNode = None ->
  find (fun entry => Markdown.is_root (snd entry)) mapping = Some (key, root) ->
  (forall node nextId others next,
     In node (List.map snd mapping) ->
     Markdown.node_children node = Some (nextId :: others) ->
     Markdown.get mapping nextId = Some next ->
     (depth next < depth node)%nat) ->
  (depth root < fuel)%nat ->
  exists back init last,
    Markdown.getLinearThread fuel mapping currentNode = Some (root :: back)
    /\ Markdown.descending mapping (root :: back)
    /\ root :: back = init ++ [last]
    /\ (forall nextId others,
          Markdown.node_children last = Some (nextId :: others) ->
          Markdown.get mapping nextId = None).
Proof.
  intros Hunknown Hroot Hrank Hfuel. unfold Markdown.getLinearThread.
  rewrite Hunknown, Hroot.
  apply (MarkdownFacts.follow_ends mapping depth Hrank fuel root [root] []).
  - apply find_some in Hroot as [Hin _]. now apply (in_map snd) in Hin.
  - exact Hfuel.
  - reflexivity.
  - exact I.
Qed.

Lemma fallback_thread_follows_first_children_witness :
  exists back init last,
    Markdown.getLinearThread 3 Cases.turns None
    = Some (Markdown.mkNode "n1" None None (Some ["n2a"; "n2b"]) :: back)
    /\ Markdown.mkNode "n1" None None (Some ["n2a"; "n2b"]) :: back = init ++ [last].
Proof.
  destruct (fallback_thread_follows_first_children Cases.turns None "n1"
              (Markdown.mkNode "n1" None None (Some ["n2a"; "n2b"]))
              (fun n => (2 - Cases.turn_depth (Markdown.node_id n))%nat) 3)
    as (back & init & last & Hrun & _ & Hlast & _).
  - reflexivity.
  - reflexivity.
  - intros node nextId others next [<- | [<- | [<- | [<- | []]]]]; cbn;
      try discriminate; intros [= <- _]; cbn; intros [= <-]; cbn; lia.
  - cbn. lia.
  - exists back, init, last. split; assumption.
Defined.

(** * Facts about the backoff delay *)

Module DelayFacts.
Import Retry RetryTrace.

Lemma SFcompare_antisym (x y : spec_float) :
  SFcompare y x = option_map CompOpp (SFcompare x y).
Proof.
  destruct x as [s1| s1 | | s1 m1 e1], y as [s2 | s2 | | s2 m2 e2]; cbn;
    try reflexivity; try (now destruct s1); try (now destruct s2);
    try (now destruct s1, s2).
  destruct s1, s2; cbn; try reflexivity.
  - rewrite (Z.compare_antisym e1 e2). destruct (e1 ?= e2)%Z; cbn; try reflexivity.
    do 2 f_equal. exact (ZC4 m2 m1).
  - rewrite (Z.compare_antisym e1 e2). destruct (e1 ?= e2)%Z; cbn; try reflexivity.
    f_equal. exact (ZC4 m2 m1).
Qed.

Lemma SFcompare_defined (x y : spec_float) :
  SFcompare x x = Some Eq -> SFcompare y y = Some Eq -> SFcompare x y <> None.
Proof.
  destruct x, y; cbn; congruence.
Qed.

Lemma not_nan_compare (x : float) :
  PrimFloat.is_nan x = false -> SFcompare (Prim2SF x) (Prim2SF x) = Some Eq.
Proof.
  unfold PrimFloat.is_nan. rewrite negb_false_iff, FloatAxioms.eqb_spec. unfold SFeqb.
  destruct (SFcompare (Prim2SF x) (Prim2SF x)) as [[| |]|]; congruence.
Qed.

(** [Math.min(a, b)] is at most [b], unless it is [NaN]. *)
Lemma Math_min_capped (a b : float) : capped b (Math_min a b) = true.
Proof.
  unfold capped, Math_min.
  destruct (PrimFloat.is_nan a) eqn:Ha; [reflexivity |].
  destruct (PrimFloat.is_nan b) eqn:Hb; [reflexivity |]. cbn [orb].
  pose proof (not_nan_compare a Ha) as Haa. pose proof (not_nan_compare b Hb) as Hbb.
  assert (Hbb' : PrimFloat.leb b b = true)
    by (rewrite FloatAxioms.leb_spec; unfold SFleb; now rewrite Hbb).
  assert (Hab : PrimFloat.ltb b a = false -> PrimFloat.leb a b = true).
  { rewrite FloatAxioms.ltb_spec, FloatAxioms.leb_spec. unfold SFltb, SFleb.
    rewrite (SFcompare_antisym (Prim2SF a) (Prim2SF b)).
    pose proof (SFcompare_defined _ _ Haa Hbb) as Hdef.
    destruct (SFcompare (Prim2SF a) (Prim2SF b)) as [[| |]|]; cbn; congruence. }
  destruct (PrimFloat.ltb b a) eqn:Hlt.
  - rewrite Hb, Hbb'. reflexivity.
  - specialize (Hab eq_refl). destruct (PrimFloat.ltb a b).
    + rewrite Ha, Hab. reflexivity.
    + destruct (PrimFloat.classify b); rewrite ?Ha, ?Hb, ?Hab, ?Hbb'; reflexivity.
Qed.

Lemma delays_app (tr1 tr2 : list Event) : delays (tr1 ++ tr2) = delays tr1 ++ delays tr2.
Proof. apply omap_app. Qed.

Lemma delays_observe (opts : RetryOptions) e attempt delay :
  delays (observe opts e attempt delay) = [].
Proof. unfold observe. now destruct (onRetry opts). Qed.

Lemma loop_capped {W T : Type} (fn : W -> (JsError + T) * W)
    (random : W -> float * W) (opts : RetryOptions) :
  forall fuel attempt lastError w tr c w' tr',
    loop fn random opts fuel attempt lastError w tr = Some (c, w', tr') ->
    List.Forall (fun delay => capped (maxDelay opts) delay = true) (delays tr) ->
    List.Forall (fun delay => capped (maxDelay opts) delay = true) (delays tr').
Proof.
  induction fuel as [|fuel IH]; intros attempt lastError w tr c w' tr' Hloop Htr;
    [discriminate |].
  cbn [loop] in Hloop.
  assert (Hcall : List.Forall (fun delay => capped (maxDelay opts) delay = true)
                    (delays (tr ++ [EvCall attempt])))
    by (rewrite delays_app; cbn; now rewrite app_nil_r).
  destruct (attempt <=? maxRetries opts).
  - destruct (fn w) as [[e|v] w1].
    + destruct (attempt =? maxRetries opts); [injection Hloop as <- <- <-; exact Hcall |].
      destruct (is_non_retryable e); [injection Hloop as <- <- <-; exact Hcall |].
      destruct (random w1) as [rnd w2].
      apply IH in Hloop; [exact Hloop |].
      rewrite !delays_app, delays_observe in *. cbn [app].
      apply List.Forall_app. split; [exact Hcall |].
      constructor; [apply Math_min_capped | constructor].
    + injection Hloop as <- <- <-. exact Hcall.
  - injection Hloop as <- <- <-. exact Htr.
Qed.

End DelayFacts.

(** X27. No sleep of [withRetry] is longer than [maxDelay]: every delay a
    run sleeps, whatever the error that caused the retry (the
    [retryAfter] of a rate-limit error is not read), is at most the
    [maxDelay] in force, unless it is not a number at all. *)
Theorem sleep_never_exceeds_maxDelay {W T : Type}
    (fn : W -> (JsError + T) * W) (random : W -> float * W)
    (options : Retry.PartialRetryOptions) (w : W)
    (c : Completion T) (w' : W) (tr : list Retry.Event) :
  Retry.withRetry fn random options w = Some (c, w', tr) ->
  List.Forall
    (fun delay =>
       RetryTrace.capped (Retry.maxDelay (Retry.mergeOptions options)) delay = true)
    (RetryTrace.delays tr).
Proof.
  intros Hrun. unfold Retry.withRetry, Retry.run in Hrun.
  apply (DelayFacts.loop_capped _ _ _ _ _ _ _ _ _ _ _ Hrun). constructor.
Qed.

Lemma sleep_never_exceeds_maxDelay_witness :
  exists w tr,
    Retry.withRetry Cases.rate_limited_operation Scenarios.half Retry.noOptions 0%nat
    = Some (Threw (Some (RateLimitError "Rate limited by API" (Some 30000%float))), w, tr)
    /\ length (RetryTrace.delays tr) = 5%nat
    /\ List.Forall (fun delay => RetryTrace.capped 60000%float delay = true)
         (RetryTrace.delays tr).
Proof.
  eexists. eexists. split; [vm_compute; reflexivity |]. split; [vm_compute; reflexivity |].
  eapply (sleep_never_exceeds_maxDelay Cases.rate_limited_operation Scenarios.half
            Retry.noOptions 0%nat
            (Threw (Some (RateLimitError "Rate limited by API" (Some 30000%float))))).
  vm_compute. reflexivity.
Defined.

(** * Facts about the scan of the stored conversations *)

Module ScanFacts.
Import FileService Scan.

Lemma find_head_filter {A : Type} (f : A -> bool) (l : list A) :
  find f l = head (List.filter f l).
Proof.
  induction l as [|x l IH]; [reflexivity |]. cbn. now destruct (f x).
Qed.

Lemma find_over_app {A : Type} (f : A -> bool) (l1 l2 : list A) :
  find f (l1 ++ l2) = match find f l1 with Some x => Some x | None => find f l2 end.
Proof.
  induction l1 as [|x l1 IH]; [reflexivity |]. cbn. now destruct (f x).
Qed.

(** The references of a record are found where its occurrences are. *)
Lemma find_extract (id : string) (detail : ConversationDetail) :
  find (has_id id) (extractFileReferences detail) = find (has_id id) (occurrences detail).
Proof.
  rewrite find_head_filter, FileServiceFacts.extractFileReferences_offers.
  rewrite FileServiceFacts.filter_values.
  - rewrite FileServiceFacts.Map_get_offers. cbn [Map_get].
    now destruct (find (has_id id) (occurrences detail)).
  - apply FileServiceFacts.well_keyed_offers;
      [apply FileServiceFacts.occurrences_nonempty | apply FileServiceFacts.well_keyed_empty].
Qed.

Lemma scan_get (files : list (option ConversationDetail)) : forall refs id,
  Map_get (fold_left scan_file files refs) id
  = match Map_get refs id with
    | Some r => Some r
    | None => find (has_id id) (stored_occurrences files)
    end.
Proof.
  induction files as [|[detail|] files IH]; intros refs id; cbn [fold_left].
  - cbn. now destruct (Map_get refs id).
  - rewrite IH. change (scan_file refs (Some detail))
      with (fold_left offer (extractFileReferences detail) refs).
    rewrite FileServiceFacts.Map_get_offers.
    destruct (Map_get refs id); [reflexivity |].
    unfold stored_occurrences. cbn [flat_map file_occurrences].
    rewrite find_over_app, find_extract. reflexivity.
  - rewrite IH. reflexivity.
Qed.

End ScanFacts.

(** X28. Of a file identifier, [scanAllConversations] returns no reference
    when no stored conversation that parses has an occurrence of it, and
    otherwise exactly one: the reference built at its first occurrence,
    the files taken in the order they are read and each record in its scan
    order.  Files that cannot be read or parsed add nothing and do not
    stop the scan. *)
Theorem scan_keeps_first_occurrence_across_files
    (files : list (option ConversationDetail)) (id : string) :
  List.filter (FileService.has_id id) (FileService.scanAllConversations files)
  = match find (FileService.has_id id) (Scan.stored_occurrences files) with
    | Some first => [first]
    | None => []
    end.
Proof.
  unfold FileService.scanAllConversations.
  rewrite FileServiceFacts.filter_values
    by apply (DownloadFacts.scan_well_keyed files [] FileServiceFacts.well_keyed_empty).
  rewrite ScanFacts.scan_get. reflexivity.
Qed.

(** * Facts about the identifiers a file run answers for *)

Module PendingFacts.
Import Pool Pending.

Section Items.
Context {Item Task : Type}.
Implicit Types (l : list (nat * (Item * Task))) (p : nat) (f : Task -> bool).

Lemma items_app f l1 l2 :
  items_where f (l1 ++ l2) = items_where f l1 ++ items_where f l2.
Proof. unfold items_where. now rewrite List.filter_app, map_app. Qed.

(** A worker that moves on keeps its item, in or out of the selection. *)
Lemma items_replace f p item t t' l :
  lookup p l = Some (item, t) ->
  Permutation ((if f t then [item] else []) ++ items_where f (replace p (item, t') l))
              ((if f t' then [item] else []) ++ items_where f l).
Proof.
  induction l as [|[q [item0 t0]] rest IH]; [discriminate |].
  cbn [lookup replace]. destruct (Nat.eqb q p) eqn:Hq.
  - intros [= -> ->]. unfold items_where. cbn [List.filter List.map fst snd].
    destruct (f t), (f t'); reflexivity.
  - intros Hlookup. specialize (IH Hlookup).
    unfold items_where in *. cbn [List.filter List.map fst snd].
    destruct (f t0); cbn [List.map fst snd]; [| exact IH].
    rewrite <- !Permutation_middle. now apply perm_skip.
Qed.

(** A promise that is deleted takes its item out of the selection. *)
Lemma items_delete f p item t l :
  NoDup (List.map fst l) ->
  lookup p l = Some (item, t) ->
  Permutation ((if f t then [item] else []) ++ items_where f (delete p l))
              (items_where f l).
Proof.
  induction l as [|[q [item0 t0]] rest IH]; [discriminate |].
  intros Hnodup. inversion Hnodup as [|? ? Hnotin Hnodup']; subst.
  cbn [lookup]. unfold delete, items_where in *. cbn [List.filter fst snd].
  destruct (Nat.eqb_spec q p) as [-> | Hne]; cbn [negb].
  - intros [= -> ->]. change (List.filter _ rest) with (delete p rest) at 1.
    rewrite (PoolFacts.delete_absent p rest)
      by (intros Hin; apply Hnotin, list_elem_of_In, Hin).
    cbn [List.map fst snd List.filter]. destruct (f t); reflexivity.
  - intros Hlookup. specialize (IH Hnodup' Hlookup).
    cbn [List.filter List.map fst snd].
    destruct (f t0); cbn [List.map fst snd]; [| exact IH].
    rewrite <- Permutation_middle. now apply perm_skip.
Qed.

End Items.

Import Download.

(** What a step of a file worker does to the list of failures. *)
Lemma resume_outstanding verbose total ref t a v t' v' :
  settled t = Pool.Pending ->
  processOne_resume verbose total ref t a v = Some (t', v') ->
  uncounted t = true
  /\ ((uncounted t' = true /\ failedFileIds v' = failedFileIds v)
      \/ (uncounted t' = false
          /\ (failedFileIds v' = failedFileIds v
              \/ failedFileIds v' = failedFileIds v ++ [FileService.fileId ref]))).
Proof.
  intros Hpending H.
  destruct t, a; try discriminate; DownloadFacts.crack H; injection H as <- <-; cbn;
    (split; [reflexivity |]); auto.
Qed.

Section Run.
Variable allRefs : list FileService.FileReference.
Variable options : FileDownloadOptions.

Abbreviation ids :=
  (List.map FileService.fileId (batch allRefs (skipFileIds options))).

(** A run answers for identifiers of its batch only, each at most as often
    as the batch has it. *)
Lemma outstanding_transition (st st' : PoolState) :
  Pool.distinct st ->
  (exists rest, Permutation ids (outstanding st ++ rest)) ->
  Pool.transition processOne_start
    (processOne_resume (verbose options) (length (batch allRefs (skipFileIds options))))
    settled (concurrency options) st st' ->
  exists rest, Permutation ids (outstanding st' ++ rest).
Proof.
  intros [Hnodup _] [rest Hperm] Ht. unfold outstanding in *.
  destruct Ht as [Hpc Hq Hl | pc' _ | item rest0 pc' Hq Hlt _
                  | p item task a task' shared' Hlookup Hsettled Hres
                  | p item task Hlookup Hsettled]; cbn [Pool.shared Pool.inProgress Pool.queue
                                                         Pool.set_pc].
  - now exists rest.
  - now exists rest.
  - exists rest. rewrite Hq in Hperm. rewrite items_app, map_app.
    unfold items_where at 2. cbn [List.filter List.map fst snd processOne_start uncounted
                                    counted negb app].
    cbn [List.map] in Hperm. rewrite <- !app_assoc in Hperm. rewrite <- !app_assoc.
    cbn [app] in *. exact Hperm.
  - destruct (resume_outstanding _ _ _ _ _ _ _ _ Hsettled Hres) as [Hu Hcases].
    pose proof (items_replace uncounted p item task task' (Pool.inProgress st) Hlookup)
      as Hitems.
    rewrite Hu in Hitems.
    destruct Hcases as [[Hu' Hf] | [Hu' Hf]]; rewrite Hu' in Hitems.
    + exists rest. rewrite Hf. apply Permutation_cons_inv in Hitems.
      now rewrite Hitems.
    + cbn [app] in Hitems. rewrite <- Hitems in Hperm. cbn [app List.map] in Hperm.
      destruct Hf as [Hf | Hf]; rewrite Hf.
      * exists (FileService.fileId item :: rest).
        rewrite Hperm, <- !app_assoc. cbn [app]. rewrite <- ?app_assoc.
        apply Permutation_app_head. rewrite !app_assoc. apply Permutation_middle.
      * exists rest. rewrite Hperm, <- !app_assoc. cbn [app]. rewrite <- ?app_assoc.
        reflexivity.
  - pose proof (items_delete uncounted p item task (Pool.inProgress st) Hnodup Hlookup)
      as Hitems.
    assert (uncounted task = false) as Hu by (now destruct task).
    rewrite Hu in Hitems. cbn [app] in Hitems. exists rest. now rewrite Hitems.
Qed.

Lemma run_outstanding (st : PoolState) :
  reachable allRefs options st ->
  exists rest, Permutation ids (outstanding st ++ rest).
Proof.
  intros [acts Hplay].
  apply (PoolFacts.play_invariant processOne_start
           (processOne_resume (verbose options) (length (batch allRefs (skipFileIds options))))
           settled (concurrency options) (delay options)
           (fun st => Pool.distinct st
                      /\ exists rest, Permutation ids (outstanding st ++ rest)))
    with (acts := acts) (st := enter allRefs options); [| | exact Hplay].
  - intros st1 st2 [Hd Hp] Ht. split.
    + eapply PoolFacts.distinct_transition; eassumption.
    + now apply (outstanding_transition st1).
  - split; [split; constructor |]. exists []. unfold outstanding. cbn.
    now rewrite app_nil_r.
Qed.

End Run.

Lemma NoDup_map_filter {A B : Type} (f : A -> B) (g : A -> bool) (l : list A) :
  List.NoDup (List.map f l) -> List.NoDup (List.map f (List.filter g l)).
Proof.
  induction l as [|x l IH]; intros Hnodup; [constructor |].
  cbn in Hnodup. inversion Hnodup as [|? ? Hx Hl]; subst. cbn.
  destruct (g x); [| now apply IH]. cbn. constructor; [| now apply IH].
  intros Hin. apply Hx. apply in_map_iff in Hin as (y & Hy & Hin).
  apply List.filter_In in Hin as [Hin _]. apply in_map_iff. now exists y.
Qed.

(** No identifier is recorded as failed twice when the batch has none
    twice. *)
Lemma failures_distinct (allRefs : list FileService.FileReference)
    (options : FileDownloadOptions) (st : PoolState) :
  List.NoDup (List.map FileService.fileId (batch allRefs (skipFileIds options))) ->
  reachable allRefs options st ->
  List.NoDup (failedFileIds (Pool.shared st)).
Proof.
  intros Hnodup Hreach. destruct (run_outstanding allRefs options st Hreach) as [rest Hperm].
  apply (Permutation_NoDup Hperm) in Hnodup. unfold outstanding in Hnodup.
  rewrite <- app_assoc in Hnodup. now apply List.NoDup_app_remove_r in Hnodup.
Qed.

End PendingFacts.

(** X5.  The array [runFileDownloads] persists after a batch over the
    scanned references lists every identifier once: those of the memory it
    loaded, each at its first place in the stored array, then those that
    failed in the batch, none of which was in the memory.  So the stored
    memory holds no identifier twice, whatever the file held before, and
    it holds as many identifiers as the set loaded plus the failures of
    the batch. *)
Theorem persisted_memory_lists_each_failure_once
    (files : list (option ConversationDetail)) (persisted : option (list string))
    (concurrency delay : Z) (verbose : bool) (r : Download.FileDownloadResult) :
  let refs := FileService.scanAllConversations files in
  let skipFileIds := Cli.loadFailedFiles persisted in
  let options := Cli.downloadOptions concurrency delay verbose skipFileIds in
  Download.downloadFiles refs options r ->
  List.NoDup (Cli.allFailed persisted r)
  /\ (forall id, In id (Cli.allFailed persisted r)
                 <-> id ∈ skipFileIds \/ In id (Download.res_failedFileIds r))
  /\ length (Cli.allFailed persisted r)
     = (size skipFileIds + Download.res_failed r)%nat.
Proof.
  intros refs skipFileIds options (st & Hreach & _ & ->).
  destruct (MemoryFacts.spread_loaded persisted) as [Hspread Hloaded].
  cbn [Download.result Download.res_failedFileIds Download.res_failed].
  assert (Hbatch : List.NoDup (List.map FileService.fileId
                     (Download.batch refs (Download.skipFileIds options)))).
  { pose proof (DownloadFacts.scanAllConversations_distinct files) as Hscan.
    apply NoDup_ListNoDup in Hscan. fold refs in Hscan.
    cbn [Download.skipFileIds options Cli.downloadOptions]. unfold Download.batch.
    destruct (0 <? size skipFileIds)%nat; [| exact Hscan].
    now apply PendingFacts.NoDup_map_filter. }
  pose proof (PendingFacts.failures_distinct refs options st Hbatch Hreach) as Hfailed.
  pose proof (DownloadFacts.failed_in_batch refs options st Hreach) as Hin.
  rewrite List.Forall_forall in Hin.
  destruct (DownloadProgress.progress_kept refs options st Hreach) as [_ Hlen].
  unfold Cli.allFailed. cbn [Download.res_failedFileIds]. split; [| split].
  - apply List.NoDup_app; [exact Hspread | exact Hfailed |].
    intros id Hid Hfail. apply Hloaded in Hid.
    apply (DownloadFacts.batch_excludes refs skipFileIds id Hid), (Hin _ Hfail).
  - intros id. rewrite in_app_iff, Hloaded. reflexivity.
  - rewrite length_app. cbn [Download.result Download.res_failedFileIds].
    rewrite Hlen. f_equal.
    unfold skipFileIds. rewrite <- (MemoryFacts.spread_set persisted). symmetry.
    apply size_list_to_set. now apply NoDup_ListNoDup.
Qed.

Lemma persisted_memory_lists_each_failure_once_witness :
  List.NoDup
    (Cli.allFailed Cases.remembered (Download.mkResult 0 1 2 3 ["file-xyz"; "file-uvw"]))
  /\ Cli.allFailed Cases.remembered (Download.mkResult 0 1 2 3 ["file-xyz"; "file-uvw"])
     = ["file-abc"; "file-old"; "file-xyz"; "file-uvw"].
Proof.
  split; [| reflexivity].
  refine (proj1 (persisted_memory_lists_each_failure_once Scenarios.stored
                   Cases.remembered 2 500 false
                   (Download.mkResult 0 1 2 3 ["file-xyz"; "file-uvw"]) _)).
  eexists. split; [exists Cases.memorySchedule; vm_compute; reflexivity |].
  split; reflexivity.
Defined.
